(** * dataloaden: a batching, caching data loader

    Shallow embedding of [data_loader.go] (the generic loader
    [genericLoader[K, V]]) and of the generated [UserLoader], which carries
    the same engine with a [go-multierror] aggregate and a configurable
    error formatter.

    The Go program is concurrent.  Every access to the loader's shared state
    happens inside [l.mu.Lock()] ... [l.mu.Unlock()], except for the body of
    [end] when it is started with [go b.end(l)].  The embedding therefore
    takes the methods as atomic transitions of a [world] and lets a scheduler
    interleave them; the mutex itself is part of the state, so that a method
    can be asked whether it holds the lock at the moment it calls [fetch]. *)

From Stdlib Require Import ZArith Ascii String List Lia Permutation Sorted.
From stdpp Require Import base option list gmap strings pretty sorting.

Open Scope Z_scope.

Module dataloaden.

(** ** Values, pointers and errors *)

(** A heap address.  A Go pointer [*V] is [nil] or an address. *)
Abbreviation loc := positive.
Abbreviation ptr := (option loc).

(** Line feed and horizontal tab, which Go writes as escapes. *)
Definition LF : string := String "010"%char EmptyString.
Definition TAB : string := String "009"%char EmptyString.

(** [strconv.Itoa] and the [%d] verb of [fmt.Sprintf]. *)
Definition Itoa (i : Z) : string := pretty i.

(** The dynamic type [error].  [errorString] is what [errors.New] builds,
    [joinError] what [errors.Join] builds, and [multierror] is
    [*multierror.Error], with its [Errors] and its [ErrorFormat] (where
    [None] is the nil function).  A formatter receives the errors through
    their messages. *)
#[warnings="-register-all"]
Inductive goerror : Type :=
  | errorString (s : string)
  | joinError (errs : list goerror)
  | multierror (Errors : list goerror) (ErrorFormat : option (list string → string)).

(** An interface value of type [error]: [None] is nil. *)
Abbreviation error_value := (option goerror).

(** [multierror.ListFormatFunc], the format of a [*multierror.Error] whose
    [ErrorFormat] is nil. *)
Definition ListFormatFunc (es : list string) : string :=
  match es with
  | [e] => ("1 error occurred:" ++ LF ++ TAB ++ "* " ++ e ++ LF ++ LF)%string
  | _ =>
      (Itoa (Z.of_nat (length es)) ++ " errors occurred:" ++ LF ++ TAB
       ++ String.concat (LF ++ TAB) (map (String.append "* ") es)
       ++ LF ++ LF)%string
  end.

(** The method [Error()]. *)
Fixpoint Error (e : goerror) : string :=
  match e with
  | errorString s => s
  | joinError errs => String.concat LF (map Error errs)
  | multierror Errors ErrorFormat =>
      default ListFormatFunc ErrorFormat (map Error Errors)
  end.

(** The errors an aggregate was built from, left to right. *)
Fixpoint leaves (e : goerror) : list goerror :=
  match e with
  | errorString s => [errorString s]
  | joinError errs => concat (map leaves errs)
  | multierror Errors _ => concat (map leaves Errors)
  end.

(** [errors.Join]: nil values are dropped, and the result is nil when
    nothing is left. *)
Definition errors_Join (errs : list error_value) : error_value :=
  match omap id errs with
  | [] => None
  | es => Some (joinError es)
  end.

(** [multierror.Append(err, e)] for one non-nil [e]: a [*multierror.Error]
    on the left is extended, anything else becomes the first element of a
    new one; a [*multierror.Error] on the right is flattened. *)
Definition multierror_Append (err : goerror) (e : goerror) : goerror :=
  let tail := match e with multierror es _ => es | _ => [e] end in
  match err with
  | multierror es fmt => multierror (es ++ tail) fmt
  | _ => multierror ([err] ++ tail) None
  end.

(** ** Outcomes of a call *)

(** A call returns, panics, or cannot proceed (a receive on a channel that
    is still open). *)
Inductive outcome (A : Type) : Type :=
  | Ok (a : A)
  | Panic (msg : string)
  | Blocked.
Arguments Ok {A} a.
Arguments Panic {A} msg.
Arguments Blocked {A}.

(** ** The loader and its batches *)

(** [K comparable] and [V any].  The comparison [key == existingKey] is the
    decidable equality of [K]; a key type whose [==] is not reflexive (a
    floating-point NaN) is outside the model. *)
Section loader.
Context {K : Type} `{Countable K} {V : Type}.

(** [genericLoaderBatch].  [done] is the channel: [true] once closed. *)
Record genericLoaderBatch : Type := Batch {
  keys : list K;
  data : list ptr;
  error : list error_value;
  closing : bool;
  done : bool
}.

(** [genericLoader].  [cache] is [None] while the map is nil; [batch] is the
    pointer to the current batch, an index into the store of batches;
    [mu] is [true] while the mutex is locked. *)
Record genericLoader : Type := Loader {
  fetch : list K → list ptr * list error_value;
  wait : Z;
  maxBatch : Z;
  cache : option (gmap K ptr);
  batch : option nat;
  mu : bool
}.

(** The function value [LoadThunk] returns: the closure of the cache hit
    captures [it]; the other one captures [batch], [pos] and [key]. *)
Inductive thunk : Type :=
  | ThunkCached (it : ptr)
  | ThunkBatch (batch : nat) (pos : nat) (key : K).

(** What [go] starts. *)
Inductive goroutine : Type :=
  | GoStartTimer (b : nat)
  | GoEnd (b : nat).

(** What another goroutine may do between two steps of the one observed:
    call a method of the loader, call a thunk, write through a pointer of
    its own, or be the [i]-th started goroutine and run. *)
Inductive action : Type :=
  | ALoadThunk (key : K)
  | ACall (t : thunk)
  | APrime (key : K) (value : ptr)
  | AClear (key : K)
  | AStore (a : loc) (v : V)
  | AGo (i : nat).

(** The state of the program: the loader, the batches allocated so far,
    the heap of values, the goroutines started and not yet run, the calls
    of [fetch] so far (newest first; each with its keys and whether the
    caller held [l.mu]), and what the other goroutines will do at each
    point where the observed one can be preempted. *)
Record world : Type := World {
  loader : genericLoader;
  batches : list genericLoaderBatch;
  heap : gmap loc V;
  goroutines : list goroutine;
  fetched : list (list K * bool);
  sched : list (list action)
}.

(** *** Field updates *)

Definition set_loader (f : genericLoader → genericLoader) (w : world) : world :=
  World (f (loader w)) (batches w) (heap w) (goroutines w) (fetched w) (sched w).
Definition set_batches (f : list genericLoaderBatch → list genericLoaderBatch)
    (w : world) : world :=
  World (loader w) (f (batches w)) (heap w) (goroutines w) (fetched w) (sched w).
Definition set_heap (f : gmap loc V → gmap loc V) (w : world) : world :=
  World (loader w) (batches w) (f (heap w)) (goroutines w) (fetched w) (sched w).
Definition set_goroutines (f : list goroutine → list goroutine) (w : world) : world :=
  World (loader w) (batches w) (heap w) (f (goroutines w)) (fetched w) (sched w).
Definition set_fetched (f : list (list K * bool) → list (list K * bool))
    (w : world) : world :=
  World (loader w) (batches w) (heap w) (goroutines w) (f (fetched w)) (sched w).
Definition set_sched (f : list (list action) → list (list action)) (w : world) : world :=
  World (loader w) (batches w) (heap w) (goroutines w) (fetched w) (f (sched w)).

Definition with_cache (c : option (gmap K ptr)) (l : genericLoader) : genericLoader :=
  Loader (fetch l) (wait l) (maxBatch l) c (batch l) (mu l).
Definition with_batch (b : option nat) (l : genericLoader) : genericLoader :=
  Loader (fetch l) (wait l) (maxBatch l) (cache l) b (mu l).
Definition with_mu (m : bool) (l : genericLoader) : genericLoader :=
  Loader (fetch l) (wait l) (maxBatch l) (cache l) (batch l) m.

Definition with_keys (ks : list K) (b : genericLoaderBatch) : genericLoaderBatch :=
  Batch ks (data b) (error b) (closing b) (done b).
Definition with_results (r : list ptr * list error_value)
    (b : genericLoaderBatch) : genericLoaderBatch :=
  Batch (keys b) r.1 r.2 (closing b) (done b).
Definition with_closing (c : bool) (b : genericLoaderBatch) : genericLoaderBatch :=
  Batch (keys b) (data b) (error b) c (done b).
Definition with_done (d : bool) (b : genericLoaderBatch) : genericLoaderBatch :=
  Batch (keys b) (data b) (error b) (closing b) d.

(** ** The monad of method bodies *)

Definition M (A : Type) : Type := world → outcome A * world.

#[global] Instance M_ret : MRet M := λ A a w, (Ok a, w).
#[global] Instance M_bind : MBind M := λ A B f m w,
  match m w with
  | (Ok a, w') => f a w'
  | (Panic msg, w') => (Panic msg, w')
  | (Blocked, w') => (Blocked, w')
  end.

Definition get_loader : M genericLoader := λ w, (Ok (loader w), w).
Definition modify (f : world → world) : M unit := λ w, (Ok tt, f w).
Definition panic {A} (msg : string) : M A := λ w, (Panic msg, w).
Definition block {A} : M A := λ w, (Blocked, w).

(** [defer d] before [body]: [d] runs when [body] returns and when it
    panics, and the outcome of [body] is kept. *)
Definition defer {A} (d : M unit) (body : M A) : M A := λ w,
  match body w with
  | (Blocked, w1) => (Blocked, w1)
  | (r, w1) =>
      match d w1 with
      | (Ok _, w2) => (r, w2)
      | (Panic msg, w2) => (Panic msg, w2)
      | (Blocked, w2) => (Blocked, w2)
      end
  end.

(** [l.mu.Lock()] and [l.mu.Unlock()]. *)
Definition Lock : M unit := λ w,
  if mu (loader w) then (Blocked, w) else (Ok tt, set_loader (with_mu true) w).
Definition Unlock : M unit := λ w,
  if mu (loader w) then (Ok tt, set_loader (with_mu false) w)
  else (Panic "sync: unlock of unlocked mutex", w).

(** [*b] for a batch pointer. *)
Definition read_batch (b : nat) : M genericLoaderBatch := λ w,
  match batches w !! b with
  | Some B => (Ok B, w)
  | None => (Panic "invalid memory address or nil pointer dereference", w)
  end.
Definition write_batch (b : nat) (f : genericLoaderBatch → genericLoaderBatch) : M unit :=
  B ← read_batch b; modify (set_batches (<[b := f B]>)).

(** [&genericLoaderBatch{done: make(chan struct{})}]. *)
Definition new_batch : M nat := λ w,
  (Ok (length (batches w)), set_batches (λ bs, bs ++ [Batch [] [] [] false false]) w).

(** [go g]. *)
Definition go (g : goroutine) : M unit :=
  modify (set_goroutines (λ gs, gs ++ [g])).

(** [time.Sleep(d)]: the model has no clock; a started timer may run at
    any later point. *)
Definition Sleep (d : Z) : M unit := mret tt.

(** [close(b.done)] and [<-b.done]. *)
Definition close_done (b : nat) : M unit :=
  B ← read_batch b;
  if done B then panic "close of closed channel"
  else modify (set_batches (<[b := with_done true B]>)).
Definition recv_done (b : nat) : M unit :=
  B ← read_batch b;
  if done B then mret tt else block.

(** [s[i]] on a slice. *)
Definition slice_index {A} (s : list A) (i : nat) : M A :=
  match s !! i with
  | Some x => mret x
  | None => panic "index out of range"
  end.

(** [int] arithmetic wraps around at 64 bits. *)
Definition int_wrap (z : Z) : Z := (z + 2 ^ 63) mod 2 ^ 64 - 2 ^ 63.
Definition int_sub (a b : Z) : Z := int_wrap (a - b).

(** ** The methods *)

(** The loop [for i, existingKey := range b.keys] of [keyIndex]: the first
    index at which [key == existingKey]. *)
Fixpoint range_keys (key : K) (ks : list K) (i : nat) : option nat :=
  match ks with
  | [] => None
  | existingKey :: rest =>
      if decide (key = existingKey) then Some i else range_keys key rest (S i)
  end.

(** [l.fetch(b.keys)], with the call recorded. *)
Definition call_fetch (ks : list K) : M (list ptr * list error_value) := λ w,
  (Ok (fetch (loader w) ks),
   set_fetched (λ log, (ks, mu (loader w)) :: log) w).

(** [end]. *)
Definition end_ (b : nat) : M unit :=
  B ← read_batch b;
  r ← call_fetch (keys B);
  write_batch b (with_results r);;
  close_done b.

(** [startTimer]. *)
Definition startTimer (b : nat) : M unit :=
  l ← get_loader;
  Sleep (wait l);;
  Lock;;
  defer Unlock (
    B ← read_batch b;
    if closing B then mret tt
    else
      modify (set_loader (with_batch None));;
      end_ b).

(** [keyIndex]. *)
Definition keyIndex (b : nat) (key : K) : M nat :=
  B ← read_batch b;
  match range_keys key (keys B) 0 with
  | Some i => mret i
  | None =>
      let pos := length (keys B) in
      write_batch b (with_keys (keys B ++ [key]));;
      (if decide (pos = 0%nat) then go (GoStartTimer b) else mret tt);;
      l ← get_loader;
      (if decide (maxBatch l ≠ 0 ∧ int_sub (maxBatch l) 1 ≤ Z.of_nat pos) then
         B' ← read_batch b;
         if closing B' then mret tt
         else
           write_batch b (with_closing true);;
           modify (set_loader (with_batch None));;
           go (GoEnd b)
       else mret tt);;
      mret pos
  end.

(** [unsafeSet]. *)
Definition unsafeSet (key : K) (value : ptr) : M unit :=
  modify (set_loader (λ l,
    let c := match cache l with None => ∅ | Some c => c end in
    with_cache (Some (<[key := value]> c)) l)).

(** [l.cache[key]] with the comma-ok form; a nil map has no key. *)
Definition cache_lookup (cache : option (gmap K ptr)) (key : K) : option ptr :=
  c ← cache; c !! key.

(** [LoadThunk], up to the function value it returns. *)
Definition LoadThunk (key : K) : M thunk :=
  Lock;;
  defer Unlock (
    l ← get_loader;
    match cache_lookup (cache l) key with
    | Some it => mret (ThunkCached it)
    | None =>
        batch ← match batch l with
                | None =>
                    b ← new_batch;
                    modify (set_loader (with_batch (Some b)));;
                    mret b
                | Some b => mret b
                end;
        pos ← keyIndex batch key;
        mret (ThunkBatch batch pos key)
    end).

(** [*value] and [&cpy].  A Go pointer that is not nil points into the
    heap, so the second failure of [deref] is not one a Go program meets. *)
Definition deref (value : ptr) : M V := λ w,
  match value with
  | None => (Panic "invalid memory address or nil pointer dereference", w)
  | Some a =>
      match heap w !! a with
      | Some v => (Ok v, w)
      | None => (Panic "unmapped address", w)
      end
  end.
Definition address_of (cpy : V) : M ptr := λ w,
  let a := fresh (dom (heap w)) in
  (Ok (Some a), set_heap (<[a := cpy]>) w).

(** [*a = v], by a caller that holds [a]. *)
Definition store (a : loc) (v : V) : M unit :=
  modify (set_heap (alter (λ _, v) a)).

(** [Prime]. *)
Definition Prime (key : K) (value : ptr) : M bool :=
  Lock;;
  defer Unlock (
    l ← get_loader;
    let found := bool_decide (is_Some (cache_lookup (cache l) key)) in
    (if found then mret tt
     else
       cpy ← deref value;
       p ← address_of cpy;
       unsafeSet key p);;
    mret (negb found)).

(** [Clear].  [delete] on a nil map does nothing. *)
Definition Clear (key : K) : M unit :=
  Lock;;
  defer Unlock (
    modify (set_loader (λ l, with_cache (delete key <$> cache l) l))).

(** The loop of [LoadThunk]'s function value over [batch.error] in
    [data_loader.go]: [errs = errors.Join(errs, err)] for every non-nil
    [err]. *)
Definition joinErrors (batch_error : list error_value) : error_value :=
  foldl (λ errs err,
           match err with
           | None => errs
           | Some _ => errors_Join [errs; err]
           end) None batch_error.

(** The two loaders differ in how the function value combines
    [batch.error]. *)
Variable aggregate : list error_value → error_value.

(** Calling the function value [LoadThunk] returned. *)
Definition thunk_call (t : thunk) : M (ptr * error_value) :=
  match t with
  | ThunkCached it => mret (it, None)
  | ThunkBatch batch pos key =>
      recv_done batch;;
      B ← read_batch batch;
      data_ ← (if decide (pos < length (data B))%nat
               then slice_index (data B) pos
               else mret None);
      match aggregate (error B) with
      | Some errs => mret (data_, Some errs)
      | None =>
          Lock;;
          defer Unlock (
            unsafeSet key data_;;
            mret (data_, None))
      end
  end.

(** ** Goroutines and the scheduler *)

Definition run_goroutine (g : goroutine) : M unit :=
  match g with
  | GoStartTimer b => startTimer b
  | GoEnd b => end_ b
  end.

(** The [i]-th started goroutine runs. *)
Definition schedule (i : nat) : M unit := λ w,
  match goroutines w !! i with
  | Some g => run_goroutine g (set_goroutines (delete i) w)
  | None => (Ok tt, w)
  end.

Definition exec (a : action) : M unit :=
  match a with
  | ALoadThunk key => LoadThunk key;; mret tt
  | ACall t => thunk_call t;; mret tt
  | APrime key value => Prime key value;; mret tt
  | AClear key => Clear key
  | AStore a v => store a v
  | AGo i => schedule i
  end.

(** One action of another goroutine, as the observed one sees it: the
    world afterwards.  A blocked action has changed nothing; a panic is the
    other goroutine's. *)
Definition interfere (w : world) (a : action) : world := (exec a w).2.

Definition run (acts : list action) (w : world) : world := foldl interfere w acts.

(** A point at which the observed goroutine can be preempted. *)
Definition yield : M unit := λ w,
  match sched w with
  | [] => (Ok tt, w)
  | acts :: rest => (Ok tt, run acts (set_sched (λ _, rest) w))
  end.

(** The started goroutines run, oldest first. *)
Fixpoint drain (n : nat) : M unit :=
  match n with
  | O => mret tt
  | S n => schedule 0;; drain n
  end.

(** A call that blocks parks its goroutine: the started goroutines run,
    and the call is tried again. *)
Definition await {A} (m : M A) : M A := λ w,
  match m w with
  | (Blocked, _) => (drain (length (goroutines w));; m) w
  | r => r
  end.

(** Calling a value of function type; the zero value panics. *)
Definition func_call (f : option thunk) : M (ptr * error_value) :=
  match f with
  | Some t => await (thunk_call t)
  | None => panic "invalid memory address or nil pointer dereference"
  end.

(** [s[i] = x] on a slice. *)
Definition slice_store {A} (s : list A) (i : nat) (x : A) : M (list A) :=
  if decide (i < length s)%nat then mret (<[i := x]> s)
  else panic "index out of range".

(** [Load]. *)
Definition Load (key : K) : M (ptr * error_value) :=
  t ← LoadThunk key;
  yield;;
  func_call (Some t).

(** The first loop of [LoadAll] and of [LoadAllThunk], from index [i]. *)
Fixpoint LoadAll_attach (i : nat) (ks : list K) (results : list (option thunk))
    : M (list (option thunk)) :=
  match ks with
  | [] => mret results
  | key :: rest =>
      yield;;
      t ← LoadThunk key;
      results ← slice_store results i (Some t);
      LoadAll_attach (S i) rest results
  end.

(** The second loop, from index [i]. *)
Fixpoint LoadAll_resolve (i : nat) (results : list (option thunk))
    (users : list ptr) (errs : list error_value)
    : M (list ptr * list error_value) :=
  match results with
  | [] => mret (users, errs)
  | thunk :: rest =>
      yield;;
      r ← func_call thunk;
      users ← slice_store users i r.1;
      errs ← slice_store errs i r.2;
      LoadAll_resolve (S i) rest users errs
  end.

(** [LoadAll]. *)
Definition LoadAll (ks : list K) : M (list ptr * list error_value) :=
  results ← LoadAll_attach 0 ks (replicate (length ks) None);
  LoadAll_resolve 0 results
    (replicate (length ks) None) (replicate (length ks) None).

(** [LoadAllThunk] and the call of the function value it returns, which
    captures [keys] and [results]. *)
Definition LoadAllThunk (ks : list K) : M (list K * list (option thunk)) :=
  results ← LoadAll_attach 0 ks (replicate (length ks) None);
  mret (ks, results).
Definition LoadAllThunk_call (f : list K * list (option thunk))
    : M (list ptr * list error_value) :=
  LoadAll_resolve 0 f.2
    (replicate (length f.1) None) (replicate (length f.1) None).

(** The worlds in which the first loop of [LoadAll] and of [LoadAllThunk]
    calls [LoadThunk], one for each key, in the order of the keys. *)
Fixpoint attach_worlds (ks : list K) (w : world) : list world :=
  match ks with
  | [] => []
  | key :: rest =>
      let w1 := (yield w).2 in
      w1 :: attach_worlds rest (LoadThunk key w1).2
  end.

(** [NewDataLoader], and the world in which the program starts. *)
Definition NewDataLoader (fetchFn : list K → list ptr * list error_value)
    (waitDuration : Z) (maxBatch : Z) : genericLoader :=
  Loader fetchFn waitDuration maxBatch None None false.

Definition start (l : genericLoader) (h : gmap loc V) (sc : list (list action)) : world :=
  World l [] h [] [] sc.

(** The worlds the program can be in. *)
Definition reachable (l : genericLoader) (w : world) : Prop :=
  ∃ h sc acts, w = run acts (start l h sc).

(** *** [LoadAll] as the specification words it

    One deferred per key in a single pass, then each resolved in order;
    the two outputs are the components of the results, in that order. *)
Fixpoint mapM {A B} (f : A → M B) (xs : list A) : M (list B) :=
  match xs with
  | [] => mret []
  | x :: xs => y ← f x; ys ← mapM f xs; mret (y :: ys)
  end.

Definition LoadAll_spec (ks : list K) : M (list ptr * list error_value) :=
  deferreds ← mapM (λ key, yield;; LoadThunk key) ks;
  resolved ← mapM (λ t, yield;; func_call (Some t)) deferreds;
  mret (resolved.*1, resolved.*2).

End loader.

(** ** Invariants of the engine *)

Section invariants.
Context {K : Type} `{Countable K} {V : Type}.
Implicit Types (w : world (K:=K) (V:=V)) (B : genericLoaderBatch (K:=K)).

(** The values of type [int]. *)
Definition int_range (z : Z) : Prop := - 2 ^ 63 ≤ z < 2 ^ 63.

Definition goroutine_batch (g : goroutine) : nat :=
  match g with
  | GoStartTimer b => b
  | GoEnd b => b
  end.

(** What holds of every batch between two critical sections: its keys are
    distinct and within the cap; while it is not done, the goroutine that
    will complete it is started; and a started goroutine finds the batch
    in the state it expects. *)
Record batch_ok w (b : nat) B : Prop := {
  keys_NoDup : NoDup (keys B);
  keys_within :
    0 < maxBatch (loader w) → Z.of_nat (length (keys B)) ≤ maxBatch (loader w);
  closing_pending : done B = false → closing B = true → GoEnd b ∈ goroutines w;
  open_pending : done B = false → closing B = false → GoStartTimer b ∈ goroutines w;
  end_sound : GoEnd b ∈ goroutines w → closing B = true ∧ done B = false;
  timer_sound : GoStartTimer b ∈ goroutines w → closing B = false → done B = false;
  uncapped_open : maxBatch (loader w) = 0 → closing B = false
}.

(** The current batch is open, has a key, and has room. *)
Definition current_ok w : Prop :=
  ∀ b, batch (loader w) = Some b →
    ∃ B, batches w !! b = Some B ∧ closing B = false ∧ done B = false
         ∧ keys B ≠ []
         ∧ (0 < maxBatch (loader w) →
            Z.of_nat (length (keys B)) < maxBatch (loader w)).

(** What holds of every recorded call of [fetch]. *)
Definition call_ok w (c : list K * bool) : Prop :=
  NoDup c.1
  ∧ (0 < maxBatch (loader w) → Z.of_nat (length c.1) ≤ maxBatch (loader w))
  ∧ (maxBatch (loader w) = 0 → c.2 = true).

Record wf w : Prop := {
  wf_mu : mu (loader w) = false;
  wf_int : int_range (maxBatch (loader w));
  wf_batches : ∀ b B, batches w !! b = Some B → batch_ok w b B;
  wf_current : current_ok w;
  wf_goroutines : NoDup (goroutines w);
  wf_alloc : ∀ g, g ∈ goroutines w → (goroutine_batch g < length (batches w))%nat;
  wf_nocap : maxBatch (loader w) = 0 → ∀ b, GoEnd b ∉ goroutines w;
  wf_fetched : Forall (call_ok w) (fetched w)
}.

(** Whether [keyIndex], appending at position [pos] to a batch whose
    [closing] is [cl], closes the batch: the two guards of its last
    statement. *)
Definition caps (n : Z) (pos : nat) (cl : bool) : bool :=
  bool_decide (n ≠ 0 ∧ int_sub n 1 ≤ Z.of_nat pos) && negb cl.

(** What the guarded read [batch.data[pos]] of the function value
    yields. *)
Definition data_at B (pos : nat) : ptr := default None (data B !! pos).

(** From [w] to [w'] no batch is removed, the keys of a batch only grow
    at the end, a batch that is done is left as it is, and a batch that is
    closing stays so. *)
Definition extends w w' : Prop :=
  ∀ b B, batches w !! b = Some B →
    ∃ B', batches w' !! b = Some B' ∧ keys B `prefix_of` keys B'
          ∧ (done B = true → B' = B)
          ∧ (closing B = true → closing B' = true).

(** From [w] to [w'] no key other than those of [new] joins a batch. *)
Definition attached (new : list K) w w' : Prop :=
  ∀ b B' k, batches w' !! b = Some B' → k ∈ keys B' →
    k ∈ new ∨ ∃ B, batches w !! b = Some B ∧ k ∈ keys B.

Definition cached w (key : K) : Prop :=
  is_Some (cache_lookup (cache (loader w)) key).

(** What one step from [w] to [w'] keeps: the invariant and the
    configuration; the batches, up to the keys in [new]; and the cache
    entries, up to the keys in [cleared]. *)
Record advances (new cleared : list K) w w' : Prop := {
  adv_wf : wf w';
  adv_maxBatch : maxBatch (loader w') = maxBatch (loader w);
  adv_fetch : fetch (loader w') = fetch (loader w);
  adv_extends : extends w w';
  adv_attached : attached new w w';
  adv_cached : ∀ k, k ∉ cleared → cached w k → cached w' k
}.

(** The keys an action can attach, and those it can remove from the
    cache. *)
Definition action_new w (a : action (K:=K) (V:=V)) : list K :=
  match a with
  | ALoadThunk key =>
      if cache_lookup (cache (loader w)) key is Some _ then [] else [key]
  | _ => []
  end.
Definition action_cleared (a : action (K:=K) (V:=V)) : list K :=
  match a with
  | AClear key => [key]
  | _ => []
  end.

(** A function value returned by [LoadThunk] refers to an allocated
    batch, and its index is that of its key in the batch. *)
Definition thunk_ok w (t : thunk (K:=K)) : Prop :=
  match t with
  | ThunkCached _ => True
  | ThunkBatch b pos key => ∃ B, batches w !! b = Some B ∧ keys B !! pos = Some key
  end.

(** The function value is the one [LoadThunk] returns for [key] when it
    is called in [w]. *)
Definition thunk_for w (key : K) (t : thunk (K:=K)) : Prop :=
  (LoadThunk key w).1 = Ok t.

(** [r] is what a call of the function value [t] returns once its batch is
    done: the cached value, or the value at its index together with the
    aggregate of the batch. *)
Definition resolved (aggregate : list error_value → error_value) w
    (t : thunk (K:=K)) (r : ptr * error_value) : Prop :=
  match t with
  | ThunkCached it => r = (it, None)
  | ThunkBatch b pos _ =>
      ∃ B, batches w !! b = Some B ∧ done B = true
           ∧ r = (data_at B pos, aggregate (error B))
  end.

(** [r] answers [key], whose [LoadThunk] was called in [w0], as seen in
    [w']: the value the cache held for the key in [w0] with a nil error;
    or, when the key was not cached in [w0], the value at the index of the
    key in a batch that is done in [w'], with the aggregate of that
    batch. *)
Definition answers (aggregate : list error_value → error_value) w0 w'
    (key : K) (r : ptr * error_value) : Prop :=
  match cache_lookup (cache (loader w0)) key with
  | Some it => r = (it, None)
  | None =>
      ∃ (b pos : nat) B,
        batches w' !! b = Some B ∧ done B = true ∧ keys B !! pos = Some key
        ∧ r = (data_at B pos, aggregate (error B))
  end.

End invariants.
End dataloaden.

(** * The generated [UserLoader]

    Its methods are those of [genericLoader] at [K := string]; what differs
    is the aggregate of [batch.error] and its format. *)

Module example.
Import dataloaden.

(** The loop of [LoadThunk]'s function value over [batch.error], and the
    assignment of [l.formatErrors] to a [*multierror.Error]. *)
Definition appendErrors (formatErrors : option (list string → string))
    (batch_error : list error_value) : error_value :=
  let errs :=
    foldl (λ errs err,
             match err with
             | None => errs
             | Some e =>
                 match errs with
                 | None => Some e
                 | Some acc => Some (multierror_Append acc e)
                 end
             end) None batch_error in
  match errs with
  | Some (multierror es _) => Some (multierror es formatErrors)
  | _ => errs
  end.

(** The local type of [defaultFormatErrors].  A count is the number of
    elements of a slice, so [nat] holds it. *)
Record errorOccurrences : Type := ErrorOccurrences {
  error : string;
  occurrences : nat
}.

(** The comparison handed to [sort.Slice]. *)
Definition less (a b : errorOccurrences) : bool :=
  bool_decide (occurrences b < occurrences a)%nat.

(** [countsByErrors[err.Error()]++] for each error. *)
Definition countsByErrors (errors : list string) : gmap string nat :=
  foldl (λ m err, <[err := S (default 0%nat (m !! err))]> m) ∅ errors.

Section formatting.

(** Go leaves open in which order [range] visits a map and in which order
    [sort.Slice] leaves elements that compare equal. *)
Variable range_map : gmap string nat → list (string * nat).
Variable sort_Slice :
  (errorOccurrences → errorOccurrences → bool) →
  list errorOccurrences → list errorOccurrences.

Definition sortedErrorOccurrences (errors : list string) : list errorOccurrences :=
  sort_Slice less
    (foldl (λ acc p, acc ++ [ErrorOccurrences p.1 p.2]) []
       (range_map (countsByErrors errors))).

(** What the loop over [sortedErrorOccurrences] writes for one element. *)
Definition bullet (seo : errorOccurrences) : string :=
  (" * " ++ Itoa (Z.of_nat (occurrences seo)) ++ " " ++ error seo ++ LF)%string.

(** [defaultFormatErrors].  [errors] holds each error's [Error()]. *)
Definition defaultFormatErrors (errors : list string) : string :=
  match errors with
  | [e] => e
  | _ =>
      let sb := foldl (λ sb seo, (sb ++ bullet seo)%string) EmptyString
                  (sortedErrorOccurrences errors) in
      (Itoa (Z.of_nat (length errors)) ++ " errors occurred:" ++ LF
       ++ sb ++ LF)%string
  end.

(** [NewUserLoader]'s choice of [formatErrors]. *)
Definition NewUserLoader_formatErrors (config_FormatErrors : option (list string → string))
    : option (list string → string) :=
  match config_FormatErrors with
  | None => Some defaultFormatErrors
  | Some f => Some f
  end.

End formatting.

(** The lines written for a list of elements, first to last. *)
Definition bullets (seos : list errorOccurrences) : string :=
  foldr (λ seo s, (bullet seo ++ s)%string) EmptyString seos.

(** How often a message occurs. *)
Definition count (msg : string) (errors : list string) : nat :=
  length (filter (λ e, e = msg) errors).

(** An error that is not a [*multierror.Error]. *)
Definition plain (e : goerror) : Prop :=
  match e with
  | multierror _ _ => False
  | _ => True
  end.

(** One way to visit and to sort: the map in the order of [map_to_list],
    and a stable merge sort. *)
Definition range_map_list (m : gmap string nat) : list (string * nat) :=
  map_to_list m.
Definition sort_Slice_merge
    (lt : errorOccurrences → errorOccurrences → bool)
    (s : list errorOccurrences) : list errorOccurrences :=
  merge_sort (λ a b, Is_true (negb (lt b a))) s.

End example.

(** * Sample runs

    The loaders and the [fetch] functions of the repository's tests, at
    [K := nat] and [V := string]. *)

Module samples.
Import dataloaden.

(** A value for every key and no error; the value of key [k] is held at
    address [k + 1]. *)
Definition fetch_values (ks : list nat) : list ptr * list error_value :=
  ((λ k, Some (Pos.of_succ_nat k)) <$> ks, (λ _, None) <$> ks).

(** The [fetch] of [TestErrorHandling]. *)
Definition fetch_boom (ks : list nat) : list ptr * list error_value :=
  ([None], [Some (errorString "boom")]).

(** A [fetch] that fails on key [1] only. *)
Definition fetch_partial (ks : list nat) : list ptr * list error_value :=
  ((λ k, if decide (k = 1%nat) then None else Some (Pos.of_succ_nat k)) <$> ks,
   (λ k, if decide (k = 1%nat) then Some (errorString "boom") else None) <$> ks).

(** A [fetch] that returns fewer values than it was given keys. *)
Definition fetch_short (ks : list nat) : list ptr * list error_value :=
  ([], []).

Definition heap0 : gmap loc string := {[ 7%positive := "Primed"%string ]}.

(** [NewDataLoader(fetchFn, 1*time.Millisecond, 10)] and the like. *)
Definition world_of (fetchFn : list nat → list ptr * list error_value)
    (maxBatch : Z) : world (K:=nat) (V:=string) :=
  start (NewDataLoader fetchFn 1000000 maxBatch) heap0 [].

(** Key [0] is loaded and the timer of its batch fires. *)
Definition timeout_run : world :=
  run joinErrors [ALoadThunk 0%nat; AGo 0%nat] (world_of fetch_values 10).

(** Keys [0] and [1] fill a batch of size 2, and its [end] runs. *)
Definition capacity_run : world :=
  run joinErrors [ALoadThunk 0%nat; ALoadThunk 1%nat; AGo 1%nat]
    (world_of fetch_values 2).

(** Keys [0], [1], [2] are attached and the batch's timer fires, with a
    [fetch] that fails on key [1]. *)
Definition partial_run : world :=
  run joinErrors [ALoadThunk 0%nat; ALoadThunk 1%nat; ALoadThunk 2%nat; AGo 0%nat]
    (world_of fetch_partial 10).

(** Key [0] is attached and the timer fires, with a [fetch] that returns
    nothing. *)
Definition short_run : world :=
  run joinErrors [ALoadThunk 0%nat; AGo 0%nat] (world_of fetch_short 10).

(** Key [1] is primed with the value at address [7]. *)
Definition primed_run : world :=
  run joinErrors [APrime 1%nat (Some 7%positive)] (world_of fetch_values 10).

(** Keys [0] and [1] are attached with no cap. *)
Definition uncapped_run : world :=
  run joinErrors [ALoadThunk 0%nat; ALoadThunk 1%nat] (world_of fetch_values 0).

(** Key [0] is attached to a batch of size 2. *)
Definition open_run : world :=
  run joinErrors [ALoadThunk 0%nat] (world_of fetch_values 2).

(** Keys [0] and [1] fill a batch of size 2; key [0] is loaded again and
    opens a second batch; the [end] of the first batch runs, and the
    function value obtained first for key [0] is called, which stores the
    value of key [0] in the cache. *)
Definition refetch_run : world :=
  run joinErrors
    [ALoadThunk 0%nat; ALoadThunk 1%nat; ALoadThunk 0%nat; AGo 1%nat;
     ACall (ThunkBatch 0 0 0%nat)]
    (world_of fetch_values 2).

End samples.

(** * What the callers are served

    Notions used to state what [Load], [LoadAll] and [LoadAllThunk] return
    in terms of [fetch]. *)

Module delivery.
Import dataloaden.

Section delivery.
Context {K : Type} `{Countable K} {V : Type}.
Implicit Types (w : world (K:=K) (V:=V)) (B : genericLoaderBatch (K:=K)).

(** Every batch that is done holds what [fetch] returned for its keys. *)
Definition delivered w : Prop :=
  ∀ b B, batches w !! b = Some B → done B = true →
    (data B, error B) = fetch (loader w) (keys B).

(** The calls of [fetch] so far are those of the batches that are done,
    one for each batch, made with [l.mu] held unless the batch was closed
    by its size. *)
Definition accounted w : Prop :=
  fetched w
  ≡ₚ (λ B, (keys B, negb (closing B)))
       <$> filter (λ B, done B = true) (batches w).

Record sound w : Prop := {
  sound_wf : wf w;
  sound_delivered : delivered w;
  sound_accounted : accounted w
}.

(** [w'] comes after [w]: steps of any goroutine, and any change of what
    the scheduler will do next. *)
Inductive follows (aggregate : list error_value → error_value)
    : world (K:=K) (V:=V) → world (K:=K) (V:=V) → Prop :=
  | follows_refl w : follows aggregate w w
  | follows_step w w' a :
      follows aggregate w w' → follows aggregate w (interfere aggregate w' a)
  | follows_sched w w' f :
      follows aggregate w w' → follows aggregate w (set_sched f w').

(** [r] is the value at the position of [key] in the output of [fetchFn]
    on a list of distinct keys that is in [log], together with the
    aggregate of the errors of that output. *)
Definition fetched_for (fetchFn : list K → list ptr * list error_value)
    (aggregate : list error_value → error_value) (log : list (list K))
    (key : K) (r : ptr * error_value) : Prop :=
  ∃ ks (pos : nat),
    ks ∈ log ∧ NoDup ks ∧ ks !! pos = Some key
    ∧ r = (default None ((fetchFn ks).1 !! pos), aggregate (fetchFn ks).2).

(** [r] is the result for [key], whose [LoadThunk] was called in [w0],
    as seen in [w']: the value the cache held for the key in [w0] with a
    nil error; or, when the key was not cached in [w0], what a call of
    [fetch] recorded in [w'] gave for the key. *)
Definition served (aggregate : list error_value → error_value)
    (fetchFn : list K → list ptr * list error_value) w0 w' (key : K)
    (r : ptr * error_value) : Prop :=
  match cache_lookup (cache (loader w0)) key with
  | Some it => r = (it, None)
  | None => fetched_for fetchFn aggregate (fetched w').*1 key r
  end.

End delivery.
End delivery.

(** * Properties *)

Import dataloaden.

(** Unfolds the monad and its primitives on a world given by its fields;
    [mcompute] unfolds the methods as well. *)
Ltac mprim :=
  cbv beta iota zeta delta
    [Lock defer Unlock get_loader modify panic block read_batch write_batch
     new_batch go Sleep close_done recv_done slice_index slice_store
     call_fetch unsafeSet deref address_of store mbind M_bind mret M_ret
     set_loader set_batches set_heap set_goroutines set_fetched set_sched
     with_cache with_batch with_mu with_keys with_results with_closing
     with_done loader batches heap goroutines fetched sched
     fetch wait maxBatch cache batch mu keys data dataloaden.error closing
     done fst snd].

(** Reduces the projections of a world given by its fields. *)
Ltac fields :=
  unfold current_ok, extends, attached, cached in *;
  cbn [loader batches heap goroutines fetched sched fetch wait maxBatch
       cache batch mu keys data dataloaden.error closing done] in *.

Ltac mcompute :=
  unfold LoadThunk, keyIndex, startTimer, end_, Prime, Clear, thunk_call,
    run_goroutine;
  mprim.

Section methods.
Context {K : Type} `{Countable K} {V : Type}.
Implicit Types (w : world (K:=K) (V:=V)) (B : genericLoaderBatch (K:=K)).
Implicit Types (key : K) (ks : list K) (h : gmap loc V) (c : option (gmap K ptr)).
Implicit Types (bs : list (genericLoaderBatch (K:=K))) (gs : list goroutine).
Implicit Types (fl : list (list K * bool)) (sc : list (list (action (K:=K) (V:=V)))).
Implicit Types (f : list K → list ptr * list error_value).

(** ** The loop of [keyIndex] *)

Lemma range_keys_Some key ks i j :
  range_keys key ks i = Some j →
  (i ≤ j)%nat ∧ ks !! (j - i)%nat = Some key
  ∧ ∀ k, (k < j - i)%nat → ks !! k ≠ Some key.
Proof.
  revert i. induction ks as [|x ks IH]; intros i; simpl; [done|].
  case_decide as Hx.
  - intros [= <-]. rewrite Nat.sub_diag. subst x. split; [lia|]. split; [done|].
    intros k Hk. lia.
  - intros Hj. destruct (IH _ Hj) as (Hle & Hlk & Hmin).
    split; [lia|].
    replace (j - i)%nat with (S (j - S i)) by lia. split; [done|].
    intros [|k] Hk; simpl; [congruence|]. apply Hmin. lia.
Qed.

Lemma range_keys_None key ks i :
  range_keys key ks i = None ↔ key ∉ ks.
Proof.
  revert i. induction ks as [|x ks IH]; intros i; simpl.
  - split; [intros _; apply not_elem_of_nil | done].
  - case_decide as Hx.
    + subst x. split; [done|]. intros Hn. destruct Hn. left.
    + rewrite IH, not_elem_of_cons. split; [by intros Hn | by intros [_ Hn]].
Qed.

Lemma range_keys_elem key ks :
  key ∈ ks → ∃ j, range_keys key ks 0 = Some j ∧ ks !! j = Some key.
Proof.
  intros Hin. destruct (range_keys key ks 0) as [j|] eqn:Hr.
  - exists j. split; [done|].
    apply range_keys_Some in Hr as (_ & Hlk & _).
    by rewrite Nat.sub_0_r in Hlk.
  - apply range_keys_None in Hr. done.
Qed.

(** ** [keyIndex] on a world given by its fields *)

Lemma keyIndex_present f wt n c bt m bs h gs fl sc b B key i :
  bs !! b = Some B → range_keys key (keys B) 0 = Some i →
  keyIndex b key (World (Loader f wt n c bt m) bs h gs fl sc)
  = (Ok i, World (Loader f wt n c bt m) bs h gs fl sc).
Proof.
  intros Hb Hr. mcompute. rewrite Hb. destruct B as [ks dt er cl dn].
  simpl in Hr. mcompute. by rewrite Hr.
Qed.

Lemma keyIndex_append f wt n c bt m bs h gs fl sc b ks dt er cl dn key :
  bs !! b = Some (Batch ks dt er cl dn) → range_keys key ks 0 = None →
  keyIndex b key (World (Loader f wt n c bt m) bs h gs fl sc)
  = (Ok (length ks),
     World (Loader f wt n c (if caps n (length ks) cl then None else bt) m)
       (<[b := Batch (ks ++ [key]) dt er (cl || caps n (length ks) cl) dn]> bs) h
       (gs ++ (if decide (length ks = 0%nat) then [GoStartTimer b] else [])
           ++ (if caps n (length ks) cl then [GoEnd b] else []))
       fl sc).
Proof.
  intros Hb Hr. pose proof (lookup_lt_Some _ _ _ Hb) as Hlt.
  mcompute. rewrite Hb. mcompute. rewrite Hr, Hb. mcompute.
  unfold caps.
  destruct (decide (length ks = 0%nat)) as [Hz|Hz]; mcompute;
    (destruct (decide (n ≠ 0 ∧ int_sub n 1 ≤ Z.of_nat (length ks))) as [Hc|Hc];
     [rewrite (bool_decide_eq_true_2 _ Hc) | rewrite (bool_decide_eq_false_2 _ Hc)];
     simpl; mcompute;
     [rewrite list_lookup_insert_eq by done; mcompute; destruct cl; simpl;
       mcompute; rewrite ?list_lookup_insert_eq by done; mcompute;
       rewrite ?list_insert_insert_eq, ?app_nil_r, <- ?app_assoc; try done
     | rewrite ?app_nil_r, ?orb_false_r; done]).
Qed.

(** ** [LoadThunk] on a world given by its fields *)

Lemma LoadThunk_cached f wt n c bt bs h gs fl sc key it :
  cache_lookup c key = Some it →
  LoadThunk key (World (Loader f wt n c bt false) bs h gs fl sc)
  = (Ok (ThunkCached it), World (Loader f wt n c bt false) bs h gs fl sc).
Proof. intros Hc. mcompute. by rewrite Hc. Qed.

Lemma LoadThunk_present f wt n c bs h gs fl sc b B key i :
  cache_lookup c key = None →
  bs !! b = Some B → range_keys key (keys B) 0 = Some i →
  LoadThunk key (World (Loader f wt n c (Some b) false) bs h gs fl sc)
  = (Ok (ThunkBatch b i key), World (Loader f wt n c (Some b) false) bs h gs fl sc).
Proof.
  intros Hc Hb Hr. unfold LoadThunk. mprim. rewrite Hc. mprim.
  rewrite (keyIndex_present _ _ _ _ _ _ _ _ _ _ _ _ _ _ _ Hb Hr). by mprim.
Qed.

Lemma LoadThunk_append f wt n c bs h gs fl sc b ks dt er cl dn key :
  cache_lookup c key = None →
  bs !! b = Some (Batch ks dt er cl dn) → range_keys key ks 0 = None →
  LoadThunk key (World (Loader f wt n c (Some b) false) bs h gs fl sc)
  = (Ok (ThunkBatch b (length ks) key),
     World (Loader f wt n c (if caps n (length ks) cl then None else Some b) false)
       (<[b := Batch (ks ++ [key]) dt er (cl || caps n (length ks) cl) dn]> bs) h
       (gs ++ (if decide (length ks = 0%nat) then [GoStartTimer b] else [])
           ++ (if caps n (length ks) cl then [GoEnd b] else []))
       fl sc).
Proof.
  intros Hc Hb Hr. unfold LoadThunk. mprim. rewrite Hc. mprim.
  rewrite (keyIndex_append _ _ _ _ _ _ _ _ _ _ _ _ _ _ _ _ _ _ Hb Hr). mprim.
  by destruct (caps n (length ks) cl).
Qed.

Lemma LoadThunk_fresh f wt n c bs h gs fl sc key :
  cache_lookup c key = None →
  LoadThunk key (World (Loader f wt n c None false) bs h gs fl sc)
  = (Ok (ThunkBatch (length bs) 0 key),
     World (Loader f wt n c (if caps n 0 false then None else Some (length bs)) false)
       (bs ++ [Batch [key] [] [] (caps n 0 false) false]) h
       (gs ++ [GoStartTimer (length bs)]
           ++ (if caps n 0 false then [GoEnd (length bs)] else []))
       fl sc).
Proof.
  intros Hc. unfold LoadThunk. mprim. rewrite Hc. mprim.
  erewrite keyIndex_append; [|apply list_lookup_middle; done|done].
  mprim. simpl.
  replace (length bs) with (length bs + 0)%nat at 3 5 by lia.
  rewrite insert_app_r. simpl. rewrite Nat.add_0_r.
  by destruct (caps n 0 false).
Qed.

(** ** The function value, [Prime], [Clear], [end] and [startTimer] *)

Section thunks.
Variable aggregate : list error_value → error_value.

Lemma thunk_call_cached w it :
  thunk_call aggregate (ThunkCached it) w = (Ok (it, None), w).
Proof. done. Qed.

Lemma thunk_call_invalid w b pos key :
  batches w !! b = None →
  ∃ msg, thunk_call aggregate (ThunkBatch b pos key) w = (Panic msg, w).
Proof.
  destruct w as [[f wt n c bt m] bs h gs fl sc]. simpl. intros Hb.
  mcompute. rewrite Hb. eauto.
Qed.

Lemma thunk_call_blocked w b B pos key :
  batches w !! b = Some B → done B = false →
  thunk_call aggregate (ThunkBatch b pos key) w = (Blocked, w).
Proof.
  destruct w as [[f wt n c bt m] bs h gs fl sc], B as [ks dt er cl dn].
  simpl. intros Hb ->. mcompute. by rewrite Hb.
Qed.

Lemma thunk_call_error w b B pos key errs :
  batches w !! b = Some B → done B = true →
  aggregate (error B) = Some errs →
  thunk_call aggregate (ThunkBatch b pos key) w
  = (Ok (data_at B pos, Some errs), w).
Proof.
  destruct w as [[f wt n c bt m] bs h gs fl sc], B as [ks dt er cl dn].
  unfold data_at. mprim. intros Hb -> Ha. mcompute. rewrite Hb. mprim.
  rewrite Hb. mprim.
  destruct (decide (pos < length dt)%nat) as [Hlt|Hlt].
  - destruct (lookup_lt_is_Some_2 dt pos Hlt) as [x ->]. by rewrite Ha.
  - rewrite lookup_ge_None_2 by lia. by rewrite Ha.
Qed.

Lemma thunk_call_success f wt n c bt bs h gs fl sc b B pos key :
  bs !! b = Some B → done B = true → aggregate (error B) = None →
  thunk_call aggregate (ThunkBatch b pos key)
    (World (Loader f wt n c bt false) bs h gs fl sc)
  = (Ok (data_at B pos, None),
     World (Loader f wt n (Some (<[key := data_at B pos]> (default ∅ c))) bt false)
       bs h gs fl sc).
Proof.
  destruct B as [ks dt er cl dn].
  unfold data_at. mprim. intros Hb -> Ha. mcompute. rewrite Hb. mprim.
  rewrite Hb. mprim.
  destruct (decide (pos < length dt)%nat) as [Hlt|Hlt].
  - destruct (lookup_lt_is_Some_2 dt pos Hlt) as [x ->]. rewrite Ha.
    by destruct c.
  - rewrite lookup_ge_None_2 by lia. rewrite Ha. by destruct c.
Qed.

End thunks.

Lemma Prime_present f wt n c bt bs h gs fl sc key value it :
  cache_lookup c key = Some it →
  Prime key value (World (Loader f wt n c bt false) bs h gs fl sc)
  = (Ok false, World (Loader f wt n c bt false) bs h gs fl sc).
Proof.
  intros Hc. mcompute. rewrite Hc.
  by rewrite bool_decide_eq_true_2 by eauto.
Qed.

Lemma Prime_nil f wt n c bt bs h gs fl sc key :
  cache_lookup c key = None →
  Prime key None (World (Loader f wt n c bt false) bs h gs fl sc)
  = (Panic "invalid memory address or nil pointer dereference",
     World (Loader f wt n c bt false) bs h gs fl sc).
Proof.
  intros Hc. mcompute. rewrite Hc.
  by rewrite bool_decide_eq_false_2 by apply is_Some_None.
Qed.

Lemma Prime_unmapped f wt n c bt bs h gs fl sc key a :
  cache_lookup c key = None → h !! a = None →
  Prime key (Some a) (World (Loader f wt n c bt false) bs h gs fl sc)
  = (Panic "unmapped address", World (Loader f wt n c bt false) bs h gs fl sc).
Proof.
  intros Hc Ha. mcompute. rewrite Hc.
  rewrite bool_decide_eq_false_2 by apply is_Some_None. mprim. by rewrite Ha.
Qed.

Lemma Prime_copy f wt n c bt bs h gs fl sc key a v :
  cache_lookup c key = None → h !! a = Some v →
  Prime key (Some a) (World (Loader f wt n c bt false) bs h gs fl sc)
  = (Ok true,
     World (Loader f wt n (Some (<[key := Some (fresh (dom h))]> (default ∅ c))) bt false)
       bs (<[fresh (dom h) := v]> h) gs fl sc).
Proof.
  intros Hc Ha. mcompute. rewrite Hc.
  rewrite bool_decide_eq_false_2 by apply is_Some_None. mprim. rewrite Ha.
  by destruct c.
Qed.

Lemma Clear_eq f wt n c bt bs h gs fl sc key :
  Clear key (World (Loader f wt n c bt false) bs h gs fl sc)
  = (Ok (), World (Loader f wt n (delete key <$> c) bt false) bs h gs fl sc).
Proof. done. Qed.

Lemma end_open f wt n c bt m bs h gs fl sc b ks dt er cl :
  bs !! b = Some (Batch ks dt er cl false) →
  end_ b (World (Loader f wt n c bt m) bs h gs fl sc)
  = (Ok (),
     World (Loader f wt n c bt m)
       (<[b := Batch ks (f ks).1 (f ks).2 cl true]> bs) h gs ((ks, m) :: fl) sc).
Proof.
  intros Hb. pose proof (lookup_lt_Some _ _ _ Hb) as Hlt.
  mcompute.
  repeat (first [rewrite Hb | rewrite list_lookup_insert_eq by done]; mprim).
  by rewrite list_insert_insert_eq.
Qed.

Lemma startTimer_closing f wt n c bt bs h gs fl sc b B :
  bs !! b = Some B → closing B = true →
  startTimer b (World (Loader f wt n c bt false) bs h gs fl sc)
  = (Ok (), World (Loader f wt n c bt false) bs h gs fl sc).
Proof.
  destruct B as [ks dt er cl dn]. simpl. intros Hb ->. mcompute. by rewrite Hb.
Qed.

Lemma startTimer_open f wt n c bt bs h gs fl sc b ks dt er :
  bs !! b = Some (Batch ks dt er false false) →
  startTimer b (World (Loader f wt n c bt false) bs h gs fl sc)
  = (Ok (),
     World (Loader f wt n c None false)
       (<[b := Batch ks (f ks).1 (f ks).2 false true]> bs) h gs
       ((ks, true) :: fl) sc).
Proof.
  intros Hb. unfold startTimer. mprim. rewrite Hb. mprim.
  rewrite (end_open _ _ _ _ _ _ _ _ _ _ _ _ _ _ _ _ Hb). by mprim.
Qed.

Lemma schedule_Some w i g :
  goroutines w !! i = Some g →
  schedule i w = run_goroutine g (set_goroutines (delete i) w).
Proof. unfold schedule. by intros ->. Qed.

Lemma schedule_None w i :
  goroutines w !! i = None → schedule i w = (Ok (), w).
Proof. unfold schedule. by intros ->. Qed.

(** ** The invariant is kept *)

Lemma int_sub_1 n : int_range n → 0 < n → int_sub n 1 = n - 1.
Proof.
  unfold int_range, int_sub, int_wrap. intros Hn Hpos.
  rewrite Z.mod_small by lia. lia.
Qed.

Lemma caps_zero pos cl : caps 0 pos cl = false.
Proof. unfold caps. rewrite bool_decide_eq_false_2; [done|]. by intros [? _]. Qed.

Lemma caps_room n pos :
  int_range n → 0 < n → caps n pos false = false → Z.of_nat pos + 1 < n.
Proof.
  unfold caps. intros Hn Hpos Hc. rewrite andb_true_r in Hc.
  apply bool_decide_eq_false_1 in Hc. rewrite int_sub_1 in Hc by done. lia.
Qed.

Lemma caps_full n pos :
  int_range n → 0 < n → caps n pos false = true → n ≤ Z.of_nat pos + 1.
Proof.
  unfold caps. intros Hn Hpos Hc. rewrite andb_true_r in Hc.
  apply bool_decide_eq_true_1 in Hc as [_ Hc]. rewrite int_sub_1 in Hc by done.
  lia.
Qed.

Lemma caps_reached n pos :
  int_range n → 0 < n → Z.of_nat pos + 1 = n → caps n pos false = true.
Proof.
  unfold caps. intros Hn Hpos Hc. rewrite andb_true_r.
  apply bool_decide_eq_true_2. rewrite int_sub_1 by done. lia.
Qed.

Lemma batch_ok_mono w w' b B :
  maxBatch (loader w') = maxBatch (loader w) →
  (GoEnd b ∈ goroutines w' ↔ GoEnd b ∈ goroutines w) →
  (GoStartTimer b ∈ goroutines w' → GoStartTimer b ∈ goroutines w) →
  (closing B = false → GoStartTimer b ∈ goroutines w →
   GoStartTimer b ∈ goroutines w') →
  batch_ok w b B → batch_ok w' b B.
Proof.
  intros Hn He Ht Ht' [H1 H2 H3 H4 H5 H6 H7].
  split; rewrite ?Hn; try done.
  - intros Hd Hc. apply He. auto.
  - intros Hd Hc. apply Ht'; auto.
  - intros Hin. apply H5, He, Hin.
  - intros Hin. apply H6, Ht, Hin.
Qed.

Lemma call_ok_maxBatch w w' call :
  maxBatch (loader w') = maxBatch (loader w) → call_ok w call → call_ok w' call.
Proof. unfold call_ok. by intros ->. Qed.

(** The invariant does not read the cache, the heap or the schedule. *)
Lemma wf_frame f wt n c c' bt bs h h' gs fl sc sc' :
  wf (World (Loader f wt n c bt false) bs h gs fl sc) →
  wf (World (Loader f wt n c' bt false) bs h' gs fl sc').
Proof.
  intros [H1 H2 H3 H4 H5 H6 H7 H8]. split; try done.
  intros b B Hb. eapply batch_ok_mono, H3; done.
Qed.

Lemma elem_of_delete_NoDup {A} (l : list A) i x y :
  NoDup l → l !! i = Some x →
  y ∈ delete i l ↔ y ∈ l ∧ y ≠ x.
Proof.
  intros Hnd Hi. pose proof (delete_Permutation l i x Hi) as Hp.
  rewrite Hp in Hnd. apply NoDup_cons in Hnd as [Hx _].
  rewrite (elem_of_Permutation_proper _ _ _ Hp), elem_of_cons.
  split.
  - intros Hy. split; [by right|]. by intros ->.
  - intros [[->|Hy] Hne]; done.
Qed.

Lemma NoDup_delete {A} (l : list A) i : NoDup l → NoDup (delete i l).
Proof. intros Hnd. exact (sublist_NoDup _ _ Hnd (sublist_delete l i)). Qed.

Lemma elem_of_spawn gs (cond : bool) (g g' : goroutine) :
  g ∈ gs ++ (if cond then [g'] else []) ↔ g ∈ gs ∨ (cond = true ∧ g = g').
Proof.
  rewrite elem_of_app. destruct cond.
  - rewrite list_elem_of_singleton.
    split; [intros [?|?]; auto | intros [?|[_ ?]]; auto].
  - rewrite elem_of_nil. split; [intros [?|[]]; auto | intros [?|[? _]]; auto].
    done.
Qed.

Lemma NoDup_spawn gs (cond : bool) (g : goroutine) :
  NoDup gs → g ∉ gs → NoDup (gs ++ (if cond then [g] else [])).
Proof.
  intros Hnd Hg. destruct cond; [|by rewrite app_nil_r].
  apply NoDup_app. split; [done|]. split; [|apply NoDup_singleton].
  intros x Hx Hx'. apply list_elem_of_singleton in Hx'. by subst.
Qed.

(** A key joins the current batch. *)
Lemma wf_append f wt n c bs h gs fl sc b ks dt er key :
  wf (World (Loader f wt n c (Some b) false) bs h gs fl sc) →
  bs !! b = Some (Batch ks dt er false false) → key ∉ ks →
  wf (World (Loader f wt n c (if caps n (length ks) false then None else Some b) false)
        (<[b := Batch (ks ++ [key]) dt er (caps n (length ks) false) false]> bs) h
        (gs ++ (if caps n (length ks) false then [GoEnd b] else [])) fl sc).
Proof.
  intros [H1 H2 H3 H4 H5 H6 H7 H8] Hb Hkey. fields.
  pose proof (lookup_lt_Some _ _ _ Hb) as Hlt.
  destruct (H4 b eq_refl) as (B0 & HB0 & _ & _ & Hne & Hroom).
  rewrite Hb in HB0. injection HB0 as <-. fields.
  pose proof (H3 b _ Hb) as [Hnd Hwithin Hcp Hop Hes Hts Hun]. fields.
  assert (Hnoend : GoEnd b ∉ gs) by (intros Hin; by destruct (Hes Hin)).
  split; fields; try done.
  - intros b' B'. destruct (decide (b' = b)) as [->|Hne'].
    + rewrite list_lookup_insert_eq by done. intros [= <-]. split; fields.
      * apply NoDup_app. split; [done|]. split; [|apply NoDup_singleton].
        intros x Hx Hx'. apply list_elem_of_singleton in Hx'. by subst.
      * intros Hpos. rewrite length_app. simpl. specialize (Hroom Hpos). lia.
      * intros _ Hc. apply elem_of_spawn. by right.
      * intros _ Hc. apply elem_of_spawn. left. by apply Hop.
      * intros Hin. apply elem_of_spawn in Hin as [Hin|[Hc _]]; done.
      * done.
      * intros ->. apply caps_zero.
    + rewrite list_lookup_insert_ne by done. intros HB'.
      eapply batch_ok_mono, H3; try done; fields.
      * rewrite elem_of_spawn. split; [|by left]. intros [Hin|[_ [=]]]; done.
      * rewrite elem_of_spawn. intros [Hin|[_ [=]]]; done.
      * intros _ Hin. apply elem_of_spawn. by left.
  - intros b'. destruct (caps n (length ks) false) eqn:Hcaps; [done|].
    intros [= <-]. eexists. rewrite list_lookup_insert_eq by done.
    split; [done|]. simpl. split; [done|]. split; [done|].
    split; [by destruct ks|].
    intros Hpos. rewrite length_app. simpl.
    pose proof (caps_room _ _ H2 Hpos Hcaps). lia.
  - by apply NoDup_spawn.
  - intros g Hin. rewrite length_insert.
    apply elem_of_spawn in Hin as [Hin|[_ ->]]; [by apply H6|done].
  - intros -> b' Hin. rewrite caps_zero, app_nil_r in Hin. by eapply H7.
Qed.

(** A key opens a batch. *)
Lemma wf_fresh f wt n c bs h gs fl sc key :
  wf (World (Loader f wt n c None false) bs h gs fl sc) →
  wf (World (Loader f wt n c (if caps n 0 false then None else Some (length bs)) false)
        (bs ++ [Batch [key] [] [] (caps n 0 false) false]) h
        (gs ++ [GoStartTimer (length bs)]
            ++ (if caps n 0 false then [GoEnd (length bs)] else []))
        fl sc).
Proof.
  intros [H1 H2 H3 H4 H5 H6 H7 H8]. fields.
  assert (Hfresh : ∀ g, g ∈ gs → goroutine_batch g ≠ length bs).
  { intros g Hg. specialize (H6 g Hg). lia. }
  rewrite app_assoc.
  split; fields; try done.
  - intros b' B' HB'. apply lookup_app_Some in HB' as [HB'|[Hge HB']].
    + pose proof (lookup_lt_Some _ _ _ HB') as Hlt.
      eapply batch_ok_mono, H3; try done; fields.
      * rewrite elem_of_spawn, elem_of_app, list_elem_of_singleton.
        split; [|by (left; left)]. intros [[Hin|[=]]|[_ [= ->]]]; [done|lia].
      * rewrite elem_of_spawn, elem_of_app, list_elem_of_singleton.
        intros [[Hin|[= ->]]|[_ [=]]]; [done|lia].
      * intros _ Hin. apply elem_of_spawn. left. apply elem_of_app. by left.
    + apply list_lookup_singleton_Some in HB' as [Hz <-].
      assert (b' = length bs) as -> by lia. split; fields.
      * apply NoDup_singleton.
      * intros Hpos. simpl. lia.
      * intros _ Hc. apply elem_of_spawn. by right.
      * intros _ Hc. apply elem_of_spawn. left. apply elem_of_app. right. left.
      * intros Hin. apply elem_of_spawn in Hin as [Hin|[Hc _]]; [|done].
        apply elem_of_app in Hin as [Hin|Hin].
        -- by destruct (Hfresh _ Hin).
        -- by apply list_elem_of_singleton in Hin.
      * done.
      * intros ->. apply caps_zero.
  - intros b'. destruct (caps n 0 false) eqn:Hcaps; [done|].
    intros [= <-]. eexists. rewrite lookup_app_r, Nat.sub_diag by done.
    split; [done|]. simpl. split; [done|]. split; [done|]. split; [done|].
    intros Hpos. pose proof (caps_room _ _ H2 Hpos Hcaps). simpl. lia.
  - apply NoDup_spawn.
    + apply NoDup_app. split; [done|]. split; [|apply NoDup_singleton].
      intros x Hx Hx'. apply list_elem_of_singleton in Hx'. subst.
      by destruct (Hfresh _ Hx).
    + rewrite elem_of_app, list_elem_of_singleton. intros [Hin|[=]].
      by destruct (Hfresh _ Hin).
  - intros g Hin. rewrite length_app. simpl.
    apply elem_of_spawn in Hin as [Hin|[_ ->]]; [|simpl; lia].
    apply elem_of_app in Hin as [Hin|Hin]; [specialize (H6 g Hin); lia|].
    apply list_elem_of_singleton in Hin as ->. simpl. lia.
  - intros -> b' Hin. rewrite caps_zero, app_nil_r in Hin.
    apply elem_of_app in Hin as [Hin|Hin]; [by eapply H7|].
    by apply list_elem_of_singleton in Hin.
Qed.

(** A started goroutine runs. *)
Lemma wf_timer_closing f wt n c bt bs h gs fl sc i b B :
  wf (World (Loader f wt n c bt false) bs h gs fl sc) →
  gs !! i = Some (GoStartTimer b) → bs !! b = Some B → closing B = true →
  wf (World (Loader f wt n c bt false) bs h (delete i gs) fl sc).
Proof.
  intros [H1 H2 H3 H4 H5 H6 H7 H8] Hi Hb Hcl. fields.
  pose proof (elem_of_delete_NoDup gs i _ (GoEnd b) H5 Hi) as Hend.
  split; fields; try done.
  - intros b' B' HB'. eapply batch_ok_mono, H3; try done; fields.
    + rewrite (elem_of_delete_NoDup gs i _ _ H5 Hi). split; [by intros []|done].
    + apply list_elem_of_delete_inv.
    + intros HclB' Hin. apply (elem_of_delete_NoDup gs i _ _ H5 Hi).
      split; [done|]. intros [= ->]. congruence.
  - by apply NoDup_delete.
  - intros g Hin. apply H6. by eapply list_elem_of_delete_inv.
  - intros Hn b' Hin. eapply H7; [done|]. by eapply list_elem_of_delete_inv.
Qed.

Lemma wf_timer_open f wt n c bt bs h gs fl sc i b ks dt er :
  wf (World (Loader f wt n c bt false) bs h gs fl sc) →
  gs !! i = Some (GoStartTimer b) → bs !! b = Some (Batch ks dt er false false) →
  wf (World (Loader f wt n c None false)
        (<[b := Batch ks (f ks).1 (f ks).2 false true]> bs) h (delete i gs)
        ((ks, true) :: fl) sc).
Proof.
  intros [H1 H2 H3 H4 H5 H6 H7 H8] Hi Hb. fields.
  pose proof (lookup_lt_Some _ _ _ Hb) as Hlt.
  pose proof (H3 b _ Hb) as [Hnd Hwithin Hcp Hop Hes Hts Hun]. fields.
  split; fields; try done.
  - intros b' B'. destruct (decide (b' = b)) as [->|Hne'].
    + rewrite list_lookup_insert_eq by done. intros [= <-]. split; fields; try done.
      * intros Hin. apply list_elem_of_delete_inv in Hin. by destruct (Hes Hin).
      * intros Hin. apply (elem_of_delete_NoDup gs i _ _ H5 Hi) in Hin as [_ Hin].
        done.
    + rewrite list_lookup_insert_ne by done. intros HB'.
      eapply batch_ok_mono, H3; try done; fields.
      * rewrite (elem_of_delete_NoDup gs i _ _ H5 Hi). split; [by intros []|done].
      * apply list_elem_of_delete_inv.
      * intros _ Hin. apply (elem_of_delete_NoDup gs i _ _ H5 Hi).
        split; [done|]. by intros [= ->].
  - by apply NoDup_delete.
  - intros g Hin. rewrite length_insert. apply H6.
    by eapply list_elem_of_delete_inv.
  - intros Hn b' Hin. eapply H7; [done|]. by eapply list_elem_of_delete_inv.
  - constructor; [|done]. by split.
Qed.

Lemma wf_end f wt n c bt bs h gs fl sc i b ks dt er cl dn :
  wf (World (Loader f wt n c bt false) bs h gs fl sc) →
  gs !! i = Some (GoEnd b) → bs !! b = Some (Batch ks dt er cl dn) →
  cl = true ∧ dn = false
  ∧ wf (World (Loader f wt n c bt false)
          (<[b := Batch ks (f ks).1 (f ks).2 true true]> bs) h (delete i gs)
          ((ks, false) :: fl) sc).
Proof.
  intros [H1 H2 H3 H4 H5 H6 H7 H8] Hi Hb. fields.
  pose proof (lookup_lt_Some _ _ _ Hb) as Hlt.
  pose proof (list_elem_of_lookup_2 _ _ _ Hi) as Hin.
  pose proof (H3 b _ Hb) as [Hnd Hwithin Hcp Hop Hes Hts Hun]. fields.
  destruct (Hes Hin) as [-> ->]. split; [done|]. split; [done|].
  split; fields; try done.
  - intros b' B'. destruct (decide (b' = b)) as [->|Hne'].
    + rewrite list_lookup_insert_eq by done. intros [= <-]. split; fields; try done.
      intros Hin'. apply (elem_of_delete_NoDup gs i _ _ H5 Hi) in Hin' as [_ Hin'].
      done.
    + rewrite list_lookup_insert_ne by done. intros HB'.
      eapply batch_ok_mono, H3; try done; fields.
      * rewrite (elem_of_delete_NoDup gs i _ _ H5 Hi).
        split; [by intros []|]. intros Hin'. split; [done|]. by intros [= ->].
      * apply list_elem_of_delete_inv.
      * intros _ Hin'. apply (elem_of_delete_NoDup gs i _ _ H5 Hi).
        split; done.
  - intros b' ->. destruct (H4 b' eq_refl) as (B' & HB' & Hcl & Hrest).
    destruct (decide (b' = b)) as [->|Hne'].
    + rewrite Hb in HB'. injection HB' as <-. done.
    + exists B'. by rewrite list_lookup_insert_ne.
  - by apply NoDup_delete.
  - intros g Hin'. rewrite length_insert. apply H6.
    by eapply list_elem_of_delete_inv.
  - intros Hn b' Hin'. eapply H7; [done|]. by eapply list_elem_of_delete_inv.
  - constructor; [|done]. split; [done|]. split; [done|]. fields.
    intros Hn. by destruct (H7 Hn b).
Qed.

(** ** One step *)

Lemma extends_refl w : extends w w.
Proof. intros b B Hb. by exists B. Qed.

Lemma extends_trans w1 w2 w3 : extends w1 w2 → extends w2 w3 → extends w1 w3.
Proof.
  intros H12 H23 b B Hb. destruct (H12 b B Hb) as (B2 & Hb2 & Hp2 & Hf2 & Hc2).
  destruct (H23 b B2 Hb2) as (B3 & Hb3 & Hp3 & Hf3 & Hc3). exists B3.
  split; [done|]. split; [by etrans|]. split.
  - intros Hdn. specialize (Hf2 Hdn). subst B2. by apply Hf3.
  - intros Hcl. by apply Hc3, Hc2.
Qed.

Lemma extends_length w w' :
  extends w w' → (length (batches w) ≤ length (batches w'))%nat.
Proof.
  intros Hext. destruct (decide (length (batches w) ≤ length (batches w'))%nat)
    as [|Hlt]; [done|].
  destruct (lookup_lt_is_Some_2 (batches w) (length (batches w'))) as [B HB];
    [lia|].
  destruct (Hext _ _ HB) as (B' & HB' & _).
  apply lookup_lt_Some in HB'. lia.
Qed.

Lemma thunk_ok_extends w w' t : extends w w' → thunk_ok w t → thunk_ok w' t.
Proof.
  intros Hext. destruct t as [|b pos key]; [done|]. simpl.
  intros (B & Hb & Hk). destruct (Hext _ _ Hb) as (B' & Hb' & Hp & _).
  exists B'. split; [done|]. by eapply prefix_lookup_Some.
Qed.

Lemma resolved_extends aggregate w w' t r :
  extends w w' → resolved aggregate w t r → resolved aggregate w' t r.
Proof.
  intros Hext. destruct t as [|b pos key]; [done|]. simpl.
  intros (B & Hb & Hdn & Hr). destruct (Hext _ _ Hb) as (B' & Hb' & _ & Hf & _).
  rewrite (Hf Hdn) in Hb'. by exists B.
Qed.

Lemma attached_refl new w : attached new w w.
Proof. intros b B k Hb Hk. right. by exists B. Qed.

Lemma attached_weaken new new' w w' :
  new ⊆ new' → attached new w w' → attached new' w w'.
Proof.
  intros Hsub Hatt b B' k Hb Hk.
  destruct (Hatt b B' k Hb Hk) as [Hin|?]; [left; by apply Hsub|by right].
Qed.

Lemma attached_trans new1 new2 w1 w2 w3 :
  attached new1 w1 w2 → attached new2 w2 w3 → attached (new1 ++ new2) w1 w3.
Proof.
  intros H12 H23 b B3 k Hb Hk. rewrite elem_of_app.
  destruct (H23 b B3 k Hb Hk) as [Hin|(B2 & Hb2 & Hk2)]; [by left; right|].
  destruct (H12 b B2 k Hb2 Hk2) as [Hin|?]; [by left; left|by right].
Qed.

Lemma advances_refl w : wf w → advances [] [] w w.
Proof.
  intros Hwf. split; try done;
    [apply extends_refl|apply attached_refl].
Qed.

Lemma advances_weaken new new' cleared w w' :
  new ⊆ new' → advances new cleared w w' → advances new' cleared w w'.
Proof. intros Hsub []. split; try done. by eapply attached_weaken. Qed.

(** A step that only writes the cache, the heap or the schedule. *)
Lemma advances_frame cleared f wt n c c' bt bs h h' gs fl sc sc' :
  wf (World (Loader f wt n c bt false) bs h gs fl sc) →
  (∀ k, k ∉ cleared → is_Some (cache_lookup c k) → is_Some (cache_lookup c' k)) →
  advances [] cleared
    (World (Loader f wt n c bt false) bs h gs fl sc)
    (World (Loader f wt n c' bt false) bs h' gs fl sc').
Proof.
  intros Hwf Hc. split; try done.
  - by eapply wf_frame.
  - intros b B Hb. by exists B.
  - intros b B k Hb Hk. right. by exists B.
Qed.

Lemma LoadThunk_advances w key :
  wf w →
  ∃ t w',
    LoadThunk key w = (Ok t, w') ∧ thunk_ok w' t ∧ thunk_for w key t
    ∧ advances (action_new w (ALoadThunk key)) [] w w'
    ∧ heap w' = heap w ∧ sched w' = sched w ∧ fetched w' = fetched w
    ∧ cache (loader w') = cache (loader w).
Proof.
  intros Hwf.
  cut (∃ t w',
         LoadThunk key w = (Ok t, w') ∧ thunk_ok w' t
         ∧ advances (action_new w (ALoadThunk key)) [] w w'
         ∧ heap w' = heap w ∧ sched w' = sched w ∧ fetched w' = fetched w
         ∧ cache (loader w') = cache (loader w)).
  { intros (t & w' & Heq & Hok & Hrest). exists t, w'.
    split; [done|]. split; [done|]. split; [|done].
    unfold thunk_for. by rewrite Heq. }
  pose proof Hwf as [H1 H2 H3 H4 H5 H6 H7 H8].
  destruct w as [[f wt n c bt m] bs h gs fl sc]. fields. subst m.
  destruct (cache_lookup c key) as [it|] eqn:Hc.
  { exists (ThunkCached it). eexists. split; [by apply LoadThunk_cached|].
    split; [done|]. split; [|done]. simpl. rewrite Hc.
    by apply advances_refl. }
  destruct bt as [b|].
  - destruct (H4 b eq_refl) as ([ks dt er cl dn] & Hb & Hcl & Hdn & Hne & Hroom).
    fields. subst cl dn. pose proof (lookup_lt_Some _ _ _ Hb) as Hlt.
    destruct (range_keys key ks 0) as [i|] eqn:Hr.
    + exists (ThunkBatch b i key). eexists.
      split; [by eapply LoadThunk_present|].
      split.
      { exists (Batch ks dt er false false). split; [done|].
        apply range_keys_Some in Hr as (_ & Hr & _). by rewrite Nat.sub_0_r in Hr. }
      split; [|done].
      eapply advances_weaken; [apply list_subseteq_nil|by apply advances_refl].
    + exists (ThunkBatch b (length ks) key). eexists.
      split; [by eapply LoadThunk_append|].
      rewrite decide_False by (by destruct ks). rewrite app_nil_l. simpl.
      split.
      { eexists. rewrite list_lookup_insert_eq by done. split; [done|]. simpl.
        by rewrite lookup_app_r, Nat.sub_diag. }
      split; [|done]. rewrite Hc.
      apply range_keys_None in Hr. split; fields; try done.
      * by apply wf_append.
      * intros b' B' HB'. destruct (decide (b' = b)) as [->|Hne'].
        -- rewrite Hb in HB'. injection HB' as <-.
           rewrite list_lookup_insert_eq by done. eexists. split; [done|].
           split; [by apply prefix_app_r|done].
        -- rewrite list_lookup_insert_ne by done. by exists B'.
      * intros b' B' k. destruct (decide (b' = b)) as [->|Hne'].
        -- rewrite list_lookup_insert_eq by done. intros [= <-]. fields.
           rewrite elem_of_app, !list_elem_of_singleton.
           intros [Hk| ->]; [right|by left]. eexists. by split.
        -- rewrite list_lookup_insert_ne by done. intros HB' Hk. right.
           by exists B'.
  - exists (ThunkBatch (length bs) 0 key). eexists.
    split; [by eapply LoadThunk_fresh|]. simpl.
    split.
    { eexists. rewrite lookup_app_r, Nat.sub_diag by done. by split. }
    split; [|done]. rewrite Hc.
    split; fields; try done.
    + by apply wf_fresh.
    + intros b' B' HB'. exists B'. split; [by apply lookup_app_l_Some|done].
    + intros b' B' k HB' Hk. apply lookup_app_Some in HB' as [HB'|[Hge HB']].
      * right. by exists B'.
      * apply list_lookup_singleton_Some in HB' as [_ <-]. by left.
Qed.

(** [LoadThunk] returns the closure of the cache hit exactly when the key
    is cached; otherwise the function value waits for a batch that is not
    done and holds the key at the index. *)
Lemma LoadThunk_kind w key :
  wf w →
  ∃ t w',
    LoadThunk key w = (Ok t, w')
    ∧ match cache_lookup (cache (loader w)) key with
      | Some it => t = ThunkCached it ∧ w' = w
      | None =>
          ∃ b pos B,
            t = ThunkBatch b pos key ∧ batches w' !! b = Some B
            ∧ keys B !! pos = Some key ∧ done B = false
            ∧ cache (loader w') = cache (loader w)
      end.
Proof.
  intros Hwf. pose proof Hwf as [H1 H2 H3 H4 H5 H6 H7 H8].
  destruct w as [[f wt n c bt m] bs h gs fl sc]. fields. subst m.
  destruct (cache_lookup c key) as [it|] eqn:Hc.
  { eexists _, _. split; [by apply LoadThunk_cached|]. done. }
  destruct bt as [b|].
  - destruct (H4 b eq_refl) as ([ks dt er cl dn] & Hb & Hcl & Hdn & Hne & Hroom).
    fields. subst cl dn. pose proof (lookup_lt_Some _ _ _ Hb) as Hlt.
    destruct (range_keys key ks 0) as [i|] eqn:Hr.
    + eexists _, _. split; [by eapply LoadThunk_present|].
      eexists b, i, _. split; [done|]. split; [exact Hb|]. fields.
      apply range_keys_Some in Hr as (_ & Hr & _). by rewrite Nat.sub_0_r in Hr.
    + eexists _, _. split; [by eapply LoadThunk_append|].
      eexists b, (length ks), _. split; [done|]. fields.
      split; [by rewrite list_lookup_insert_eq|]. fields.
      by rewrite lookup_app_r, Nat.sub_diag.
  - eexists _, _. split; [by eapply LoadThunk_fresh|].
    eexists (length bs), 0%nat, _. split; [done|]. fields.
    split; [by rewrite lookup_app_r, Nat.sub_diag|]. done.
Qed.

Lemma cache_lookup_set c key (value : ptr) k :
  cache_lookup (Some (<[key := value]> (default ∅ c))) k
  = if decide (key = k) then Some value else cache_lookup c k.
Proof.
  unfold cache_lookup. simpl. rewrite lookup_insert.
  case_decide; [done|]. destruct c; [done|]. simpl. apply lookup_empty.
Qed.

Lemma cache_lookup_delete c key k :
  cache_lookup (delete key <$> c) k
  = if decide (key = k) then None else cache_lookup c k.
Proof.
  unfold cache_lookup. destruct c as [c|]; simpl.
  - rewrite lookup_delete. by case_decide.
  - by case_decide.
Qed.

Section steps.
Variable aggregate : list error_value → error_value.

Lemma thunk_call_advances w t :
  wf w → advances [] [] w (thunk_call aggregate t w).2.
Proof.
  intros Hwf. destruct t as [it|b pos key]; [by apply advances_refl|].
  destruct (batches w !! b) as [B|] eqn:Hb.
  - destruct (done B) eqn:Hdn.
    + destruct (aggregate (error B)) as [errs|] eqn:Ha.
      * erewrite thunk_call_error by done. by apply advances_refl.
      * pose proof (wf_mu w Hwf) as Hmu.
        destruct w as [[f wt n c bt m] bs h gs fl sc]. fields. subst m.
        erewrite thunk_call_success by done. simpl.
        apply advances_frame; [done|]. intros k _ Hk.
        rewrite cache_lookup_set. by case_decide.
    + erewrite thunk_call_blocked by done. by apply advances_refl.
  - destruct (thunk_call_invalid aggregate w b pos key Hb) as [msg ->].
    by apply advances_refl.
Qed.

Lemma Prime_advances w key value :
  wf w → advances [] [] w (Prime key value w).2.
Proof.
  intros Hwf. pose proof (wf_mu w Hwf) as Hmu.
  destruct w as [[f wt n c bt m] bs h gs fl sc]. fields. subst m.
  destruct (cache_lookup c key) as [it|] eqn:Hc.
  { erewrite Prime_present by done. by apply advances_refl. }
  destruct value as [a|].
  - destruct (h !! a) as [v|] eqn:Ha.
    + erewrite Prime_copy by done. simpl.
      apply advances_frame; [done|]. intros k _ Hk.
      rewrite cache_lookup_set. by case_decide.
    + erewrite Prime_unmapped by done. by apply advances_refl.
  - erewrite Prime_nil by done. by apply advances_refl.
Qed.

Lemma Clear_advances w key :
  wf w → advances [] [key] w (Clear key w).2.
Proof.
  intros Hwf. pose proof (wf_mu w Hwf) as Hmu.
  destruct w as [[f wt n c bt m] bs h gs fl sc]. fields. subst m.
  rewrite Clear_eq. simpl. apply advances_frame; [done|]. intros k Hk Hc.
  rewrite cache_lookup_delete. rewrite decide_False; [done|].
  intros ->. apply Hk. left.
Qed.

Lemma store_advances w a v :
  wf w → advances [] [] w (store a v w).2.
Proof.
  intros Hwf. pose proof (wf_mu w Hwf) as Hmu.
  destruct w as [[f wt n c bt m] bs h gs fl sc]. fields. subst m.
  mcompute. by apply advances_frame.
Qed.

(** A started goroutine runs to its end. *)
Lemma schedule_advances w i :
  wf w →
  ∃ w', schedule i w = (Ok (), w') ∧ advances [] [] w w'
        ∧ goroutines w' = delete i (goroutines w)
        ∧ sched w' = sched w ∧ heap w' = heap w
        ∧ cache (loader w') = cache (loader w).
Proof.
  intros Hwf. pose proof Hwf as [H1 H2 H3 H4 H5 H6 H7 H8].
  destruct (goroutines w !! i) as [g|] eqn:Hi.
  2:{ exists w. rewrite schedule_None by done.
      split; [done|]. split; [by apply advances_refl|].
      split; [|done]. apply lookup_ge_None in Hi.
      by rewrite delete_take_drop, take_ge, drop_ge, app_nil_r by lia. }
  rewrite (schedule_Some _ _ _ Hi).
  pose proof (H6 g (list_elem_of_lookup_2 _ _ _ Hi)) as Hlt.
  destruct w as [[f wt n c bt m] bs h gs fl sc]. fields. subst m.
  destruct g as [b|b]; simpl in Hlt;
    destruct (lookup_lt_is_Some_2 bs b Hlt) as [[ks dt er cl dn] Hb];
    unfold set_goroutines, run_goroutine; fields.
  - destruct cl.
    + erewrite startTimer_closing by done. eexists. split; [done|].
      split; [|done]. pose proof (wf_timer_closing _ _ _ _ _ _ _ _ _ _ _ _ _ Hwf Hi Hb eq_refl).
      split; try done.
      * intros b' B' HB'. by exists B'.
      * intros b' B' k HB' Hk. right. by exists B'.
    + pose proof (H3 b _ Hb) as Hok.
      pose proof (timer_sound _ _ _ Hok (list_elem_of_lookup_2 _ _ _ Hi) eq_refl)
        as Hdn. fields. subst dn.
      erewrite startTimer_open by done. eexists. split; [done|].
      split; [|done]. pose proof (wf_timer_open _ _ _ _ _ _ _ _ _ _ _ _ _ _ _ Hwf Hi Hb).
      pose proof (lookup_lt_Some _ _ _ Hb) as Hlt'.
      split; fields; try done.
      * intros b' B' HB'. destruct (decide (b' = b)) as [->|Hne'].
        -- rewrite Hb in HB'. injection HB' as <-.
           rewrite list_lookup_insert_eq by done. eexists. by split.
        -- rewrite list_lookup_insert_ne by done. by exists B'.
      * intros b' B' k. destruct (decide (b' = b)) as [->|Hne'].
        -- rewrite list_lookup_insert_eq by done. intros [= <-]. fields.
           intros Hk. right. eexists. by split.
        -- rewrite list_lookup_insert_ne by done. intros HB' Hk. right.
           by exists B'.
  - destruct (wf_end _ _ _ _ _ _ _ _ _ _ _ _ _ _ _ _ _ Hwf Hi Hb) as (-> & -> & Hwf').
    erewrite end_open by done. eexists. split; [done|].
    split; [|done]. pose proof (lookup_lt_Some _ _ _ Hb) as Hlt'.
    split; fields; try done.
    + intros b' B' HB'. destruct (decide (b' = b)) as [->|Hne'].
      * rewrite Hb in HB'. injection HB' as <-.
        rewrite list_lookup_insert_eq by done. eexists. by split.
      * rewrite list_lookup_insert_ne by done. by exists B'.
    + intros b' B' k. destruct (decide (b' = b)) as [->|Hne'].
      * rewrite list_lookup_insert_eq by done. intros [= <-]. fields.
        intros Hk. right. eexists. by split.
      * rewrite list_lookup_insert_ne by done. intros HB' Hk. right.
        by exists B'.
Qed.

Lemma interfere_advances w a :
  wf w → advances (action_new w a) (action_cleared a) w (interfere aggregate w a).
Proof.
  intros Hwf. unfold interfere. destruct a as [key|t|key value|key|a v|i]; simpl.
  - destruct (LoadThunk_advances w key Hwf) as (t & w' & Heq & _ & _ & Hadv & _).
    unfold mbind, M_bind. rewrite Heq. done.
  - pose proof (thunk_call_advances w t Hwf) as Hadv.
    unfold mbind, M_bind. by destruct (thunk_call aggregate t w) as [[] ?].
  - pose proof (Prime_advances w key value Hwf) as Hadv.
    unfold mbind, M_bind. by destruct (Prime key value w) as [[] ?].
  - by apply Clear_advances.
  - by apply store_advances.
  - by destruct (schedule_advances w i Hwf) as (w' & -> & Hadv & _).
Qed.

End steps.

(** ** Runs *)

Section runs.
Variable aggregate : list error_value → error_value.

Lemma run_cons a acts w :
  run aggregate (a :: acts) w = run aggregate acts (interfere aggregate w a).
Proof. done. Qed.

Lemma run_app acts1 acts2 w :
  run aggregate (acts1 ++ acts2) w = run aggregate acts2 (run aggregate acts1 w).
Proof. unfold run. apply foldl_app. Qed.

Lemma run_wf acts w :
  wf w →
  wf (run aggregate acts w) ∧ extends w (run aggregate acts w)
  ∧ maxBatch (loader (run aggregate acts w)) = maxBatch (loader w)
  ∧ fetch (loader (run aggregate acts w)) = fetch (loader w).
Proof.
  revert w. induction acts as [|a acts IH]; intros w Hwf.
  - split; [done|]. split; [apply extends_refl|done].
  - rewrite run_cons. destruct (interfere_advances aggregate w a Hwf) as [H1 H2 H3 H4 _ _].
    destruct (IH _ H1) as (IH1 & IH2 & IH3 & IH4).
    split; [done|]. split; [by eapply extends_trans|]. split; congruence.
Qed.

Lemma start_wf f d n h sc :
  int_range n → wf (start (NewDataLoader f d n) h sc).
Proof.
  intros Hn. split; simpl; try done.
  - apply NoDup_nil_2.
  - intros g Hg. by apply elem_of_nil in Hg.
  - intros _ b Hb. by apply elem_of_nil in Hb.
Qed.

Lemma reachable_wf f d n w :
  int_range n → reachable aggregate (NewDataLoader f d n) w →
  wf w ∧ maxBatch (loader w) = n ∧ fetch (loader w) = f.
Proof.
  intros Hn (h & sc & acts & ->).
  destruct (run_wf acts _ (start_wf f d n h sc Hn)) as (H1 & _ & H3 & H4).
  done.
Qed.

Lemma reachable_interfere l w a :
  reachable aggregate l w → reachable aggregate l (interfere aggregate w a).
Proof.
  intros (h & sc & acts & ->). exists h, sc, (acts ++ [a]). by rewrite run_app.
Qed.

(** [yield] returns, and keeps the invariant. *)
Lemma yield_wf w :
  wf w → ∃ w', yield aggregate w = (Ok (), w') ∧ wf w' ∧ extends w w'.
Proof.
  intros Hwf. unfold yield. destruct (sched w) as [|acts rest] eqn:Hs.
  - exists w. split; [done|]. split; [done|]. apply extends_refl.
  - eexists. split; [done|].
    assert (Hwf' : wf (set_sched (λ _, rest) w)).
    { destruct w as [[f wt n c bt m] bs h gs fl sc].
      pose proof (wf_mu _ Hwf) as Hmu. fields. subst m. by eapply wf_frame. }
    destruct (run_wf acts _ Hwf') as (H1 & H2 & _). split; [done|].
    intros b B Hb. by apply H2.
Qed.

(** Once the started goroutines have run, every batch is done. *)
Lemma drain_wf w :
  wf w →
  ∃ w', drain (length (goroutines w)) w = (Ok (), w') ∧ wf w' ∧ extends w w'
        ∧ goroutines w' = [].
Proof.
  remember (length (goroutines w)) as k eqn:Hk. revert w Hk.
  induction k as [|k IH]; intros w Hk Hwf.
  - exists w. split; [done|]. split; [done|]. split; [apply extends_refl|].
    by apply nil_length_inv.
  - destruct (schedule_advances w 0 Hwf) as (w1 & Heq & Hadv & Hgs & _).
    destruct Hadv as [Hwf1 _ _ Hext1 _ _].
    destruct (IH w1) as (w2 & Heq2 & Hwf2 & Hext2 & Hnil); [|done|].
    { rewrite Hgs. destruct (goroutines w); simpl in *; [done|]. lia. }
    exists w2. simpl. unfold mbind, M_bind. rewrite Heq.
    split; [done|]. split; [done|]. split; [by eapply extends_trans|done].
Qed.

Lemma wf_quiescent w b B :
  wf w → goroutines w = [] → batches w !! b = Some B → done B = true.
Proof.
  intros Hwf Hnil Hb. destruct (wf_batches _ Hwf _ _ Hb) as [_ _ H3 H4 _ _ _].
  rewrite Hnil in H3, H4. destruct (done B) eqn:Hdn; [done|].
  destruct (closing B).
  - by apply elem_of_nil in H3.
  - by apply elem_of_nil in H4.
Qed.

(** A call of a function value whose batch is done returns. *)
Lemma thunk_call_done w b B pos key :
  wf w → batches w !! b = Some B → done B = true →
  ∃ w', thunk_call aggregate (ThunkBatch b pos key) w
        = (Ok (data_at B pos, aggregate (error B)), w')
        ∧ wf w' ∧ extends w w'.
Proof.
  intros Hwf Hb Hdn.
  pose proof (thunk_call_advances aggregate w (ThunkBatch b pos key) Hwf) as Hadv.
  destruct (aggregate (error B)) as [errs|] eqn:Ha.
  - erewrite thunk_call_error in * by done. exists w. by destruct Hadv.
  - pose proof (wf_mu _ Hwf) as Hmu.
    destruct w as [[f wt n c bt m] bs h gs fl sc]. fields. subst m.
    erewrite thunk_call_success in * by done. eexists. split; [done|].
    by destruct Hadv.
Qed.

(** A call of a function value returned by [LoadThunk] returns. *)
Lemma func_call_returns w t :
  wf w → thunk_ok w t →
  ∃ r w', func_call aggregate (Some t) w = (Ok r, w') ∧ wf w' ∧ extends w w'
          ∧ resolved aggregate w' t r.
Proof.
  intros Hwf Hok. unfold func_call, await.
  destruct t as [it|b pos key].
  { exists (it, None), w. split; [done|]. split; [done|].
    split; [apply extends_refl|done]. }
  destruct Hok as (B & Hb & _).
  destruct (done B) eqn:Hdn.
  - destruct (thunk_call_done w b B pos key Hwf Hb Hdn) as (w' & -> & Hwf' & Hext).
    eexists _, _. split; [done|]. split; [done|]. split; [done|].
    destruct (Hext _ _ Hb) as (B' & Hb' & _ & Hf & _). rewrite (Hf Hdn) in Hb'.
    by exists B.
  - rewrite (thunk_call_blocked aggregate w b B pos key Hb Hdn).
    destruct (drain_wf w Hwf) as (w1 & Heq & Hwf1 & Hext1 & Hnil).
    destruct (Hext1 _ _ Hb) as (B1 & Hb1 & _).
    pose proof (wf_quiescent _ _ _ Hwf1 Hnil Hb1) as Hdn1.
    destruct (thunk_call_done w1 b B1 pos key Hwf1 Hb1 Hdn1) as (w' & Heq' & Hwf' & Hext).
    unfold mbind, M_bind. rewrite Heq, Heq'. eexists _, _. split; [done|].
    split; [done|]. split; [by eapply extends_trans|].
    destruct (Hext _ _ Hb1) as (B' & Hb' & _ & Hf & _). rewrite (Hf Hdn1) in Hb'.
    by exists B1.
Qed.

End runs.

(** ** [LoadAll] *)

Section load_all.
Variable aggregate : list error_value → error_value.

Lemma mapM_length {X Y} (g : X → M (K:=K) (V:=V) Y) xs w ys w' :
  mapM g xs w = (Ok ys, w') → length ys = length xs.
Proof.
  revert w ys w'. induction xs as [|x xs IH]; intros w ys w'; simpl.
  - by intros [= <- _].
  - unfold mbind, M_bind, mret, M_ret.
    destruct (g x w) as [[y|msg|] w1]; try done.
    destruct (mapM g xs w1) as [[ys1|msg|] w2] eqn:Hxs; try done.
    intros [= <- _]. simpl. f_equal. by eapply IH.
Qed.

Lemma slice_store_next {A} (pre : list A) (x y : A) rest w :
  slice_store (K:=K) (V:=V) (pre ++ y :: rest) (length pre) x w
  = (Ok ((pre ++ [x]) ++ rest), w).
Proof.
  unfold slice_store. rewrite decide_True by (rewrite length_app; simpl; lia).
  unfold mret, M_ret. f_equal. f_equal.
  replace (length pre) with (length pre + 0)%nat at 1 by lia.
  rewrite insert_app_r. simpl. by rewrite <- app_assoc.
Qed.

Lemma LoadAll_attach_mapM ks pre w :
  LoadAll_attach aggregate (length pre) ks (pre ++ replicate (length ks) None) w
  = (ts ← mapM (λ key, yield aggregate;; LoadThunk key) ks;
     mret (pre ++ (Some <$> ts))) w.
Proof.
  revert pre w. induction ks as [|key ks IH]; intros pre w; simpl.
  - done.
  - unfold mbind, M_bind, mret, M_ret.
    destruct (yield aggregate w) as [[[]|msg|] w1]; try done.
    destruct (LoadThunk key w1) as [[t|msg|] w2]; try done.
    rewrite slice_store_next.
    replace (S (length pre)) with (length (pre ++ [Some t]))
      by (rewrite length_app; simpl; lia).
    rewrite IH. unfold mbind, M_bind, mret, M_ret.
    destruct (mapM _ ks w2) as [[ts|msg|] w3]; try done.
    simpl. by rewrite <- app_assoc.
Qed.

Lemma LoadAll_resolve_mapM (ts : list (thunk (K:=K))) (us : list ptr)
    (es : list error_value) w :
  length us = length es →
  LoadAll_resolve aggregate (length us) (Some <$> ts)
    (us ++ replicate (length ts) None) (es ++ replicate (length ts) None) w
  = (rs ← mapM (λ t, yield aggregate;; func_call aggregate (Some t)) ts;
     mret (us ++ rs.*1, es ++ rs.*2)) w.
Proof.
  revert us es w. induction ts as [|t ts IH]; intros us es w Hlen; simpl.
  - unfold mbind, M_bind, mret, M_ret. simpl. by rewrite !app_nil_r.
  - unfold mbind, M_bind, mret, M_ret.
    destruct (yield aggregate w) as [[[]|msg|] w1]; try done.
    destruct (await (thunk_call aggregate t) w1) as [[r|msg|] w2]; try done.
    rewrite slice_store_next. rewrite Hlen at 1. rewrite slice_store_next.
    replace (S (length us)) with (length (us ++ [r.1]))
      by (rewrite length_app; simpl; lia).
    rewrite IH by (rewrite !length_app; simpl; lia).
    unfold mbind, M_bind, mret, M_ret.
    destruct (mapM _ ts w2) as [[rs|msg|] w3]; try done.
    simpl. by rewrite <- !app_assoc.
Qed.

Lemma LoadAll_refines ks w : LoadAll aggregate ks w = LoadAll_spec aggregate ks w.
Proof.
  unfold LoadAll, LoadAll_spec.
  unfold mbind at 1, M_bind at 1.
  change (LoadAll_attach aggregate 0 ks (replicate (length ks) None) w)
    with (LoadAll_attach aggregate (length (@nil (option (thunk (K:=K))))) ks
            ([] ++ replicate (length ks) None) w).
  rewrite (LoadAll_attach_mapM ks [] w).
  unfold mbind, M_bind, mret, M_ret. simpl.
  destruct (mapM _ ks w) as [[ts|msg|] w1] eqn:Hts; try done.
  rewrite <- (mapM_length _ _ _ _ _ Hts).
  apply (LoadAll_resolve_mapM ts [] [] w1 eq_refl).
Qed.

Lemma bind_Ok {X Y} (m : M (K:=K) (V:=V) X) (g : X → M Y) w x w' :
  m w = (Ok x, w') → (m ≫= g) w = g x w'.
Proof. unfold mbind, M_bind. by intros ->. Qed.

Lemma mapM_cons_Ok {X Y} (g : X → M (K:=K) (V:=V) Y) x xs w y w1 ys w2 :
  g x w = (Ok y, w1) → mapM g xs w1 = (Ok ys, w2) →
  mapM g (x :: xs) w = (Ok (y :: ys), w2).
Proof.
  intros Hx Hxs. simpl. rewrite (bind_Ok _ _ _ _ _ Hx).
  by rewrite (bind_Ok _ _ _ _ _ Hxs).
Qed.

Lemma attach_worlds_cons key ks w w1 t w2 :
  yield aggregate w = (Ok (), w1) → LoadThunk key w1 = (Ok t, w2) →
  attach_worlds aggregate (key :: ks) w = w1 :: attach_worlds aggregate ks w2.
Proof. intros Hy Ht. cbn [attach_worlds]. rewrite Hy. cbn [snd]. by rewrite Ht. Qed.

Lemma attach_returns ks w :
  wf w →
  ∃ ts w', mapM (λ key, yield aggregate;; LoadThunk key) ks w = (Ok ts, w')
           ∧ wf w' ∧ Forall (thunk_ok w') ts
           ∧ Forall2 (λ kw t, wf kw.2 ∧ thunk_for kw.2 kw.1 t)
               (zip ks (attach_worlds aggregate ks w)) ts
           ∧ extends w w'.
Proof.
  revert w. induction ks as [|key ks IH]; intros w Hwf.
  - exists [], w. split; [done|]. split; [done|]. split; [done|].
    split; [constructor|]. apply extends_refl.
  - destruct (yield_wf aggregate w Hwf) as (w1 & Hy & Hwf1 & Hext1).
    destruct (LoadThunk_advances w1 key Hwf1)
      as (t & w2 & Ht & Hok & Hfor & Hadv & _).
    destruct Hadv as [Hwf2 _ _ Hext2 _ _].
    destruct (IH w2 Hwf2) as (ts & w3 & Hts & Hwf3 & Hoks & Hfors & Hext3).
    exists (t :: ts), w3. split.
    { eapply mapM_cons_Ok; [|exact Hts]. by rewrite (bind_Ok _ _ _ _ _ Hy). }
    split; [done|].
    split; [constructor; [by eapply thunk_ok_extends|done]|].
    split.
    { rewrite (attach_worlds_cons key ks w w1 t w2 Hy Ht).
      constructor; [by split|done]. }
    eapply extends_trans; [done|]. by eapply extends_trans.
Qed.

Lemma resolve_returns ts w :
  wf w → Forall (thunk_ok w) ts →
  ∃ rs w', mapM (λ t, yield aggregate;; func_call aggregate (Some t)) ts w
           = (Ok rs, w')
           ∧ wf w' ∧ extends w w' ∧ Forall2 (resolved aggregate w') ts rs.
Proof.
  revert w. induction ts as [|t ts IH]; intros w Hwf Hoks.
  - exists [], w. split; [done|]. split; [done|]. split; [apply extends_refl|].
    done.
  - apply Forall_cons in Hoks as [Hok Hoks].
    destruct (yield_wf aggregate w Hwf) as (w1 & Hy & Hwf1 & Hext1).
    destruct (func_call_returns aggregate w1 t Hwf1)
      as (r & w2 & Hr & Hwf2 & Hext2 & Hres); [by eapply thunk_ok_extends|].
    destruct (IH w2 Hwf2) as (rs & w3 & Hrs & Hwf3 & Hext3 & Hress).
    { eapply Forall_impl; [exact Hoks|]. intros t' Ht'.
      eapply thunk_ok_extends; [|exact Ht']. by eapply extends_trans. }
    exists (r :: rs), w3. split.
    { eapply mapM_cons_Ok; [|exact Hrs]. by rewrite (bind_Ok _ _ _ _ _ Hy). }
    split; [done|].
    split; [eapply extends_trans; [done|]; by eapply extends_trans|].
    constructor; [by eapply resolved_extends|done].
Qed.

(** What the function value obtained for a key returns answers the
    key. *)
Lemma resolved_answers w0 w' key t r :
  wf w0 → thunk_for w0 key t → thunk_ok w' t → resolved aggregate w' t r →
  answers aggregate w0 w' key r.
Proof.
  intros Hwf Hfor Hok Hres. unfold answers.
  destruct (LoadThunk_kind w0 key Hwf) as (t' & w1 & Heq & Hkind).
  assert (t' = t) as ->.
  { unfold thunk_for in Hfor. rewrite Heq in Hfor. by injection Hfor. }
  destruct (cache_lookup (cache (loader w0)) key) as [it|].
  - destruct Hkind as [-> _]. exact Hres.
  - destruct Hkind as (b & pos & B0 & -> & _).
    destruct Hok as (B & Hb & Hpos). destruct Hres as (B' & Hb' & Hdn & ->).
    rewrite Hb in Hb'. injection Hb' as <-. by exists b, pos, B.
Qed.

Lemma Forall2_answers w' (kws : list (K * world (K:=K) (V:=V))) ts rs :
  Forall2 (λ kw t, wf kw.2 ∧ thunk_for kw.2 kw.1 t) kws ts →
  Forall (thunk_ok w') ts → Forall2 (resolved aggregate w') ts rs →
  Forall2 (λ kw r, answers aggregate kw.2 w' kw.1 r) kws rs.
Proof.
  intros Hfors. revert rs.
  induction Hfors as [|kw t kws ts [Hwf Hfor] _ IH]; intros rs Hoks Hres.
  - apply Forall2_nil_inv_l in Hres as ->. constructor.
  - apply Forall2_cons_inv_l in Hres as (r & rs' & Hr & Hrs & ->).
    apply Forall_cons in Hoks as [Hok Hoks].
    constructor; [by eapply resolved_answers|by apply IH].
Qed.

Lemma LoadAll_returns ks w :
  wf w →
  ∃ ts w1 users errs w',
    mapM (λ key, yield aggregate;; LoadThunk key) ks w = (Ok ts, w1)
    ∧ mapM (λ t, yield aggregate;; func_call aggregate (Some t)) ts w1
      = (Ok (zip users errs), w')
    ∧ LoadAll aggregate ks w = (Ok (users, errs), w')
    ∧ length users = length ks ∧ length errs = length ks
    ∧ wf w'
    ∧ Forall2 (λ kw t, wf kw.2 ∧ thunk_for kw.2 kw.1 t)
        (zip ks (attach_worlds aggregate ks w)) ts
    ∧ Forall (thunk_ok w') ts
    ∧ Forall2 (resolved aggregate w') ts (zip users errs).
Proof.
  intros Hwf.
  destruct (attach_returns ks w Hwf) as (ts & w1 & Hts & Hwf1 & Hoks & Hfors & _).
  destruct (resolve_returns ts w1 Hwf1 Hoks) as (rs & w2 & Hrs & Hwf2 & Hext & Hress).
  exists ts, w1, (rs.*1), (rs.*2), w2. rewrite zip_fst_snd.
  split; [done|]. split; [done|]. split.
  { rewrite LoadAll_refines. unfold LoadAll_spec.
    by rewrite (bind_Ok _ _ _ _ _ Hts), (bind_Ok _ _ _ _ _ Hrs). }
  rewrite !length_fmap. rewrite (mapM_length _ _ _ _ _ Hrs).
  rewrite (mapM_length _ _ _ _ _ Hts). split; [done|]. split; [done|].
  split; [done|]. split; [done|].
  split; [eapply Forall_impl; [exact Hoks|]; intros t; by apply thunk_ok_extends|].
  done.
Qed.

End load_all.

(** ** The aggregate of [data_loader.go] *)

Lemma append_cons a (s1 s2 : string) :
  (String a s1 ++ s2)%string = String a (s1 ++ s2)%string.
Proof. reflexivity. Qed.

Lemma append_assoc (s1 s2 s3 : string) :
  ((s1 ++ s2) ++ s3 = s1 ++ (s2 ++ s3))%string.
Proof.
  induction s1 as [|a s1 IH]; [done|]. rewrite !append_cons. by rewrite IH.
Qed.

Lemma append_nil_r (s : string) : (s ++ "" = s)%string.
Proof. induction s as [|a s IH]; [done|]. rewrite append_cons. by rewrite IH. Qed.

Lemma concat_snoc sep (l : list string) x :
  l ≠ [] →
  String.concat sep (l ++ [x]) = (String.concat sep l ++ sep ++ x)%string.
Proof.
  induction l as [|a l IH]; [done|]. intros _.
  destruct l as [|b l]; [done|].
  change (String.concat sep ((a :: b :: l) ++ [x]))
    with (a ++ sep ++ String.concat sep ((b :: l) ++ [x]))%string.
  rewrite IH by done.
  change (String.concat sep (a :: b :: l))
    with (a ++ sep ++ String.concat sep (b :: l))%string.
  by rewrite !append_assoc.
Qed.

(** The loop keeps, in [errs], the non-nil errors met so far. *)
Lemma joinErrors_snoc (errs : list error_value) (err : error_value) :
  joinErrors (errs ++ [err])
  = match err with
    | None => joinErrors errs
    | Some _ => errors_Join [joinErrors errs; err]
    end.
Proof. unfold joinErrors. by rewrite foldl_app. Qed.

Lemma joinErrors_spec (batch_error : list error_value) :
  match joinErrors batch_error with
  | None => omap id batch_error = []
  | Some errs =>
      omap id batch_error ≠ []
      ∧ leaves errs = concat (leaves <$> omap id batch_error)
      ∧ Error errs = String.concat LF (Error <$> omap id batch_error)
  end.
Proof.
  induction batch_error as [|err batch_error IH] using rev_ind; [done|].
  rewrite joinErrors_snoc, omap_app. destruct err as [e|]; simpl.
  - unfold errors_Join. destruct (joinErrors batch_error) as [errs|]; simpl.
    + destruct IH as (Hne & Hl & He). split; [by destruct (omap id batch_error)|].
      rewrite fmap_app, concat_app, Hl, app_nil_r. simpl. rewrite app_nil_r.
      split; [done|]. rewrite fmap_app. simpl. rewrite concat_snoc, He; [done|].
      by destruct (omap id batch_error).
    + rewrite IH. simpl. split; [done|]. by rewrite !app_nil_r.
  - rewrite app_nil_r. exact IH.
Qed.

(** C1. In a batch that is done and whose [error] holds a non-nil error,
    every function value attached to the batch, whatever its index and key
    and whatever value its own position holds, returns a non-nil aggregate
    built from all non-nil errors of the batch, in order, and leaves the
    state, and so the cache, as it was. *)
Theorem C1_batch_error_withholds_cache w b B (pos : nat) key :
  batches w !! b = Some B → done B = true →
  (∃ i e, error B !! i = Some (Some e)) →
  ∃ errs w',
    thunk_call joinErrors (ThunkBatch b pos key) w
    = (Ok (data_at B pos, Some errs), w')
    ∧ w' = w
    ∧ cache (loader w') = cache (loader w)
    ∧ leaves errs = concat (leaves <$> omap id (error B))
    ∧ Error errs = String.concat LF (Error <$> omap id (error B)).
Proof.
  intros Hb Hdn (i & e & Hi).
  pose proof (joinErrors_spec (error B)) as Hspec.
  destruct (joinErrors (error B)) as [errs|] eqn:Ha.
  - destruct Hspec as (_ & Hl & He). exists errs, w.
    split; [by apply thunk_call_error|]. done.
  - assert (e ∈ omap id (error B)) as Hin.
    { apply list_elem_of_omap. exists (Some e). split; [|done].
      by eapply list_elem_of_lookup_2. }
    rewrite Hspec in Hin. by apply elem_of_nil in Hin.
Qed.

(** ** Direct statements about [thunk_call] and [Prime] *)

Lemma data_at_short B (pos : nat) : (length (data B) ≤ pos)%nat → data_at B pos = None.
Proof. intros Hle. unfold data_at. by rewrite lookup_ge_None_2. Qed.

Lemma thunk_call_no_panic aggregate w b B (pos : nat) key msg w' :
  batches w !! b = Some B →
  thunk_call aggregate (ThunkBatch b pos key) w ≠ (Panic msg, w').
Proof.
  intros Hb. destruct (done B) eqn:Hdn.
  2:{ by rewrite (thunk_call_blocked aggregate w b B pos key Hb Hdn). }
  destruct (aggregate (error B)) as [errs|] eqn:Ha.
  { by rewrite (thunk_call_error aggregate w b B pos key errs Hb Hdn Ha). }
  destruct w as [[f wt n c bt m] bs h gs fl sc]. fields. destruct m.
  - destruct B as [ks dt er cl dn]. fields. subst dn. mcompute.
    rewrite Hb. mprim. rewrite Hb. mprim.
    destruct (decide (pos < length dt)%nat) as [Hlt|Hlt].
    + destruct (lookup_lt_is_Some_2 dt pos Hlt) as [x ->]. by rewrite Ha.
    + by rewrite Ha.
  - by erewrite thunk_call_success.
Qed.

(** C9. Calling a function value never runs off the end of [batch.data]:
    whatever the lengths of the sequences [fetch] returned, the call does
    not panic; once the batch is done it returns, and an index at or beyond
    the length of [batch.data] yields the nil value. *)
Theorem C9_short_values_yield_nil aggregate w b B (pos : nat) key :
  batches w !! b = Some B →
  (∀ msg w', thunk_call aggregate (ThunkBatch b pos key) w ≠ (Panic msg, w'))
  ∧ (done B = true → mu (loader w) = false →
     ∃ w', thunk_call aggregate (ThunkBatch b pos key) w
           = (Ok (data_at B pos, aggregate (error B)), w')
           ∧ ((length (data B) ≤ pos)%nat → data_at B pos = None)
           ∧ (∀ v, data B !! pos = Some v → data_at B pos = v)).
Proof.
  intros Hb. split.
  - intros msg w'. by apply thunk_call_no_panic with (B := B).
  - intros Hdn Hmu.
    assert (∃ w', thunk_call aggregate (ThunkBatch b pos key) w
                  = (Ok (data_at B pos, aggregate (error B)), w')) as [w' Hw'].
    { destruct (aggregate (error B)) as [errs|] eqn:Ha.
      - exists w. by apply thunk_call_error.
      - destruct w as [[f wt n c bt m] bs h gs fl sc]. fields. subst m.
        eexists. by apply thunk_call_success. }
    exists w'. split; [done|]. split; [apply data_at_short|].
    intros v Hv. unfold data_at. by rewrite Hv.
Qed.

(** C10. On a key that is not cached, [Prime] with the nil pointer panics
    on [*value]; no boolean is returned. *)
Theorem C10_Prime_nil_value_panics w key :
  mu (loader w) = false → cache_lookup (cache (loader w)) key = None →
  Prime key None w
  = (Panic "invalid memory address or nil pointer dereference", w).
Proof.
  destruct w as [[f wt n c bt m] bs h gs fl sc]. fields. intros -> Hc.
  by apply Prime_nil.
Qed.

(** C6. For a key and a value held at address [a]: when the key is not
    cached, [Prime] returns [true] and caches a pointer to a copy of the
    value at an address that was not in use, so that a later write through
    any other address leaves the cached value as it was, and the other
    entries are kept; when the key is cached, [Prime] returns [false] and
    changes nothing. *)
Theorem C6_Prime_copies_or_keeps w key (a : loc) (v : V) :
  mu (loader w) = false → heap w !! a = Some v →
  (cache_lookup (cache (loader w)) key = None →
   ∃ p w',
     Prime key (Some a) w = (Ok true, w')
     ∧ cache_lookup (cache (loader w')) key = Some (Some p)
     ∧ heap w' !! p = Some v
     ∧ heap w !! p = None
     ∧ (∀ k, k ≠ key →
        cache_lookup (cache (loader w')) k = cache_lookup (cache (loader w)) k)
     ∧ (∀ a' v', a' ≠ p →
        heap (store a' v' w').2 !! p = Some v
        ∧ cache (loader (store a' v' w').2) = cache (loader w')))
  ∧ (∀ value it, cache_lookup (cache (loader w)) key = Some it →
     Prime key value w = (Ok false, w)).
Proof.
  destruct w as [[f wt n c bt m] bs h gs fl sc]. fields. intros -> Ha. split.
  - intros Hc. eexists _, _. split; [by apply Prime_copy|]. fields.
    assert (h !! fresh (dom h) = None) as Hfresh.
    { apply not_elem_of_dom. apply is_fresh. }
    split; [by rewrite cache_lookup_set, decide_True|].
    split; [by rewrite lookup_insert_eq|]. split; [done|].
    split; [intros k Hk; by rewrite cache_lookup_set, decide_False|].
    intros a' v' Hne. mcompute. split; [|done].
    by rewrite lookup_alter_ne, lookup_insert_eq.
  - intros value it Hc. by eapply Prime_present.
Qed.

(** ** Statements about the worlds the program reaches *)

Lemma range_keys_NoDup key ks (i : nat) :
  NoDup ks → ks !! i = Some key → range_keys key ks 0 = Some i.
Proof.
  intros Hnd Hi.
  destruct (range_keys_elem key ks (list_elem_of_lookup_2 _ _ _ Hi)) as (j & Hr & Hj).
  rewrite Hr. f_equal. by eapply NoDup_lookup.
Qed.

Lemma run_keeps_cached aggregate acts w key :
  wf w → cached w key → AClear key ∉ acts →
  cached (run aggregate acts w) key
  ∧ ∀ b B', batches (run aggregate acts w) !! b = Some B' → key ∈ keys B' →
      ∃ B, batches w !! b = Some B ∧ key ∈ keys B.
Proof.
  revert w. induction acts as [|a acts IH]; intros w Hwf Hc Hacts.
  - split; [done|]. intros b B' Hb Hk. by exists B'.
  - rewrite run_cons. apply not_elem_of_cons in Hacts as [Ha Hacts].
    destruct (interfere_advances aggregate w a Hwf) as [H1 _ _ _ H5 H6].
    assert (cached (interfere aggregate w a) key) as Hc1.
    { apply H6; [|done]. destruct a; simpl; try apply not_elem_of_nil.
      rewrite list_elem_of_singleton. congruence. }
    destruct (IH _ H1 Hc1 Hacts) as [IH1 IH2]. split; [done|].
    intros b B' Hb Hk. destruct (IH2 b B' Hb Hk) as (B1 & Hb1 & Hk1).
    destruct (H5 b B1 key Hb1 Hk1) as [Hnew|?]; [|done].
    destruct Hc as [it Hit]. destruct a as [key'| | | | |]; simpl in Hnew;
      try by apply elem_of_nil in Hnew.
    destruct (cache_lookup (cache (loader w)) key') eqn:Hc'.
    + by apply elem_of_nil in Hnew.
    + apply list_elem_of_singleton in Hnew. subst key'. congruence.
Qed.

(** C5, as amended. In a world the program reaches, for a key that is
    cached: [LoadThunk] returns the function value that holds the cached
    value and changes nothing, so no batch is created or joined; calling
    that function value returns the cached value and a nil error without
    waiting; and as long as no [Clear] of the key runs, the key stays
    cached and joins no batch, whatever else runs: a batch that holds the
    key afterwards held it already.  Such a batch is still fetched. *)
Theorem C5_cached_key_joins_no_batch aggregate f d n w key it :
  int_range n → reachable aggregate (NewDataLoader f d n) w →
  cache_lookup (cache (loader w)) key = Some it →
  LoadThunk key w = (Ok (ThunkCached it), w)
  ∧ thunk_call aggregate (ThunkCached it) w = (Ok (it, None), w)
  ∧ ∀ acts, AClear key ∉ acts →
      cached (run aggregate acts w) key
      ∧ ∀ b B', batches (run aggregate acts w) !! b = Some B' → key ∈ keys B' →
          ∃ B, batches w !! b = Some B ∧ key ∈ keys B.
Proof.
  intros Hn Hreach Hc.
  destruct (reachable_wf aggregate f d n w Hn Hreach) as (Hwf & _ & _).
  split; [|split; [done|]].
  - pose proof (wf_mu _ Hwf) as Hmu.
    destruct w as [[f' wt n' c bt m] bs h gs fl sc]. fields. subst m.
    by apply LoadThunk_cached.
  - intros acts Hacts. apply run_keeps_cached; [done| |done].
    unfold cached. by rewrite Hc.
Qed.

(** C4. In a world the program reaches: the keys of every batch are
    pairwise distinct; no step removes a batch or changes its keys other
    than by appending; [LoadThunk] on a key that the current batch holds at
    index [i] returns a function value with that index and changes nothing;
    and every call of [fetch] so far received pairwise distinct keys. *)
Theorem C4_keys_distinct_and_append_only aggregate f d n w :
  int_range n → reachable aggregate (NewDataLoader f d n) w →
  (∀ b B, batches w !! b = Some B → NoDup (keys B))
  ∧ (∀ a, extends w (interfere aggregate w a))
  ∧ (∀ key b B (i : nat),
       batch (loader w) = Some b → batches w !! b = Some B →
       cache_lookup (cache (loader w)) key = None → keys B !! i = Some key →
       LoadThunk key w = (Ok (ThunkBatch b i key), w))
  ∧ Forall (λ call, NoDup call.1) (fetched w).
Proof.
  intros Hn Hreach.
  destruct (reachable_wf aggregate f d n w Hn Hreach) as (Hwf & _ & _).
  split; [|split; [|split]].
  - intros b B Hb. by destruct (wf_batches _ Hwf _ _ Hb).
  - intros a. by destruct (interfere_advances aggregate w a Hwf).
  - intros key b B i Hbt Hb Hc Hi.
    pose proof (wf_mu _ Hwf) as Hmu.
    destruct (wf_batches _ Hwf _ _ Hb) as [Hnd _ _ _ _ _ _].
    destruct w as [[f' wt n' c bt m] bs h gs fl sc]. fields. subst m bt.
    eapply LoadThunk_present; [done..|]. by apply range_keys_NoDup.
  - eapply Forall_impl; [exact (wf_fetched _ Hwf)|]. by intros call [? _].
Qed.

(** C2. With [maxBatch = n > 0]: an attachment by [keyIndex] that brings a
    batch that is not closing to [n] keys sets [closing], clears [l.batch]
    and starts [end]; in every world the program reaches, every call of
    [fetch] received at most [n] keys, every batch has at most [n] keys and
    the current one fewer, a key that is not cached and finds no current
    batch is the first key of a batch allocated for it, and no step resets
    [closing].  With
    [maxBatch = 0], in every world the program reaches no batch is
    closing, no [end] has been started, and every call of [fetch] was made
    by [startTimer]. *)
Theorem C2_capacity_closes_the_batch aggregate f d n :
  int_range n →
  (0 < n →
   (∀ w b B key,
      maxBatch (loader w) = n → batches w !! b = Some B → closing B = false →
      key ∉ keys B → Z.of_nat (length (keys B)) + 1 = n →
      ∃ w' B',
        keyIndex b key w = (Ok (length (keys B)), w')
        ∧ batches w' !! b = Some B' ∧ keys B' = keys B ++ [key]
        ∧ closing B' = true ∧ batch (loader w') = None
        ∧ GoEnd b ∈ goroutines w')
   ∧ (∀ w, reachable aggregate (NewDataLoader f d n) w →
        Forall (λ call, Z.of_nat (length call.1) ≤ n) (fetched w)
        ∧ (∀ b B, batches w !! b = Some B → Z.of_nat (length (keys B)) ≤ n)
        ∧ (∀ b B, batch (loader w) = Some b → batches w !! b = Some B →
             Z.of_nat (length (keys B)) < n)
        ∧ (∀ key,
             batch (loader w) = None →
             cache_lookup (cache (loader w)) key = None →
             ∃ w' B',
               LoadThunk key w = (Ok (ThunkBatch (length (batches w)) 0 key), w')
               ∧ batches w' !! length (batches w) = Some B' ∧ keys B' = [key]
               ∧ ∀ b B, batches w !! b = Some B → batches w' !! b = Some B)
        ∧ (∀ a b B,
             batches w !! b = Some B → closing B = true →
             ∃ B', batches (interfere aggregate w a) !! b = Some B'
                   ∧ closing B' = true)))
  ∧ (n = 0 →
     ∀ w, reachable aggregate (NewDataLoader f d n) w →
       (∀ b B, batches w !! b = Some B → closing B = false)
       ∧ (∀ b, GoEnd b ∉ goroutines w)
       ∧ Forall (λ call, call.2 = true) (fetched w)).
Proof.
  intros Hn. split.
  - intros Hpos. split.
    + intros w b [ks dt er cl dn] key Hmax Hb Hcl Hkey Hlen. fields. subst cl.
      destruct w as [[f' wt n' c bt m] bs h gs fl sc]. fields. subst n'.
      pose proof (lookup_lt_Some _ _ _ Hb) as Hlt.
      pose proof (proj2 (range_keys_None key ks 0) Hkey) as Hr.
      rewrite (keyIndex_append _ _ _ _ _ _ _ _ _ _ _ _ _ _ _ _ _ _ Hb Hr).
      rewrite (caps_reached n (length ks) Hn Hpos Hlen).
      eexists _, _. split; [done|]. fields.
      rewrite list_lookup_insert_eq by done.
      split; [done|]. split; [done|]. split; [done|]. split; [done|].
      rewrite !elem_of_app. right. right. left.
    + intros w Hreach.
      destruct (reachable_wf aggregate f d n w Hn Hreach) as (Hwf & Hmax & _).
      split; [|split; [|split; [|split]]].
      * eapply Forall_impl; [exact (wf_fetched _ Hwf)|].
        intros call (_ & Hle & _). rewrite Hmax in Hle. by apply Hle.
      * intros b B Hb. destruct (wf_batches _ Hwf _ _ Hb) as [_ Hle _ _ _ _ _].
        rewrite Hmax in Hle. by apply Hle.
      * intros b B Hbt Hb. destruct (wf_current _ Hwf b Hbt) as (B' & Hb' & _ & _ & _ & Hroom).
        rewrite Hb in Hb'. injection Hb' as <-. rewrite Hmax in Hroom.
        by apply Hroom.
      * intros key Hbt Hc. pose proof (wf_mu _ Hwf) as Hmu.
        destruct w as [[f' wt n' c bt m] bs h gs fl sc]. fields. subst m bt.
        rewrite (LoadThunk_fresh _ _ _ _ _ _ _ _ _ _ Hc). eexists _, _.
        split; [done|]. fields. rewrite lookup_app_r, Nat.sub_diag by done.
        split; [done|]. split; [done|].
        intros b B Hb. by apply lookup_app_l_Some.
      * intros a b B Hb Hcl.
        destruct (interfere_advances aggregate w a Hwf) as [_ _ _ Hext _ _].
        destruct (Hext b B Hb) as (B' & Hb' & _ & _ & Hc). exists B'.
        split; [done|]. by apply Hc.
  - intros -> w Hreach.
    destruct (reachable_wf aggregate f d 0 w Hn Hreach) as (Hwf & Hmax & _).
    split; [|split].
    + intros b B Hb. destruct (wf_batches _ Hwf _ _ Hb) as [_ _ _ _ _ _ Hun].
      by apply Hun.
    + by apply (wf_nocap _ Hwf).
    + eapply Forall_impl; [exact (wf_fetched _ Hwf)|].
      intros call (_ & _ & Hheld). by apply Hheld.
Qed.

(** C7. In a world the program reaches, [LoadAll] is the two passes the
    specification describes and it returns: the first pass obtains the
    function values [ts], one for each key, each the one [LoadThunk]
    returns for its key in the world in which the loop calls it; the
    second pass, which starts in the world the first pass leaves, calls
    them in order and its results are the two outputs, which have the
    length of the input.  The pair at index [i] answers the [i]-th key:
    it is the value the cache held for that key when its function value
    was obtained, with a nil error, or the value at the index of that key
    in its batch, with the batch's aggregate. *)
Theorem C7_LoadAll_follows_key_order aggregate f d n w ks :
  int_range n → reachable aggregate (NewDataLoader f d n) w →
  LoadAll aggregate ks w = LoadAll_spec aggregate ks w
  ∧ ∃ ts w1 users errs w',
      mapM (λ key, yield aggregate;; LoadThunk key) ks w = (Ok ts, w1)
      ∧ mapM (λ t, yield aggregate;; func_call aggregate (Some t)) ts w1
        = (Ok (zip users errs), w')
      ∧ LoadAll aggregate ks w = (Ok (users, errs), w')
      ∧ length users = length ks ∧ length errs = length ks
      ∧ Forall2 (λ kw t, thunk_for kw.2 kw.1 t)
          (zip ks (attach_worlds aggregate ks w)) ts
      ∧ Forall2 (resolved aggregate w') ts (zip users errs)
      ∧ Forall2 (λ kw r, answers aggregate kw.2 w' kw.1 r)
          (zip ks (attach_worlds aggregate ks w)) (zip users errs).
Proof.
  intros Hn Hreach.
  destruct (reachable_wf aggregate f d n w Hn Hreach) as (Hwf & _ & _).
  split; [apply LoadAll_refines|].
  destruct (LoadAll_returns aggregate ks w Hwf)
    as (ts & w1 & users & errs & w' & Hts & Hrs & Hall & Hlu & Hle & _
        & Hfors & Hoks & Hress).
  exists ts, w1, users, errs, w'.
  split; [done|]. split; [done|]. split; [done|]. split; [done|].
  split; [done|].
  split; [eapply Forall2_impl; [exact Hfors|]; by intros kw t [_ Hfor]|].
  split; [done|]. by eapply Forall2_answers.
Qed.

End methods.

(** ** The format of the aggregate in [UserLoader] *)

Section formatting_facts.
Import example.

Variable range_map : gmap string nat → list (string * nat).
Variable sort_Slice :
  (errorOccurrences → errorOccurrences → bool) →
  list errorOccurrences → list errorOccurrences.

(** What Go promises of [range] over a map and of [sort.Slice]. *)
Hypothesis range_map_visits : ∀ m, range_map m ≡ₚ map_to_list m.
Hypothesis sort_Slice_permutes : ∀ s, sort_Slice less s ≡ₚ s.
Hypothesis sort_Slice_sorts :
  ∀ s, StronglySorted (λ a b, less b a = false) (sort_Slice less s).

Lemma countsByErrors_fold (m : gmap string nat) (errors : list string) msg :
  foldl (λ m err, <[err := S (default 0%nat (m !! err))]> m) m errors !! msg
  = match count msg errors with
    | O => m !! msg
    | S c => Some (default 0%nat (m !! msg) + S c)%nat
    end.
Proof.
  revert m. induction errors as [|e errors IH]; intros m; [done|].
  simpl. rewrite IH. unfold count. rewrite filter_cons.
  destruct (decide (e = msg)) as [->|Hne].
  - rewrite lookup_insert_eq. simpl.
    destruct (length (filter (λ e, e = msg) errors)); f_equal; lia.
  - by rewrite lookup_insert_ne.
Qed.

Lemma count_pos msg (errors : list string) :
  msg ∈ errors ↔ count msg errors ≠ 0%nat.
Proof.
  unfold count. rewrite length_zero_iff_nil. split.
  - intros Hin Hnil. assert (msg ∈ filter (λ e, e = msg) errors) as Hm.
    { by apply list_elem_of_filter. }
    rewrite Hnil in Hm. by apply elem_of_nil in Hm.
  - intros Hne. destruct (filter (λ e, e = msg) errors) as [|x l] eqn:Hf; [done|].
    assert (x ∈ filter (λ e, e = msg) errors) as Hx by (rewrite Hf; left).
    apply list_elem_of_filter in Hx as [-> Hx]. done.
Qed.

Lemma countsByErrors_lookup (errors : list string) msg n :
  countsByErrors errors !! msg = Some n ↔ msg ∈ errors ∧ n = count msg errors.
Proof.
  unfold countsByErrors. rewrite countsByErrors_fold, lookup_empty, count_pos.
  destruct (count msg errors) as [|c]; simpl.
  - split; [done|]. by intros [? _].
  - split; [intros [= <-]; split; [done|lia] | intros [_ ->]; f_equal; lia].
Qed.

Lemma foldl_snoc {X Y} (g : X → Y) (acc : list Y) (l : list X) :
  foldl (λ acc p, acc ++ [g p]) acc l = acc ++ (g <$> l).
Proof.
  revert acc. induction l as [|x l IH]; intros acc; simpl.
  - by rewrite app_nil_r.
  - by rewrite IH, <- app_assoc.
Qed.

Lemma foldl_bullets (sb : string) (seos : list errorOccurrences) :
  foldl (λ sb seo, (sb ++ bullet seo)%string) sb seos
  = (sb ++ bullets seos)%string.
Proof.
  revert sb. induction seos as [|seo seos IH]; intros sb; simpl.
  - by rewrite append_nil_r.
  - by rewrite IH, append_assoc.
Qed.

Lemma StronglySorted_weaken {X} (R R' : X → X → Prop) (l : list X) :
  (∀ a b, R a b → R' a b) → StronglySorted R l → StronglySorted R' l.
Proof.
  intros HR. induction 1 as [|a l Hs IH Hall]; constructor; [done|].
  eapply Forall_impl; [exact Hall|]. apply HR.
Qed.

Lemma sortedErrorOccurrences_spec (errors : list string) :
  let sorted := sortedErrorOccurrences range_map sort_Slice errors in
  (∀ msg n, ErrorOccurrences msg n ∈ sorted ↔ msg ∈ errors ∧ n = count msg errors)
  ∧ NoDup (error <$> sorted)
  ∧ StronglySorted (λ a b, occurrences b ≤ occurrences a)%nat sorted.
Proof.
  unfold sortedErrorOccurrences. rewrite foldl_snoc, app_nil_l.
  set (g := λ p : string * nat, ErrorOccurrences p.1 p.2).
  assert (Hperm : sort_Slice less (g <$> range_map (countsByErrors errors))
                  ≡ₚ g <$> map_to_list (countsByErrors errors)).
  { rewrite sort_Slice_permutes. by rewrite range_map_visits. }
  simpl. split; [|split].
  - intros msg n. rewrite Hperm, <- countsByErrors_lookup.
    rewrite <- elem_of_map_to_list. rewrite list_elem_of_fmap. split.
    + intros ([msg' n'] & [= -> ->] & Hin). done.
    + intros Hin. by exists (msg, n).
  - rewrite Hperm, <- list_fmap_compose.
    apply (NoDup_fst_map_to_list (countsByErrors errors)).
  - eapply StronglySorted_weaken; [|apply sort_Slice_sorts].
    intros a b Hab. unfold less in Hab. apply bool_decide_eq_false_1 in Hab. lia.
Qed.

(** The loop of the function value over plain errors. *)
Lemma appendErrors_plain formatErrors (batch_error : list error_value) :
  Forall plain (omap id batch_error) →
  appendErrors formatErrors batch_error
  = match omap id batch_error with
    | [] => None
    | [e] => Some e
    | es => Some (multierror es formatErrors)
    end.
Proof.
  unfold appendErrors.
  set (step := λ (errs : error_value) (err : error_value),
         match err with
         | None => errs
         | Some e =>
             match errs with
             | None => Some e
             | Some acc => Some (multierror_Append acc e)
             end
         end).
  intros Hplain.
  assert (foldl step None batch_error
          = match omap id batch_error with
            | [] => None
            | [e] => Some e
            | es => Some (multierror es None)
            end) as ->.
  { induction batch_error as [|err batch_error IH] using rev_ind; [done|].
    rewrite foldl_app. rewrite omap_app in Hplain |- *.
    apply Forall_app in Hplain as [Hes He]. rewrite (IH Hes).
    destruct err as [e|]; simpl; [|by rewrite app_nil_r].
    simpl in He. rewrite Forall_singleton in He.
    destruct (omap id batch_error) as [|e0 [|e1 es]]; simpl.
    - done.
    - rewrite Forall_singleton in Hes. by destruct e0, e; simpl in *.
    - by destruct e; simpl in *. }
  destruct (omap id batch_error) as [|e0 [|e1 es]]; [done| |done].
  rewrite Forall_singleton in Hplain. by destruct e0; simpl in *.
Qed.

(** C8, as amended. With no formatter in the configuration, the
    aggregate that the generated loader returns for a batch whose non-nil
    errors are no [*multierror.Error] reads: for a single error, its own
    message; for several, the header line [<total> errors occurred:],
    then one line [ * <count> <message>] for each distinct message, with
    the number of times the message occurs, the lines in the order of
    descending count, then an empty line.  The generic loader has no
    formatter: its aggregate reads as the messages of the non-nil errors,
    one on each line. *)
Theorem C8_default_format_of_plain_errors (batch_error : list error_value) :
  Forall plain (omap id batch_error) →
  let errors := Error <$> omap id batch_error in
  let aggregate :=
    appendErrors (NewUserLoader_formatErrors range_map sort_Slice None)
      batch_error in
  match omap id batch_error with
  | [] => aggregate = None
  | [e] =>
      aggregate = Some e
      ∧ defaultFormatErrors range_map sort_Slice [Error e] = Error e
  | _ =>
      ∃ a sorted,
        aggregate = Some a
        ∧ Error a
          = (Itoa (Z.of_nat (length errors)) ++ " errors occurred:" ++ LF
             ++ foldr (λ seo s,
                         ((" * " ++ Itoa (Z.of_nat (occurrences seo)) ++ " "
                           ++ error seo ++ LF) ++ s)%string)
                  EmptyString sorted
             ++ LF)%string
        ∧ (∀ msg n, ErrorOccurrences msg n ∈ sorted
                    ↔ msg ∈ errors ∧ n = count msg errors)
        ∧ NoDup (error <$> sorted)
        ∧ StronglySorted (λ a b, occurrences b ≤ occurrences a)%nat sorted
  end
  ∧ match joinErrors batch_error with
    | None => omap id batch_error = []
    | Some joined => Error joined = String.concat LF errors
    end.
Proof.
  intros Hplain. simpl. split.
  - rewrite (appendErrors_plain _ _ Hplain).
    destruct (omap id batch_error) as [|e0 [|e1 es]]; [done|done|].
    eexists _, (sortedErrorOccurrences range_map sort_Slice
                  (Error <$> e0 :: e1 :: es)).
    split; [done|]. split; [|apply sortedErrorOccurrences_spec].
    simpl. unfold defaultFormatErrors. by rewrite foldl_bullets.
  - pose proof (joinErrors_spec batch_error) as Hspec.
    destruct (joinErrors batch_error) as [joined|]; [|done].
    by destruct Hspec as (_ & _ & Hmsg).
Qed.

End formatting_facts.

(** ** The sample way to visit and to sort meets what Go promises *)

Section sample_order.
Import example.

Lemma range_map_list_visits (m : gmap string nat) :
  range_map_list m ≡ₚ map_to_list m.
Proof. done. Qed.

Lemma sort_Slice_merge_permutes (s : list errorOccurrences) :
  sort_Slice_merge less s ≡ₚ s.
Proof. apply merge_sort_Permutation. Qed.

Lemma not_less_trans :
  Transitive (λ a b : errorOccurrences, Is_true (negb (less b a))).
Proof.
  intros a b c Hab Hbc. unfold less in *.
  apply negb_prop_elim, Is_true_false_1, bool_decide_eq_false_1 in Hab.
  apply negb_prop_elim, Is_true_false_1, bool_decide_eq_false_1 in Hbc.
  apply negb_prop_intro. intros Hca. apply Is_true_true_1 in Hca.
  apply bool_decide_eq_true_1 in Hca. lia.
Qed.

Lemma not_less_total :
  Total (λ a b : errorOccurrences, Is_true (negb (less b a))).
Proof.
  intros a b. unfold less.
  destruct (decide (occurrences a < occurrences b)%nat) as [Hlt|Hlt].
  - right. apply negb_prop_intro. intros Hc. apply Is_true_true_1 in Hc.
    apply bool_decide_eq_true_1 in Hc. lia.
  - left. apply negb_prop_intro. intros Hc. apply Is_true_true_1 in Hc.
    apply bool_decide_eq_true_1 in Hc. lia.
Qed.

Lemma sort_Slice_merge_sorts (s : list errorOccurrences) :
  StronglySorted (λ a b, less b a = false) (sort_Slice_merge less s).
Proof.
  unfold sort_Slice_merge.
  eapply StronglySorted_weaken;
    [|apply (@StronglySorted_merge_sort _ _ _ not_less_trans not_less_total)].
  intros a b Hab. by apply negb_prop_elim, Is_true_false_1 in Hab.
Qed.

End sample_order.

(** * The properties on the sample runs *)

Import example samples.

Lemma int_range_10 : int_range 10.
Proof. unfold int_range. lia. Defined.

Lemma int_range_2 : int_range 2.
Proof. unfold int_range. lia. Defined.

Lemma int_range_0 : int_range 0.
Proof. unfold int_range. lia. Defined.

(** C3 fails on the timeout path: when the timer of a batch fires,
    [startTimer] calls [end], and so [fetch], between [l.mu.Lock()] and the
    deferred [l.mu.Unlock()]; when the batch fills up, [end] runs as a
    goroutine of its own and calls [fetch] without the mutex. *)
Theorem C3_startTimer_fetches_under_the_mutex :
  fetched timeout_run = [([0%nat], true)]
  ∧ fetched capacity_run = [([0%nat; 1%nat], false)].
Proof. split; reflexivity. Qed.

Lemma C1_sample :
  ∃ errs w',
    thunk_call joinErrors (ThunkBatch 0 0 0%nat) partial_run
    = (Ok (Some 1%positive, Some errs), w')
    ∧ w' = partial_run
    ∧ cache (loader w') = cache (loader partial_run)
    ∧ leaves errs = [errorString "boom"]
    ∧ Error errs = "boom"%string.
Proof.
  apply (C1_batch_error_withholds_cache partial_run 0
           (Batch [0; 1; 2]%nat [Some 1%positive; None; Some 3%positive]
              [None; Some (errorString "boom"); None] false true) 0 0%nat).
  - reflexivity.
  - reflexivity.
  - exists 1%nat, (errorString "boom"). reflexivity.
Defined.

Lemma C2_sample :
  int_range 2
  ∧ Forall (λ call, Z.of_nat (length call.1) ≤ 2) (fetched capacity_run)
  ∧ (∃ w' B',
       keyIndex 0 1%nat open_run = (Ok 1%nat, w')
       ∧ batches w' !! 0%nat = Some B' ∧ keys B' = [0; 1]%nat
       ∧ closing B' = true ∧ batch (loader w') = None
       ∧ GoEnd 0 ∈ goroutines w')
  ∧ (∀ b B, batches uncapped_run !! b = Some B → closing B = false).
Proof.
  split; [exact int_range_2|].
  destruct (C2_capacity_closes_the_batch (V:=string) joinErrors fetch_values
              1000000 2
              int_range_2) as [Hcap _].
  destruct (Hcap ltac:(lia)) as [Hattach Hreach].
  destruct (Hreach capacity_run) as [Hfetched _].
  { exists heap0, [], [ALoadThunk 0%nat; ALoadThunk 1%nat; AGo 1%nat].
    reflexivity. }
  split; [exact Hfetched|]. split.
  - apply (Hattach open_run 0%nat (Batch [0%nat] [] [] false false) 1%nat).
    + reflexivity.
    + reflexivity.
    + reflexivity.
    + intros Hin. apply list_elem_of_singleton in Hin. discriminate.
    + reflexivity.
  - destruct (C2_capacity_closes_the_batch (V:=string) joinErrors fetch_values
                1000000 0
                int_range_0) as [_ Hnocap].
    destruct (Hnocap eq_refl uncapped_run) as [Hopen _]; [|exact Hopen].
    exists heap0, [], [ALoadThunk 0%nat; ALoadThunk 1%nat]. reflexivity.
Defined.

Lemma C4_sample :
  int_range 2
  ∧ (∀ b B, batches capacity_run !! b = Some B → NoDup (keys B))
  ∧ Forall (λ call, NoDup call.1) (fetched capacity_run).
Proof.
  split; [exact int_range_2|].
  destruct (C4_keys_distinct_and_append_only joinErrors fetch_values 1000000 2
              capacity_run int_range_2) as (Hnd & _ & _ & Hfetched).
  { exists heap0, [], [ALoadThunk 0%nat; ALoadThunk 1%nat; AGo 1%nat].
    reflexivity. }
  split; [exact Hnd|exact Hfetched].
Defined.

Lemma C5_sample :
  int_range 10
  ∧ LoadThunk 1%nat primed_run = (Ok (ThunkCached (Some 8%positive)), primed_run)
  ∧ thunk_call joinErrors (ThunkCached (Some 8%positive)) primed_run
    = (Ok (Some 8%positive, None), primed_run)
  ∧ cached (run joinErrors [ALoadThunk 1%nat; ALoadThunk 2%nat; AGo 0%nat]
              primed_run) 1%nat.
Proof.
  split; [exact int_range_10|].
  destruct (C5_cached_key_joins_no_batch joinErrors fetch_values 1000000 10
              primed_run 1%nat (Some 8%positive) int_range_10)
    as (Hload & Hcall & Hrun).
  { exists heap0, [], [APrime 1%nat (Some 7%positive)]. reflexivity. }
  { reflexivity. }
  split; [exact Hload|]. split; [exact Hcall|].
  apply Hrun. intros Hin.
  repeat (apply elem_of_cons in Hin as [Hin|Hin]; [discriminate|]).
  by apply elem_of_nil in Hin.
Defined.

(** C5 as stated fails.  With [maxBatch = 2] and loads only: key [0] is in
    the cache, no [Clear] runs, and when the timer of the second batch,
    which key [0] joined before its value was stored, fires, [fetch] is
    called for key [0] once more. *)
Lemma C5_refetched_without_Clear :
  reachable joinErrors (NewDataLoader fetch_values 1000000 2) refetch_run
  ∧ cache_lookup (cache (loader refetch_run)) 0%nat = Some (Some 1%positive)
  ∧ fetched refetch_run = [([0; 1]%nat, false)]
  ∧ (AClear 0%nat ∉ [AGo (K:=nat) (V:=string) 1%nat])
  ∧ fetched (run joinErrors [AGo 1%nat] refetch_run)
    = [([0]%nat, true); ([0; 1]%nat, false)].
Proof.
  split.
  { exists heap0, [],
      [ALoadThunk 0%nat; ALoadThunk 1%nat; ALoadThunk 0%nat; AGo 1%nat;
       ACall (ThunkBatch 0 0 0%nat)].
    reflexivity. }
  split; [reflexivity|]. split; [reflexivity|]. split; [|reflexivity].
  intros Hin. apply list_elem_of_singleton in Hin. discriminate.
Qed.

Lemma C6_sample :
  ∃ p w',
    Prime 1%nat (Some 7%positive) (world_of fetch_values 10) = (Ok true, w')
    ∧ cache_lookup (cache (loader w')) 1%nat = Some (Some p)
    ∧ heap w' !! p = Some "Primed"%string
    ∧ heap (world_of fetch_values 10) !! p = None.
Proof.
  destruct (C6_Prime_copies_or_keeps (world_of fetch_values 10) 1%nat
              7%positive "Primed"%string eq_refl eq_refl) as [Habsent _].
  destruct (Habsent eq_refl) as (p & w' & H1 & H2 & H3 & H4 & _).
  exists p, w'. repeat split; assumption.
Defined.

Lemma C7_sample :
  int_range 2
  ∧ ∃ users errs w',
      LoadAll joinErrors [0; 1; 2]%nat (world_of fetch_values 2)
      = (Ok (users, errs), w')
      ∧ length users = 3%nat ∧ length errs = 3%nat
      ∧ Forall2 (λ kw r, answers joinErrors kw.2 w' kw.1 r)
          (zip [0; 1; 2]%nat
             (attach_worlds joinErrors [0; 1; 2]%nat (world_of fetch_values 2)))
          (zip users errs).
Proof.
  split; [exact int_range_2|].
  destruct (C7_LoadAll_follows_key_order joinErrors fetch_values 1000000 2
              (world_of fetch_values 2) [0; 1; 2]%nat int_range_2)
    as (_ & ts & w1 & users & errs & w' & _ & _ & H1 & H2 & H3 & _ & _ & H4).
  { exists heap0, [], []. reflexivity. }
  exists users, errs, w'. split; [exact H1|]. split; [exact H2|].
  split; [exact H3|exact H4].
Defined.

Lemma C8_sample :
  ∃ a sorted,
    appendErrors
      (NewUserLoader_formatErrors range_map_list sort_Slice_merge None)
      [Some (errorString "a"); None; Some (errorString "b");
       Some (errorString "a")]
    = Some a
    ∧ Error a
      = (Itoa 3 ++ " errors occurred:" ++ LF
         ++ foldr (λ seo s,
                     ((" * " ++ Itoa (Z.of_nat (occurrences seo)) ++ " "
                       ++ error seo ++ LF) ++ s)%string)
              EmptyString sorted
         ++ LF)%string
    ∧ (∀ msg n, ErrorOccurrences msg n ∈ sorted
                ↔ msg ∈ ["a"; "b"; "a"]%string
                  ∧ n = count msg ["a"; "b"; "a"]%string)
    ∧ NoDup (error <$> sorted)
    ∧ StronglySorted (λ a b, occurrences b ≤ occurrences a)%nat sorted.
Proof.
  destruct (C8_default_format_of_plain_errors range_map_list sort_Slice_merge
              range_map_list_visits sort_Slice_merge_permutes
              sort_Slice_merge_sorts
              [Some (errorString "a"); None; Some (errorString "b");
               Some (errorString "a")]) as [Hformat _].
  { repeat constructor. }
  exact Hformat.
Defined.

(** C8 as stated fails.  The generic loader, with no formatter at all,
    renders three errors with two distinct messages as the three messages,
    one on each line, with no header and no counts.  In the generated
    loader a single error that is a [*multierror.Error] does not render
    as its own message: its format is replaced by the default one. *)
Lemma C8_other_renderings :
  Error <$> joinErrors [Some (errorString "a"); Some (errorString "b");
                        Some (errorString "a")]
  = Some ("a" ++ LF ++ "b" ++ LF ++ "a")%string
  ∧ Error <$> appendErrors
                (NewUserLoader_formatErrors range_map_list sort_Slice_merge None)
                [Some (multierror [errorString "a"; errorString "b"] None)]
    = Some ("2 errors occurred:" ++ LF ++ " * 1 a" ++ LF ++ " * 1 b" ++ LF
            ++ LF)%string
  ∧ Error (multierror [errorString "a"; errorString "b"] None)
    = ("2 errors occurred:" ++ LF ++ TAB ++ "* a" ++ LF ++ TAB ++ "* b" ++ LF
       ++ LF)%string.
Proof. split; [|split]; vm_compute; reflexivity. Qed.

Lemma C9_sample :
  ∃ w',
    thunk_call joinErrors (ThunkBatch 0 0 0%nat) short_run
    = (Ok (None, None), w').
Proof.
  destruct (C9_short_values_yield_nil joinErrors short_run 0
              (Batch [0%nat] [] [] false true) 0 0%nat eq_refl) as [_ Hret].
  destruct (Hret eq_refl eq_refl) as (w' & Hcall & _). exists w'. exact Hcall.
Defined.

Lemma C10_sample :
  Prime 1%nat None (world_of fetch_values 10)
  = (Panic "invalid memory address or nil pointer dereference",
     world_of fetch_values 10).
Proof.
  apply (C10_Prime_nil_value_panics (world_of fetch_values 10) 1%nat).
  - reflexivity.
  - reflexivity.
Defined.

(** ** The tests of the repository, run on the model *)

(** [TestMaxBatchSize]: with [maxBatch = 2], keys [0], [1], [2] lead to two
    calls of [fetch], on [[0, 1]] and then on [[2]]. *)
Example TestMaxBatchSize :
  let r := LoadAll joinErrors [0; 1; 2]%nat (world_of fetch_values 2) in
  r.1 = Ok ([Some 1%positive; Some 2%positive; Some 3%positive],
            [None; None; None])
  ∧ reverse (fetched r.2).*1 = [[0; 1]; [2]]%nat.
Proof. split; reflexivity. Qed.

(** [TestBatching]: two keys loaded back to back share one call. *)
Example TestBatching :
  let r := LoadAll joinErrors [0; 1]%nat (world_of fetch_values 10) in
  (fetched r.2).*1 = [[0; 1]]%nat.
Proof. reflexivity. Qed.

(** [TestErrorHandling]: the caller receives a nil value and an error. *)
Example TestErrorHandling :
  (Load joinErrors 42%nat (world_of fetch_boom 10)).1
  = Ok (None, Some (joinError [errorString "boom"])).
Proof. reflexivity. Qed.

(** [TestPrimeAndClearCache]: a primed key is served from the cache
    without a call of [fetch]; after [Clear] it is fetched. *)
Example TestPrimeAndClearCache :
  let r1 := Load joinErrors 1%nat primed_run in
  r1.1 = Ok (Some 8%positive, None) ∧ fetched r1.2 = []
  ∧ heap r1.2 !! 8%positive = Some "Primed"%string
  ∧ let r2 := Load joinErrors 1%nat (Clear 1%nat r1.2).2 in
    r2.1 = Ok (Some 2%positive, None) ∧ (fetched r2.2).*1 = [[1%nat]].
Proof. repeat split; reflexivity. Qed.

(** One failing key withholds the cache from the whole batch. *)
Example partial_failure_caches_nothing :
  let r := LoadAll joinErrors [0; 1; 2]%nat (world_of fetch_partial 10) in
  r.1 = Ok ([Some 1%positive; None; Some 3%positive],
            [Some (joinError [errorString "boom"]);
             Some (joinError [errorString "boom"]);
             Some (joinError [errorString "boom"])])
  ∧ cache (loader r.2) = None.
Proof. split; reflexivity. Qed.

(** The default format on three errors with two distinct messages. *)
Example defaultFormatErrors_sample :
  defaultFormatErrors range_map_list sort_Slice_merge ["a"; "b"; "a"]%string
  = ("3 errors occurred:" ++ LF ++ " * 2 a" ++ LF ++ " * 1 b" ++ LF ++ LF)%string.
Proof. vm_compute. reflexivity. Qed.


(** * Further properties of the engine *)

Import delivery.

Section cache_facts.
Context {K : Type} `{Countable K} {V : Type}.
Implicit Types (w : world (K:=K) (V:=V)) (B : genericLoaderBatch (K:=K)).
Implicit Types (key : K) (aggregate : list error_value → error_value).

Lemma yield_Ok aggregate w : ∃ w', yield aggregate w = (Ok (), w').
Proof. unfold yield. destruct (sched w); by eexists. Qed.

Lemma yield_idle aggregate w : sched w = [] → yield aggregate w = (Ok (), w).
Proof. unfold yield. by intros ->. Qed.

(** X1. [Clear] returns; afterwards the key is not cached, every other
    entry is as before, and nothing else of the state has changed; on a
    cache that was never written it changes nothing at all. *)
Theorem X1_Clear_removes_only_the_key w key :
  mu (loader w) = false →
  ∃ w',
    Clear key w = (Ok (), w')
    ∧ cache_lookup (cache (loader w')) key = None
    ∧ (∀ k, k ≠ key →
       cache_lookup (cache (loader w')) k = cache_lookup (cache (loader w)) k)
    ∧ batches w' = batches w ∧ heap w' = heap w
    ∧ goroutines w' = goroutines w ∧ fetched w' = fetched w
    ∧ batch (loader w') = batch (loader w)
    ∧ (cache (loader w) = None → w' = w).
Proof.
  destruct w as [[f wt n c bt m] bs h gs fl sc]. fields. intros ->.
  eexists. split; [apply Clear_eq|]. fields.
  split; [by rewrite cache_lookup_delete, decide_True|].
  split; [intros k Hk; by rewrite cache_lookup_delete, decide_False|].
  repeat (split; [done|]). by intros ->.
Qed.

(** X2. After [Prime] has stored a value for a key, [Load] of that key
    returns a pointer to an equal value, other than the caller's pointer,
    with a nil error; when no other goroutine runs, [Load] changes
    nothing, so [fetch] is not called. *)
Theorem X2_Prime_then_Load aggregate w key (a : loc) (v : V) :
  mu (loader w) = false → heap w !! a = Some v →
  cache_lookup (cache (loader w)) key = None →
  ∃ p w1,
    Prime key (Some a) w = (Ok true, w1)
    ∧ p ≠ a ∧ heap w1 !! p = Some v
    ∧ (Load aggregate key w1).1 = Ok (Some p, None)
    ∧ (sched w = [] → Load aggregate key w1 = (Ok (Some p, None), w1)).
Proof.
  destruct w as [[f wt n c bt m] bs h gs fl sc]. fields. intros -> Ha Hc.
  assert (h !! fresh (dom h) = None) as Hfresh
    by (apply not_elem_of_dom, is_fresh).
  eexists (fresh (dom h)), _. split; [by apply Prime_copy|].
  split; [intros Heq; rewrite Heq in Hfresh; congruence|].
  fields. split; [by rewrite lookup_insert_eq|].
  assert (∀ w2, func_call aggregate (Some (ThunkCached (Some (fresh (dom h))))) w2
                = (Ok (Some (fresh (dom h)), None), w2)) as Hcall by done.
  split.
  - unfold Load. erewrite bind_Ok;
      [|apply LoadThunk_cached; by rewrite cache_lookup_set, decide_True].
    destruct (yield_Ok aggregate
      (World (Loader f wt n
                (Some (<[key := Some (fresh (dom h))]> (default ∅ c))) bt false)
         bs (<[fresh (dom h) := v]> h) gs fl sc)) as [w2 Hy].
    rewrite (bind_Ok _ _ _ _ _ Hy). by rewrite Hcall.
  - intros ->. unfold Load. erewrite bind_Ok;
      [|apply LoadThunk_cached; by rewrite cache_lookup_set, decide_True].
    erewrite bind_Ok; [|by apply yield_idle]. apply Hcall.
Qed.

(** X3. With no other goroutine running between the two calls, [Clear]
    followed by [Prime] stores: whatever the cache held for the key,
    afterwards it holds a pointer to a copy of the new value, and [Prime]
    has returned [true]. *)
Theorem X3_Clear_then_Prime_replaces aggregate w key (a : loc) (v : V) :
  mu (loader w) = false → heap w !! a = Some v → sched w = [] →
  ∃ p w',
    (Clear key ≫= λ _, yield aggregate ≫= λ _, Prime key (Some a)) w
    = (Ok true, w')
    ∧ cache_lookup (cache (loader w')) key = Some (Some p)
    ∧ heap w' !! p = Some v ∧ p ≠ a
    ∧ (∀ k, k ≠ key →
       cache_lookup (cache (loader w')) k = cache_lookup (cache (loader w)) k).
Proof.
  destruct w as [[f wt n c bt m] bs h gs fl sc]. fields. intros -> Ha ->.
  assert (h !! fresh (dom h) = None) as Hfresh
    by (apply not_elem_of_dom, is_fresh).
  eexists (fresh (dom h)), _. split.
  { erewrite bind_Ok; [|apply Clear_eq].
    erewrite bind_Ok; [|by apply yield_idle].
    apply Prime_copy; [|done].
    by rewrite cache_lookup_delete, decide_True. }
  fields. split; [by rewrite cache_lookup_set, decide_True|].
  split; [by rewrite lookup_insert_eq|].
  split; [intros Heq; rewrite Heq in Hfresh; congruence|].
  intros k Hk. rewrite cache_lookup_set, decide_False by done.
  by rewrite cache_lookup_delete, decide_False.
Qed.

(** X4. A call of a function value whose batch is done and has no error
    stores what it returns under the key, whatever the cache held for the
    key before, and keeps the other entries; the next [LoadThunk] of the
    key is a cache hit with that value.  The value stored is nil when the
    batch has no value at the index. *)
Theorem X4_resolution_writes_back aggregate w b B (pos : nat) key :
  mu (loader w) = false → batches w !! b = Some B → done B = true →
  aggregate (dataloaden.error B) = None →
  ∃ w',
    thunk_call aggregate (ThunkBatch b pos key) w
    = (Ok (data_at B pos, None), w')
    ∧ cache_lookup (cache (loader w')) key = Some (data_at B pos)
    ∧ (∀ k, k ≠ key →
       cache_lookup (cache (loader w')) k = cache_lookup (cache (loader w)) k)
    ∧ LoadThunk key w' = (Ok (ThunkCached (data_at B pos)), w')
    ∧ batches w' = batches w ∧ fetched w' = fetched w
    ∧ ((length (data B) ≤ pos)%nat → data_at B pos = None).
Proof.
  destruct w as [[f wt n c bt m] bs h gs fl sc]. fields. intros -> Hb Hdn Ha.
  eexists. split; [by apply thunk_call_success|]. fields.
  split; [by rewrite cache_lookup_set, decide_True|].
  split; [intros k Hk; by rewrite cache_lookup_set, decide_False|].
  split; [apply LoadThunk_cached; by rewrite cache_lookup_set, decide_True|].
  split; [done|]. split; [done|]. apply data_at_short.
Qed.

(** X5. Calling a function value a second time returns what the first
    call returned and leaves the state as the first call left it. *)
Theorem X5_function_value_is_idempotent aggregate w (t : thunk (K:=K)) :
  mu (loader w) = false →
  thunk_call aggregate t (thunk_call aggregate t w).2
  = thunk_call aggregate t w.
Proof.
  intros Hmu. destruct t as [it|b pos key]; [done|].
  destruct (batches w !! b) as [B|] eqn:Hb.
  2:{ destruct (thunk_call_invalid aggregate w b pos key Hb) as [msg Hp].
      rewrite Hp. cbn [snd]. exact Hp. }
  destruct (done B) eqn:Hdn.
  2:{ rewrite (thunk_call_blocked aggregate w b B pos key Hb Hdn). cbn [snd].
      by apply thunk_call_blocked with (B := B). }
  destruct (aggregate (dataloaden.error B)) as [errs|] eqn:Ha.
  { rewrite (thunk_call_error aggregate w b B pos key errs Hb Hdn Ha). cbn [snd].
    by apply thunk_call_error. }
  destruct w as [[f wt n c bt m] bs h gs fl sc]. fields. subst m.
  rewrite (thunk_call_success aggregate _ _ _ _ _ _ _ _ _ _ _ _ _ key Hb Hdn Ha).
  cbn [snd].
  rewrite (thunk_call_success aggregate _ _ _ _ _ _ _ _ _ _ _ _ _ key Hb Hdn Ha).
  cbn [from_option id]. by rewrite insert_insert_eq.
Qed.

End cache_facts.

Section engine_facts.
Context {K : Type} `{Countable K} {V : Type}.
Implicit Types (w : world (K:=K) (V:=V)) (B : genericLoaderBatch (K:=K)).
Implicit Types (key : K) (ks : list K) (h : gmap loc V) (c : option (gmap K ptr)).
Implicit Types (bs : list (genericLoaderBatch (K:=K))) (gs : list goroutine).
Implicit Types (fl : list (list K * bool)) (sc : list (list (action (K:=K) (V:=V)))).
Implicit Types (f : list K → list ptr * list error_value).
Implicit Types (aggregate : list error_value → error_value).

(** ** What one step does to the batches and to the record of calls *)

Lemma interfere_LoadThunk aggregate w key :
  interfere aggregate w (ALoadThunk key) = (LoadThunk key w).2.
Proof.
  unfold interfere, exec, mbind, M_bind.
  by destruct (LoadThunk key w) as [[] ?].
Qed.

Lemma interfere_ACall aggregate w t :
  interfere aggregate w (ACall t) = (thunk_call aggregate t w).2.
Proof.
  unfold interfere, exec, mbind, M_bind.
  by destruct (thunk_call aggregate t w) as [[] ?].
Qed.

Lemma interfere_APrime aggregate w key value :
  interfere aggregate w (APrime key value) = (Prime key value w).2.
Proof.
  unfold interfere, exec, mbind, M_bind.
  by destruct (Prime key value w) as [[] ?].
Qed.

(** A step is one of four: it leaves the batches and the record of calls
    alone; it appends a key to the current batch; it allocates a batch
    for a key; or it completes one batch that was not done, with the
    output of [fetch] on its keys, and records that call. *)
Lemma interfere_shape aggregate w a :
  wf w →
  let w' := interfere aggregate w a in
  (fetched w' = fetched w ∧ batches w' = batches w
   ∧ (batch (loader w') = batch (loader w) ∨ batch (loader w') = None))
  ∨ (∃ key b B,
       a = ALoadThunk key ∧ batch (loader w) = Some b
       ∧ batches w !! b = Some B ∧ done B = false ∧ closing B = false
       ∧ (key ∉ keys B) ∧ fetched w' = fetched w
       ∧ batches w'
         = (<[b := Batch (keys B ++ [key]) (data B) (dataloaden.error B)
                    (caps (maxBatch (loader w)) (length (keys B)) false) false]>
              (batches w))
       ∧ batch (loader w')
         = if caps (maxBatch (loader w)) (length (keys B)) false
           then None else Some b)
  ∨ (∃ key,
       a = ALoadThunk key ∧ batch (loader w) = None
       ∧ fetched w' = fetched w
       ∧ batches w'
         = batches w ++ [Batch [key] [] [] (caps (maxBatch (loader w)) 0 false) false]
       ∧ batch (loader w')
         = if caps (maxBatch (loader w)) 0 false
           then None else Some (length (batches w)))
  ∨ (∃ i b B,
       a = AGo i ∧ batches w !! b = Some B ∧ done B = false
       ∧ batches w'
         = (<[b := Batch (keys B) (fetch (loader w) (keys B)).1
                    (fetch (loader w) (keys B)).2 (closing B) true]> (batches w))
       ∧ fetched w' = (keys B, negb (closing B)) :: fetched w
       ∧ (batch (loader w') = batch (loader w) ∨ batch (loader w') = None)).
Proof.
  intros Hwf. pose proof Hwf as [H1 H2 H3 H4 H5 H6 H7 H8]. simpl.
  destruct a as [key|t|key value|key|a v|i].
  - rewrite interfere_LoadThunk.
    destruct w as [[f wt n c bt m] bs h gs fl sc]. fields. subst m.
    destruct (cache_lookup c key) as [it|] eqn:Hc.
    { erewrite LoadThunk_cached by done. left. fields. auto. }
    destruct bt as [b|].
    + destruct (H4 b eq_refl) as ([ks dt er cl dn] & Hb & Hcl & Hdn & Hne & Hroom).
      fields. subst cl dn.
      destruct (range_keys key ks 0) as [j|] eqn:Hr.
      * erewrite LoadThunk_present by done. left. fields. auto.
      * erewrite LoadThunk_append by done. right. left.
        exists key, b, (Batch ks dt er false false). fields.
        apply range_keys_None in Hr. done.
    + erewrite LoadThunk_fresh by done. right. right. left.
      exists key. by fields.
  - rewrite interfere_ACall. left.
    destruct t as [it|b pos key]; [simpl; auto|].
    destruct (batches w !! b) as [B|] eqn:Hb.
    + destruct (done B) eqn:Hdn.
      * destruct (aggregate (dataloaden.error B)) as [errs|] eqn:Ha.
        -- erewrite thunk_call_error by done. simpl. auto.
        -- destruct w as [[f wt n c bt m] bs h gs fl sc]. fields. subst m.
           erewrite thunk_call_success by done. fields. auto.
      * erewrite thunk_call_blocked by done. simpl. auto.
    + destruct (thunk_call_invalid aggregate w b pos key Hb) as [msg ->].
      simpl. auto.
  - rewrite interfere_APrime. left.
    destruct w as [[f wt n c bt m] bs h gs fl sc]. fields. subst m.
    destruct (cache_lookup c key) as [it|] eqn:Hc.
    { erewrite Prime_present by done. fields. auto. }
    destruct value as [a|].
    + destruct (h !! a) as [v|] eqn:Ha.
      * erewrite Prime_copy by done. fields. auto.
      * erewrite Prime_unmapped by done. fields. auto.
    + erewrite Prime_nil by done. fields. auto.
  - left. destruct w as [[f wt n c bt m] bs h gs fl sc]. fields. subst m.
    unfold interfere, exec. rewrite Clear_eq. fields. auto.
  - left. destruct w as [[f wt n c bt m] bs h gs fl sc].
    unfold interfere, exec. mcompute. auto.
  - unfold interfere, exec.
    destruct (goroutines w !! i) as [g|] eqn:Hi.
    2:{ rewrite schedule_None by done. left. simpl. auto. }
    rewrite (schedule_Some _ _ _ Hi).
    pose proof (H6 g (list_elem_of_lookup_2 _ _ _ Hi)) as Hlt.
    destruct w as [[f wt n c bt m] bs h gs fl sc]. fields. subst m.
    destruct g as [b|b]; simpl in Hlt;
      destruct (lookup_lt_is_Some_2 bs b Hlt) as [[ks dt er cl dn] Hb];
      unfold set_goroutines, run_goroutine; fields.
    + destruct cl.
      * erewrite startTimer_closing by done. left. fields. auto.
      * pose proof (H3 b _ Hb) as Hok.
        pose proof (timer_sound _ _ _ Hok (list_elem_of_lookup_2 _ _ _ Hi) eq_refl)
          as Hdn. fields. subst dn.
        erewrite startTimer_open by done. right. right. right.
        exists i, b, (Batch ks dt er false false). fields. auto 10.
    + destruct (wf_end _ _ _ _ _ _ _ _ _ _ _ _ _ _ _ _ _ Hwf Hi Hb) as (-> & -> & _).
      erewrite end_open by done. right. right. right.
      exists i, b, (Batch ks dt er true false). fields. auto 10.
Qed.

(** ** Every batch is fetched once, and holds what [fetch] returned *)

Lemma filter_insert_same (bs : list (genericLoaderBatch (K:=K))) b B B' :
  bs !! b = Some B → done B = false → done B' = false →
  filter (λ B, done B = true) (<[b := B']> bs)
  = filter (λ B, done B = true) bs.
Proof.
  intros Hb Hdn Hdn'. pose proof (lookup_lt_Some _ _ _ Hb) as Hlt.
  rewrite insert_take_drop by done.
  rewrite <- (take_drop_middle bs b B Hb) at 3.
  rewrite !filter_app, !filter_cons, !decide_False by congruence. done.
Qed.

Lemma filter_insert_done (bs : list (genericLoaderBatch (K:=K))) b B B' :
  bs !! b = Some B → done B = false → done B' = true →
  filter (λ B, done B = true) (<[b := B']> bs)
  ≡ₚ B' :: filter (λ B, done B = true) bs.
Proof.
  intros Hb Hdn Hdn'. pose proof (lookup_lt_Some _ _ _ Hb) as Hlt.
  rewrite insert_take_drop by done.
  rewrite <- (take_drop_middle bs b B Hb) at 3.
  rewrite !filter_app, !filter_cons, decide_True, decide_False by congruence.
  by rewrite Permutation_middle.
Qed.

Lemma sound_step aggregate w a :
  sound w → sound (interfere aggregate w a).
Proof.
  intros [Hwf Hdel Hacc].
  destruct (interfere_advances aggregate w a Hwf) as [Hwf' _ Hfetch _ _ _].
  pose proof (interfere_shape aggregate w a Hwf) as Hshape. simpl in Hshape.
  split; [done|..]; unfold delivered, accounted in *; rewrite ?Hfetch.
  - destruct Hshape
      as [(_ & -> & _)
         |[(key & b & B & _ & _ & Hb & Hdn & _ & _ & _ & -> & _)
          |[(key & _ & _ & _ & -> & _)
           |(i & b & B & _ & Hb & Hdn & -> & _)]]].
    + done.
    + intros b' B'. destruct (decide (b' = b)) as [->|Hne].
      * rewrite list_lookup_insert_eq by (by eapply lookup_lt_Some).
        by intros [= <-].
      * rewrite list_lookup_insert_ne by done. apply Hdel.
    + intros b' B' HB'. apply lookup_app_Some in HB' as [HB'|[_ HB']].
      * by apply (Hdel b').
      * apply list_lookup_singleton_Some in HB' as [_ <-]. done.
    + intros b' B'. destruct (decide (b' = b)) as [->|Hne].
      * rewrite list_lookup_insert_eq by (by eapply lookup_lt_Some).
        intros [= <-] _. simpl. by destruct (fetch (loader w) (keys B)).
      * rewrite list_lookup_insert_ne by done. apply Hdel.
  - destruct Hshape
      as [(-> & -> & _)
         |[(key & b & B & _ & _ & Hb & Hdn & _ & _ & -> & -> & _)
          |[(key & _ & _ & -> & -> & _)
           |(i & b & B & _ & Hb & Hdn & -> & -> & _)]]].
    + done.
    + by rewrite (filter_insert_same _ _ _ _ Hb Hdn).
    + rewrite filter_app, filter_cons, decide_False by done.
      by rewrite filter_nil, app_nil_r.
    + rewrite (filter_insert_done _ _ _ _ Hb Hdn) by done.
      simpl. by rewrite Hacc.
Qed.

Lemma accounted_keys w :
  accounted w →
  (fetched w).*1 ≡ₚ keys <$> filter (λ B, done B = true) (batches w).
Proof.
  unfold accounted. intros ->. by rewrite <- list_fmap_compose.
Qed.

Lemma sound_sched w g : sound w → sound (set_sched g w).
Proof.
  intros [Hwf Hdel Hacc]. split; [|done|done].
  pose proof (wf_mu _ Hwf) as Hmu.
  destruct w as [[f wt n c bt m] bs h gs fl sc]. fields. subst m.
  by eapply wf_frame.
Qed.

Lemma sound_follows aggregate w w' :
  follows aggregate w w' → sound w → sound w'.
Proof.
  induction 1 as [w|w w' a _ IH|w w' g _ IH]; intros Hs; [done|..].
  - by apply sound_step, IH.
  - by apply sound_sched, IH.
Qed.

Lemma sound_start f d n h sc :
  int_range n → sound (start (NewDataLoader f d n) h sc).
Proof.
  intros Hn. split; [by apply start_wf| |by unfold accounted].
  intros b B Hb. simpl in Hb. by rewrite lookup_nil in Hb.
Qed.

Lemma follows_trans aggregate w1 w2 w3 :
  follows aggregate w1 w2 → follows aggregate w2 w3 → follows aggregate w1 w3.
Proof.
  intros H12 H23. induction H23 as [w|w w' a _ IH|w w' g _ IH]; [done|..].
  - apply follows_step. by apply IH.
  - apply follows_sched. by apply IH.
Qed.

Lemma follows_run aggregate acts w : follows aggregate w (run aggregate acts w).
Proof.
  induction acts as [|a acts IH] using rev_ind; [constructor|].
  rewrite run_app. simpl. by constructor.
Qed.

Lemma reachable_sound aggregate f d n w :
  int_range n → reachable aggregate (NewDataLoader f d n) w →
  sound w ∧ maxBatch (loader w) = n ∧ fetch (loader w) = f.
Proof.
  intros Hn Hreach.
  destruct (reachable_wf aggregate f d n w Hn Hreach) as (_ & Hmax & Hf).
  split; [|done]. destruct Hreach as (h & sc & acts & ->).
  eapply sound_follows; [apply follows_run|by apply sound_start].
Qed.

(** X6. In every world the program reaches, the calls of [fetch] made so
    far are, up to order, the key lists of the batches that are done, one
    call for each; and every batch that is done holds exactly the two
    sequences [fetch] returned for its keys. *)
Theorem X6_one_fetch_per_batch aggregate f d n w :
  int_range n → reachable aggregate (NewDataLoader f d n) w →
  (fetched w).*1 ≡ₚ keys <$> filter (λ B, done B = true) (batches w)
  ∧ ∀ b B, batches w !! b = Some B → done B = true →
      (data B, dataloaden.error B) = f (keys B).
Proof.
  intros Hn Hreach.
  destruct (reachable_sound aggregate f d n w Hn Hreach) as ([_ Hdel Hacc] & _ & Hf).
  split; [by apply accounted_keys|].
  intros b B Hb Hdn. rewrite <- Hf. exact (Hdel b B Hb Hdn).
Qed.

(** X7. In every world the program reaches, any started goroutine, run
    at any time, returns: [startTimer] and [end] do not panic, so
    [close(b.done)] never meets a channel that is closed. *)
Theorem X7_goroutines_do_not_panic aggregate f d n w (i : nat) g :
  int_range n → reachable aggregate (NewDataLoader f d n) w →
  goroutines w !! i = Some g →
  ∃ w', run_goroutine g (set_goroutines (delete i) w) = (Ok (), w')
        ∧ goroutines w' = delete i (goroutines w).
Proof.
  intros Hn Hreach Hi.
  destruct (reachable_wf aggregate f d n w Hn Hreach) as (Hwf & _).
  destruct (schedule_advances w i Hwf) as (w' & Heq & _ & Hgs & _).
  rewrite (schedule_Some _ _ _ Hi) in Heq. by exists w'.
Qed.


(** ** What the methods return, in terms of [fetch] *)

Lemma wf_sched w g : wf w → wf (set_sched g w).
Proof.
  intros Hwf. pose proof (wf_mu _ Hwf) as Hmu.
  destruct w as [[f wt n c bt m] bs h gs fl sc]. fields. subst m.
  by eapply wf_frame.
Qed.

Lemma follows_wf aggregate w w' :
  follows aggregate w w' → wf w → wf w' ∧ extends w w'.
Proof.
  induction 1 as [w|w w' a _ IH|w w' g _ IH]; intros Hwf.
  - split; [done|apply extends_refl].
  - destruct (IH Hwf) as [Hwf' Hext].
    destruct (interfere_advances aggregate w' a Hwf') as [Hwf2 _ _ Hext2 _ _].
    split; [done|by eapply extends_trans].
  - destruct (IH Hwf) as [Hwf' Hext]. split; [by apply wf_sched|].
    intros b B Hb. exact (Hext b B Hb).
Qed.

Lemma follows_fetch aggregate w w' :
  follows aggregate w w' → wf w → fetch (loader w') = fetch (loader w).
Proof.
  induction 1 as [w|w w' a F IH|w w' g _ IH]; intros Hwf; [done|..].
  - destruct (follows_wf _ _ _ F Hwf) as [Hwf' _]. rewrite <- (IH Hwf).
    by destruct (interfere_advances aggregate w' a Hwf').
  - by apply IH.
Qed.

Lemma bind_follows {X Y} aggregate (m : M (K:=K) (V:=V) X) (g : X → M Y) w :
  follows aggregate w (m w).2 →
  (∀ x w1, follows aggregate w1 (g x w1).2) →
  follows aggregate w ((m ≫= g) w).2.
Proof.
  intros Hm Hg. unfold mbind, M_bind.
  destruct (m w) as [[x|msg|] w1]; [|done..].
  eapply follows_trans; [exact Hm|apply Hg].
Qed.

Lemma mapM_follows {X Y} aggregate (g : X → M (K:=K) (V:=V) Y) xs w :
  (∀ x w1, follows aggregate w1 (g x w1).2) →
  follows aggregate w (mapM g xs w).2.
Proof.
  intros Hg. revert w. induction xs as [|x xs IH]; intros w; [constructor|].
  simpl. apply bind_follows; [apply Hg|]. intros y w1.
  apply bind_follows; [apply IH|]. intros ys w2. constructor.
Qed.

Lemma LoadThunk_follows aggregate key w :
  follows aggregate w (LoadThunk key w).2.
Proof. rewrite <- (interfere_LoadThunk aggregate). apply follows_step, follows_refl. Qed.

Lemma thunk_call_follows aggregate t w :
  follows aggregate w (thunk_call aggregate t w).2.
Proof. rewrite <- interfere_ACall. apply follows_step, follows_refl. Qed.

Lemma schedule_follows aggregate i w : follows aggregate w (schedule i w).2.
Proof. exact (follows_step aggregate w w (AGo i) (follows_refl aggregate w)). Qed.

Lemma yield_follows aggregate w : follows aggregate w (yield aggregate w).2.
Proof.
  unfold yield. destruct (sched w) as [|acts rest]; [constructor|]. simpl.
  eapply follows_trans; [|apply follows_run]. apply follows_sched, follows_refl.
Qed.

Lemma drain_follows aggregate k w : follows aggregate w (drain k w).2.
Proof.
  revert w. induction k as [|k IH]; intros w; [constructor|]. simpl.
  apply bind_follows; [apply schedule_follows|]. intros _ w1. apply IH.
Qed.

Lemma func_call_follows aggregate t w :
  follows aggregate w (func_call aggregate (Some t) w).2.
Proof.
  unfold func_call, await. pose proof (thunk_call_follows aggregate t w) as Ht.
  destruct (thunk_call aggregate t w) as [[r|msg|] w1]; [done|done|].
  apply bind_follows; [apply drain_follows|]. intros _ w2.
  apply thunk_call_follows.
Qed.

Lemma Load_follows aggregate key w : follows aggregate w (Load aggregate key w).2.
Proof.
  unfold Load. apply bind_follows; [apply LoadThunk_follows|]. intros t w1.
  apply bind_follows; [apply yield_follows|]. intros _ w2.
  apply func_call_follows.
Qed.

Lemma attach_follows aggregate ks w :
  follows aggregate w (mapM (λ key, yield aggregate;; LoadThunk key) ks w).2.
Proof.
  apply mapM_follows. intros key w1.
  apply bind_follows; [apply yield_follows|]. intros _ w2.
  apply LoadThunk_follows.
Qed.

Lemma resolve_follows aggregate (ts : list (thunk (K:=K))) w :
  follows aggregate w
    (mapM (λ t, yield aggregate;; func_call aggregate (Some t)) ts w).2.
Proof.
  apply mapM_follows. intros t w1.
  apply bind_follows; [apply yield_follows|]. intros _ w2.
  apply func_call_follows.
Qed.

(** What a function value returns once its batch is done is what [fetch]
    gave for its key. *)
Lemma resolved_fetched aggregate w key b pos r :
  sound w → thunk_ok w (ThunkBatch b pos key) →
  resolved aggregate w (ThunkBatch b pos key) r →
  fetched_for (fetch (loader w)) aggregate (fetched w).*1 key r.
Proof.
  intros [Hwf Hdel Hacc] (B & Hb & Hpos) (B' & Hb' & Hdn & ->).
  rewrite Hb in Hb'. injection Hb' as <-.
  pose proof (Hdel b B Hb Hdn) as Hfetch.
  exists (keys B), pos. split.
  { rewrite (accounted_keys _ Hacc). apply list_elem_of_fmap. exists B. split; [done|].
    apply list_elem_of_filter. split; [done|]. by eapply list_elem_of_lookup_2. }
  split; [by destruct (wf_batches _ Hwf _ _ Hb)|]. split; [done|].
  unfold data_at. by rewrite <- Hfetch.
Qed.

Lemma answers_served aggregate w0 w' key r :
  sound w' → answers aggregate w0 w' key r →
  served aggregate (fetch (loader w')) w0 w' key r.
Proof.
  intros Hs. unfold answers, served.
  destruct (cache_lookup (cache (loader w0)) key) as [it|]; [done|].
  intros (b & pos & B & Hb & Hdn & Hpos & ->).
  apply (resolved_fetched aggregate w' key b pos); [done|by exists B|by exists B].
Qed.

(** With no other goroutine running, the first loop of [LoadAll] and
    [LoadAllThunk] makes no call of [fetch]. *)
Lemma attach_idle aggregate ks w :
  wf w → sched w = [] →
  ∃ ts w', mapM (λ key, yield aggregate;; LoadThunk key) ks w = (Ok ts, w')
           ∧ fetched w' = fetched w ∧ sched w' = [].
Proof.
  revert w. induction ks as [|key ks IH]; intros w Hwf Hsc.
  - by exists [], w.
  - destruct (LoadThunk_advances w key Hwf)
      as (t & w2 & Ht & _ & _ & Hadv & _ & Hsc2 & Hfl2 & _).
    destruct Hadv as [Hwf2 _ _ _ _ _].
    destruct (IH w2 Hwf2) as (ts & w3 & Hts & Hfl3 & Hsc3); [congruence|].
    exists (t :: ts), w3. split; [|split; [congruence|done]].
    eapply mapM_cons_Ok; [|exact Hts].
    by rewrite (bind_Ok _ _ _ _ _ (yield_idle aggregate w Hsc)).
Qed.

(** [Load] returns; what it returns is the cached value, or what [fetch]
    gave for the key. *)
Lemma Load_served aggregate w key :
  sound w →
  ∃ r w',
    Load aggregate key w = (Ok r, w') ∧ follows aggregate w w'
    ∧ match cache_lookup (cache (loader w)) key with
      | Some it => r = (it, None)
      | None => fetched_for (fetch (loader w)) aggregate (fetched w').*1 key r
      end.
Proof.
  intros Hs. pose proof (sound_wf _ Hs) as Hwf.
  destruct (LoadThunk_kind w key Hwf) as (t & w1 & Ht & Hkind).
  pose proof (LoadThunk_follows aggregate key w) as F1. rewrite Ht in F1.
  destruct (follows_wf _ _ _ F1 Hwf) as [Hwf1 _].
  destruct (yield_wf aggregate w1 Hwf1) as (w2 & Hy & Hwf2 & Hext2).
  pose proof (yield_follows aggregate w1) as F2. rewrite Hy in F2.
  assert (thunk_ok w2 t) as Hok.
  { eapply thunk_ok_extends; [exact Hext2|].
    destruct (cache_lookup (cache (loader w)) key).
    - by destruct Hkind as [-> _].
    - destruct Hkind as (b & pos & B & -> & Hb & Hpos & _). by exists B. }
  destruct (func_call_returns aggregate w2 t Hwf2 Hok)
    as (r & w3 & Hr & Hwf3 & Hext3 & Hres).
  pose proof (func_call_follows aggregate t w2) as F3. rewrite Hr in F3.
  assert (follows aggregate w w3) as F
    by (eapply follows_trans; [exact F1|]; by eapply follows_trans).
  exists r, w3. split.
  { unfold Load. rewrite (bind_Ok _ _ _ _ _ Ht). by rewrite (bind_Ok _ _ _ _ _ Hy). }
  split; [done|].
  destruct (cache_lookup (cache (loader w)) key) as [it|].
  - destruct Hkind as [-> _]. exact Hres.
  - destruct Hkind as (b & pos & B & -> & _).
    pose proof (sound_follows _ _ _ F Hs) as Hs3.
    rewrite <- (follows_fetch _ _ _ F Hwf).
    eapply resolved_fetched; [done| |done].
    eapply thunk_ok_extends; [exact Hext3|done].
Qed.


Lemma LoadAllThunk_eq aggregate ks w :
  LoadAllThunk aggregate ks w
  = (ts ← mapM (λ key, yield aggregate;; LoadThunk key) ks;
     mret (ks, Some <$> ts)) w.
Proof.
  unfold LoadAllThunk. unfold mbind at 1, M_bind at 1.
  change (LoadAll_attach aggregate 0 ks (replicate (length ks) None) w)
    with (LoadAll_attach aggregate (length (@nil (option (thunk (K:=K))))) ks
            ([] ++ replicate (length ks) None) w).
  rewrite (LoadAll_attach_mapM aggregate ks [] w).
  unfold mbind, M_bind, mret, M_ret. simpl.
  by destruct (mapM _ ks w) as [[ts|msg|] w1].
Qed.

Lemma LoadAllThunk_call_eq aggregate ks (ts : list (thunk (K:=K))) w :
  length ts = length ks →
  LoadAllThunk_call aggregate (ks, Some <$> ts) w
  = (rs ← mapM (λ t, yield aggregate;; func_call aggregate (Some t)) ts;
     mret (rs.*1, rs.*2)) w.
Proof.
  intros Hlen. unfold LoadAllThunk_call. cbn [fst snd]. rewrite <- Hlen.
  apply (LoadAll_resolve_mapM aggregate ts [] [] w eq_refl).
Qed.

(** X8. From every world the program reaches, [Load] returns.  For a
    key that is cached it returns the cached value and a nil error; for
    any other key it returns the value at the key's position in the
    output of a call of [fetch] that has been made by then, on distinct
    keys that include the key, and the aggregate of the errors of that
    call. *)
Theorem X8_Load_returns_what_fetch_gave aggregate f d n w key :
  int_range n → reachable aggregate (NewDataLoader f d n) w →
  ∃ r w',
    Load aggregate key w = (Ok r, w') ∧ follows aggregate w w'
    ∧ match cache_lookup (cache (loader w)) key with
      | Some it => r = (it, None)
      | None => fetched_for f aggregate (fetched w').*1 key r
      end.
Proof.
  intros Hn Hreach.
  destruct (reachable_sound aggregate f d n w Hn Hreach) as (Hs & _ & Hf).
  rewrite <- Hf. by apply Load_served.
Qed.

(** X9. From every world the program reaches, [LoadAll] returns two
    slices of the length of its input, and the pair at each index is the
    result for the key at that index: when the key was cached at the
    moment the first loop called [LoadThunk] for it, the value the cache
    held then, with a nil error; otherwise the value at the key's
    position in the output of a recorded call of [fetch], with the
    aggregate of that call's errors. *)
Theorem X9_LoadAll_returns_what_fetch_gave aggregate f d n w ks :
  int_range n → reachable aggregate (NewDataLoader f d n) w →
  ∃ users errs w',
    LoadAll aggregate ks w = (Ok (users, errs), w')
    ∧ length users = length ks ∧ length errs = length ks
    ∧ follows aggregate w w'
    ∧ Forall2 (λ kw r, served aggregate f kw.2 w' kw.1 r)
        (zip ks (attach_worlds aggregate ks w)) (zip users errs).
Proof.
  intros Hn Hreach.
  destruct (reachable_sound aggregate f d n w Hn Hreach) as (Hs & _ & Hf).
  pose proof (sound_wf _ Hs) as Hwf.
  destruct (LoadAll_returns aggregate ks w Hwf)
    as (ts & w1 & users & errs & w' & Hts & Hrs & Hall & Hlu & Hle & _
        & Hfors & Hoks & Hress).
  pose proof (attach_follows aggregate ks w) as F1. rewrite Hts in F1.
  cbn [snd] in F1.
  pose proof (resolve_follows aggregate ts w1) as F2. rewrite Hrs in F2.
  cbn [snd] in F2.
  assert (follows aggregate w w') as F by (by eapply follows_trans).
  pose proof (sound_follows _ _ _ F Hs) as Hs'.
  exists users, errs, w'. split; [done|]. split; [done|]. split; [done|].
  split; [done|].
  eapply Forall2_impl; [by eapply Forall2_answers|].
  intros kw r Hans. rewrite <- Hf, <- (follows_fetch _ _ _ F Hwf).
  by apply answers_served.
Qed.

(** X10. From every world the program reaches, [LoadAllThunk] returns
    without waiting for any batch, and when no other goroutine runs
    meanwhile, without a call of [fetch].  The function value it returns
    can be called at any later point: the call returns two slices of the
    length of the input, and the pair at each index is the result for the
    key at that index: the value the cache held for the key at the moment
    [LoadAllThunk] called [LoadThunk] for it, with a nil error, or, when
    the key was not cached then, the value at the key's position in the
    output of a recorded call of [fetch], with the aggregate of that
    call's errors. *)
Theorem X10_LoadAllThunk_defers aggregate f d n w ks :
  int_range n → reachable aggregate (NewDataLoader f d n) w →
  ∃ fv w1,
    LoadAllThunk aggregate ks w = (Ok fv, w1)
    ∧ (sched w = [] → fetched w1 = fetched w)
    ∧ ∀ w2, follows aggregate w1 w2 →
        ∃ users errs w3,
          LoadAllThunk_call aggregate fv w2 = (Ok (users, errs), w3)
          ∧ length users = length ks ∧ length errs = length ks
          ∧ Forall2 (λ kw r, served aggregate f kw.2 w3 kw.1 r)
              (zip ks (attach_worlds aggregate ks w)) (zip users errs).
Proof.
  intros Hn Hreach.
  destruct (reachable_sound aggregate f d n w Hn Hreach) as (Hs & _ & Hf).
  pose proof (sound_wf _ Hs) as Hwf.
  destruct (attach_returns aggregate ks w Hwf)
    as (ts & w1 & Hts & Hwf1 & Hoks & Hfors & _).
  pose proof (attach_follows aggregate ks w) as F1. rewrite Hts in F1.
  cbn [snd] in F1.
  exists (ks, Some <$> ts), w1. split.
  { rewrite LoadAllThunk_eq. by rewrite (bind_Ok _ _ _ _ _ Hts). }
  split.
  { intros Hsc.
    destruct (attach_idle aggregate ks w Hwf Hsc) as (ts' & w1' & Hts' & Hfl & _).
    rewrite Hts in Hts'. by injection Hts' as _ <-. }
  intros w2 F2.
  assert (follows aggregate w w2) as F by (by eapply follows_trans).
  destruct (follows_wf _ _ _ F2 Hwf1) as [Hwf2 Hext2].
  destruct (resolve_returns aggregate ts w2 Hwf2)
    as (rs & w3 & Hrs & Hwf3 & Hext3 & Hress).
  { eapply Forall_impl; [exact Hoks|]. intros t. by apply thunk_ok_extends. }
  pose proof (resolve_follows aggregate ts w2) as F3. rewrite Hrs in F3.
  cbn [snd] in F3.
  assert (follows aggregate w w3) as F' by (by eapply follows_trans).
  pose proof (sound_follows _ _ _ F' Hs) as Hs3.
  assert (length ts = length ks) as Hlen
    by (by rewrite (mapM_length _ _ _ _ _ Hts)).
  exists (rs.*1), (rs.*2), w3. split.
  { rewrite LoadAllThunk_call_eq by done.
    by rewrite (bind_Ok _ _ _ _ _ Hrs). }
  rewrite !length_fmap, (mapM_length _ _ _ _ _ Hrs).
  split; [done|]. split; [done|]. rewrite zip_fst_snd.
  eapply Forall2_impl.
  { eapply Forall2_answers; [exact Hfors| |exact Hress].
    eapply Forall_impl; [exact Hoks|]. intros t Hok.
    eapply thunk_ok_extends; [exact Hext3|]. by eapply thunk_ok_extends. }
  intros kw r Hans. rewrite <- Hf, <- (follows_fetch _ _ _ F' Hwf).
  by apply answers_served.
Qed.

(** X11. With no other goroutine running meanwhile, [Clear] followed by
    [Load] does not answer from the cache: whatever the cache held for
    the key, the result is the value at the key's position in the output
    of a call of [fetch], with the aggregate of that call's errors. *)
Theorem X11_Clear_then_Load_asks_fetch aggregate f d n w key :
  int_range n → reachable aggregate (NewDataLoader f d n) w →
  sched w = [] →
  ∃ r w',
    (Clear key ≫= λ _, yield aggregate ≫= λ _, Load aggregate key) w
    = (Ok r, w')
    ∧ fetched_for f aggregate (fetched w').*1 key r.
Proof.
  intros Hn Hreach Hsc.
  destruct (reachable_sound aggregate f d n w Hn Hreach) as (Hs & _ & Hf).
  pose proof (sound_step aggregate w (AClear key) Hs) as Hs1.
  pose proof (wf_mu _ (sound_wf _ Hs)) as Hmu.
  destruct w as [[f' wt n' c bt m] bs h gs fl sc]. fields. subst m f' sc.
  change (interfere aggregate (World (Loader f wt n' c bt false) bs h gs fl [])
            (AClear key))
    with (World (Loader f wt n' (delete key <$> c) bt false) bs h gs fl []) in Hs1.
  destruct (Load_served aggregate _ key Hs1) as (r & w' & Hr & _ & Hserved).
  fields. rewrite cache_lookup_delete, decide_True in Hserved by done.
  exists r, w'. split; [|done].
  rewrite (bind_Ok _ _ _ _ _ (Clear_eq f wt n' c bt bs h gs fl [] key)).
  by erewrite bind_Ok by (by apply yield_idle).
Qed.

End engine_facts.

(** * Further properties of the aggregates *)

Section aggregate_facts.

Lemma omap_id_nil (es : list error_value) :
  omap id es = [] ↔ Forall (λ e, e = None) es.
Proof.
  induction es as [|[e|] es IH]; simpl.
  - split; [constructor|done].
  - split; [done|]. intros Hall. apply Forall_cons in Hall as [Hnil _]. done.
  - rewrite IH. split; [by constructor|]. intros Hall.
    by apply Forall_cons in Hall as [_ Hall].
Qed.

(** The loop of the generated function value, on any errors. *)
Lemma appendErrors_fold formatErrors (batch_error : list error_value) :
  appendErrors formatErrors batch_error
  = match omap id batch_error with
    | [] => None
    | e :: es =>
        match foldl multierror_Append e es with
        | multierror es' _ => Some (multierror es' formatErrors)
        | a => Some a
        end
    end.
Proof.
  unfold appendErrors.
  set (step := λ (errs : error_value) (err : error_value),
         match err with
         | None => errs
         | Some e =>
             match errs with
             | None => Some e
             | Some acc => Some (multierror_Append acc e)
             end
         end).
  assert (∀ es acc,
            foldl step acc es
            = match acc, omap id es with
              | None, [] => None
              | None, e :: es' => Some (foldl multierror_Append e es')
              | Some a, es' => Some (foldl multierror_Append a es')
              end) as Hfold.
  { intros es. induction es as [|[e|] es IH]; intros acc; simpl.
    - by destruct acc.
    - rewrite IH. by destruct acc.
    - rewrite IH. by destruct acc. }
  rewrite Hfold. destruct (omap id batch_error) as [|e es]; [done|].
  by destruct (foldl multierror_Append e es).
Qed.

(** X12. With a formatter in the configuration, [NewUserLoader] keeps
    it: the aggregate of a batch with several plain errors renders as
    the formatter's output on the messages of the non-nil errors, in
    their order; a single error is returned as it is, and the formatter
    is not consulted for it. *)
Theorem X12_configured_format_is_used range_map sort_Slice
    (g : list string → string) (batch_error : list error_value) :
  Forall plain (omap id batch_error) →
  let aggregate :=
    appendErrors (NewUserLoader_formatErrors range_map sort_Slice (Some g))
      batch_error in
  match omap id batch_error with
  | [] => aggregate = None
  | [e] => aggregate = Some e
  | es =>
      ∃ a, aggregate = Some a ∧ a = multierror es (Some g)
           ∧ Error a = g (Error <$> es)
  end.
Proof.
  intros Hplain. simpl. rewrite (appendErrors_plain _ _ Hplain).
  destruct (omap id batch_error) as [|e0 [|e1 es]]; [done|done|].
  by eexists.
Qed.

(** X13. Both loops over [batch.error] give a nil aggregate exactly when
    every entry is nil: one non-nil error at any index makes the batch
    fail for all its keys, in the generic loader and in the generated
    one. *)
Theorem X13_nil_aggregate_iff_no_error formatErrors (batch_error : list error_value) :
  (joinErrors batch_error = None ↔ Forall (λ e, e = None) batch_error)
  ∧ (appendErrors formatErrors batch_error = None
     ↔ Forall (λ e, e = None) batch_error).
Proof.
  rewrite <- omap_id_nil. split.
  - pose proof (joinErrors_spec batch_error) as Hspec.
    destruct (joinErrors batch_error) as [errs|]; [|done].
    destruct Hspec as [Hne _]. split; [done|]. intros Hnil. by rewrite Hnil in Hne.
  - rewrite appendErrors_fold.
    destruct (omap id batch_error) as [|e es]; [done|].
    by destruct (foldl multierror_Append e es).
Qed.

(** X14. When the only non-nil error of a batch is a [*multierror.Error]
    that [fetch] built, the generated function value returns that error
    with its format replaced by the loader's. *)
Theorem X14_format_of_a_fetched_multierror_is_replaced formatErrors
    (batch_error : list error_value) es fmt :
  omap id batch_error = [multierror es fmt] →
  appendErrors formatErrors batch_error = Some (multierror es formatErrors).
Proof. intros Hes. by rewrite appendErrors_fold, Hes. Qed.

End aggregate_facts.

(** * Further properties of a loader on its own *)

Section quiet_facts.
Context {K : Type} `{Countable K} {V : Type}.
Implicit Types (w : world (K:=K) (V:=V)) (B : genericLoaderBatch (K:=K)).
Implicit Types (key : K) (ks : list K) (h : gmap loc V) (c : option (gmap K ptr)).
Implicit Types (f : list K → list ptr * list error_value).
Implicit Types (aggregate : list error_value → error_value).

(** A call of a function value whose batch is done, on a world given by
    its fields: only the cache can change. *)
Lemma thunk_call_settled aggregate f wt n c bt bs h gs fl sc b B pos key :
  bs !! b = Some B → done B = true →
  ∃ c',
    thunk_call aggregate (ThunkBatch b pos key)
      (World (Loader f wt n c bt false) bs h gs fl sc)
    = (Ok (data_at B pos, aggregate (dataloaden.error B)),
       World (Loader f wt n c' bt false) bs h gs fl sc)
    ∧ c' = if aggregate (dataloaden.error B) is None
           then Some (<[key := data_at B pos]> (default ∅ c)) else c.
Proof.
  intros Hb Hdn. destruct (aggregate (dataloaden.error B)) as [errs|] eqn:Ha.
  - exists c. split; [|done]. by apply thunk_call_error.
  - eexists. split; [|done]. by apply thunk_call_success.
Qed.

(** X15. The first [Load] of a new loader, with no other goroutine
    running: [fetch] is called once, with the key alone; [Load] returns
    the first value of its output, or nil when there is none, with the
    aggregate of its errors; the value is cached exactly when the
    aggregate is nil.  [fetch] runs under the mutex unless the batch
    size is reached by the first key. *)
Theorem X15_first_Load aggregate f d n h key :
  ∃ w',
    Load aggregate key (start (NewDataLoader f d n) h [])
    = (Ok (default None ((f [key]).1 !! 0%nat), aggregate (f [key]).2), w')
    ∧ fetched w' = [([key], negb (caps n 0 false))]
    ∧ goroutines w' = [] ∧ heap w' = h
    ∧ cache (loader w')
      = if aggregate (f [key]).2 is None
        then Some {[ key := default None ((f [key]).1 !! 0%nat) ]} else None.
Proof.
  unfold start, NewDataLoader, Load.
  erewrite bind_Ok; [|by apply LoadThunk_fresh].
  erewrite bind_Ok; [|by apply yield_idle].
  unfold func_call, await. cbn [length app].
  destruct (caps n 0 false) eqn:Hcaps; cbn [app negb].
  - erewrite (thunk_call_blocked _ _ _ (Batch [key] [] [] true false))
      by reflexivity.
    cbn [goroutines length drain].
    erewrite bind_Ok.
    2:{ erewrite bind_Ok.
        2:{ rewrite (schedule_Some _ _ (GoStartTimer 0)) by reflexivity.
            cbv [set_goroutines]. fields. cbn [run_goroutine delete list_delete].
            by apply (startTimer_closing _ _ _ _ _ _ _ _ _ _ _
                        (Batch [key] [] [] true false)). }
        erewrite bind_Ok.
        2:{ rewrite (schedule_Some _ _ (GoEnd 0)) by reflexivity.
            cbv [set_goroutines]. fields. cbn [run_goroutine delete list_delete].
            by apply end_open with (dt := []) (er := []). }
        reflexivity. }
    edestruct (thunk_call_settled aggregate f d n None None
                 (<[0%nat := Batch [key] (f [key]).1 (f [key]).2 true true]>
                    [Batch [key] [] [] true false])
                 h [] [([key], false)] [] 0%nat
                 (Batch [key] (f [key]).1 (f [key]).2 true true) 0%nat key)
      as (c' & Heq & Hc'); [reflexivity|reflexivity|].
    rewrite Heq. eexists. split; [reflexivity|]. fields.
    repeat (split; [done|]). subst c'. unfold data_at. fields.
    destruct (aggregate (f [key]).2); [done|]. cbn [default from_option id].
    by rewrite insert_empty.
  - erewrite (thunk_call_blocked _ _ _ (Batch [key] [] [] false false))
      by reflexivity.
    cbn [goroutines length drain].
    erewrite bind_Ok.
    2:{ erewrite bind_Ok.
        2:{ rewrite (schedule_Some _ _ (GoStartTimer 0)) by reflexivity.
            cbv [set_goroutines]. fields. cbn [run_goroutine delete list_delete].
            by apply startTimer_open with (dt := []) (er := []). }
        reflexivity. }
    edestruct (thunk_call_settled aggregate f d n None None
                 (<[0%nat := Batch [key] (f [key]).1 (f [key]).2 false true]>
                    [Batch [key] [] [] false false])
                 h [] [([key], true)] [] 0%nat
                 (Batch [key] (f [key]).1 (f [key]).2 false true) 0%nat key)
      as (c' & Heq & Hc'); [reflexivity|reflexivity|].
    rewrite Heq. eexists. split; [reflexivity|]. fields.
    repeat (split; [done|]). subst c'. unfold data_at. fields.
    destruct (aggregate (f [key]).2); [done|]. cbn [default from_option id].
    by rewrite insert_empty.
Qed.







End quiet_facts.

(** * Further properties of every world the program reaches *)

Section reach_facts.
Context {K : Type} `{Countable K} {V : Type}.
Implicit Types (w : world (K:=K) (V:=V)) (B : genericLoaderBatch (K:=K)).
Implicit Types (key : K) (ks : list K) (h : gmap loc V) (c : option (gmap K ptr)).
Implicit Types (f : list K → list ptr * list error_value).
Implicit Types (aggregate : list error_value → error_value).

Lemma reachable_invariant aggregate f d n (P : world (K:=K) (V:=V) → Prop) :
  (∀ h sc, P (start (NewDataLoader f d n) h sc)) →
  (∀ w a, reachable aggregate (NewDataLoader f d n) w → P w →
          P (interfere aggregate w a)) →
  ∀ w, reachable aggregate (NewDataLoader f d n) w → P w.
Proof.
  intros Hstart Hstep w (h & sc & acts & ->).
  induction acts as [|a acts IH] using rev_ind; [apply Hstart|].
  rewrite run_app. simpl. apply Hstep; [|done]. by exists h, sc, acts.
Qed.

(** X17. In every world the program reaches, each batch that is done
    has its call of [fetch] on record, and each call on record is that
    of a batch that is done; the call was made with the loader's mutex
    held exactly when the batch was not closed by its size, that is when
    it was ended by the timer. *)
Theorem X17_mutex_is_held_on_the_timer_path aggregate f d n w :
  int_range n → reachable aggregate (NewDataLoader f d n) w →
  (∀ b B, batches w !! b = Some B → done B = true →
     (keys B, negb (closing B)) ∈ fetched w)
  ∧ (∀ ks held, (ks, held) ∈ fetched w →
       ∃ b B, batches w !! b = Some B ∧ done B = true ∧ keys B = ks
              ∧ closing B = negb held)
  ∧ length (fetched w) = length (filter (λ B, done B = true) (batches w)).
Proof.
  intros Hn Hreach.
  destruct (reachable_sound aggregate f d n w Hn Hreach) as ([_ _ Hacc] & _).
  unfold accounted in Hacc. split; [|split].
  - intros b B Hb Hdn. rewrite Hacc. apply list_elem_of_fmap. exists B.
    split; [done|]. apply list_elem_of_filter. split; [done|].
    by eapply list_elem_of_lookup_2.
  - intros ks held Hin. rewrite Hacc in Hin.
    apply list_elem_of_fmap in Hin as (B & [= -> ->] & HB).
    apply list_elem_of_filter in HB as [Hdn HB].
    apply list_elem_of_lookup_1 in HB as [b Hb]. exists b, B.
    by rewrite negb_involutive.
  - by rewrite Hacc, length_fmap.
Qed.

Lemma caps_first n :
  int_range n → n ≠ 0 → n ≤ 1 → - 2 ^ 63 < n → caps n 0 false = true.
Proof.
  intros Hn H0 H1 Hmin. unfold caps. rewrite andb_true_r.
  apply bool_decide_eq_true_2. split; [done|].
  unfold int_sub, int_wrap. rewrite Z.mod_small by (unfold int_range in Hn; lia).
  lia.
Qed.

(** X18. With a batch size of one, or a negative one other than the
    least [int], no two keys ever share a batch: in every world the
    program reaches there is no current batch, every batch has exactly
    one key and was closed by its size, and every call of [fetch] was
    made with a single key and without the mutex. *)
Theorem X18_batch_size_below_two_never_batches aggregate f d n w :
  int_range n → n ≠ 0 → n ≤ 1 → - 2 ^ 63 < n →
  reachable aggregate (NewDataLoader f d n) w →
  batch (loader w) = None
  ∧ (∀ b B, batches w !! b = Some B → ∃ key, keys B = [key] ∧ closing B = true)
  ∧ (∀ call, call ∈ fetched w → ∃ key, call = ([key], false)).
Proof.
  intros Hn H0 H1 Hmin Hreach.
  pose proof (caps_first n Hn H0 H1 Hmin) as Hc.
  assert (batch (loader w) = None
          ∧ ∀ b B, batches w !! b = Some B →
              ∃ key, keys B = [key] ∧ closing B = true) as [Hcur Hone].
  { revert w Hreach. apply reachable_invariant.
    - intros h sc. split; [done|]. intros b B Hb. simpl in Hb.
      by rewrite lookup_nil in Hb.
    - intros w a Hreach [Hcur Hone].
      destruct (reachable_wf aggregate f d n w Hn Hreach) as (Hwf & Hmax & _).
      pose proof (interfere_shape aggregate w a Hwf) as Hshape. simpl in Hshape.
      rewrite Hmax, Hc in Hshape.
      destruct Hshape
        as [(_ & -> & Hb)
           |[(key & b & B & _ & Hb & _)
            |[(key & _ & _ & _ & -> & ->)
             |(i & b & B & _ & Hb & Hdn & -> & _ & Hcur')]]].
      + split; [|done]. destruct Hb as [->| ->]; done.
      + congruence.
      + split; [done|]. intros b B HB.
        apply lookup_app_Some in HB as [HB|[_ HB]]; [by eapply Hone|].
        apply list_lookup_singleton_Some in HB as [_ <-]. by exists key.
      + split; [destruct Hcur' as [->| ->]; done|].
        intros b' B'. destruct (decide (b' = b)) as [->|Hne].
        * rewrite list_lookup_insert_eq by (by eapply lookup_lt_Some).
          intros [= <-]. simpl. by eapply Hone.
        * rewrite list_lookup_insert_ne by done. apply Hone. }
  split; [done|]. split; [done|]. intros [ks held] Hin.
  destruct (reachable_sound aggregate f d n w Hn Hreach) as ([_ _ Hacc] & _).
  unfold accounted in Hacc. rewrite Hacc in Hin.
  apply list_elem_of_fmap in Hin as (B & [= -> ->] & HB).
  apply list_elem_of_filter in HB as [_ HB].
  apply list_elem_of_lookup_1 in HB as [b Hb].
  destruct (Hone b B Hb) as (key & -> & ->). by exists key.
Qed.

(** X19. In every world the program reaches, a method, a function
    value that [LoadThunk] returned, or a started goroutine returns,
    with two exceptions: [Prime] with a nil value on a key that is not
    cached panics, and a function value called before its batch is done
    waits; both leave the state as it was. *)
Theorem X19_what_panics_and_what_waits aggregate f d n w a :
  int_range n → reachable aggregate (NewDataLoader f d n) w →
  (∀ t, a = ACall t → thunk_ok w t) →
  (∀ key p, a = APrime key (Some p) → is_Some (heap w !! p)) →
  match exec aggregate a w with
  | (Ok _, w') => mu (loader w') = false
  | (Panic _, w') =>
      w' = w ∧ ∃ key, a = APrime key None
                      ∧ cache_lookup (cache (loader w)) key = None
  | (Blocked, w') =>
      w' = w ∧ ∃ b pos key B, a = ACall (ThunkBatch b pos key)
                              ∧ batches w !! b = Some B ∧ done B = false
  end.
Proof.
  intros Hn Hreach Hcall Hprime.
  destruct (reachable_wf aggregate f d n w Hn Hreach) as (Hwf & _).
  pose proof (wf_mu _ (adv_wf _ _ _ _ (interfere_advances aggregate w a Hwf)))
    as Hmu'.
  unfold interfere in Hmu'.
  destruct a as [key|t|key value|key|p v|i]; simpl in *.
  - destruct (LoadThunk_advances w key Hwf) as (t & w' & Heq & _).
    rewrite (bind_Ok _ _ _ _ _ Heq) in *. done.
  - specialize (Hcall t eq_refl). destruct t as [it|b pos key]; [done|].
    destruct Hcall as (B & Hb & _). destruct (done B) eqn:Hdn.
    + destruct (thunk_call_done aggregate w b B pos key Hwf Hb Hdn)
        as (w' & Heq & _).
      rewrite (bind_Ok _ _ _ _ _ Heq) in *. done.
    + unfold mbind, M_bind.
      rewrite (thunk_call_blocked aggregate w b B pos key Hb Hdn).
      split; [done|]. by exists b, pos, key, B.
  - pose proof (wf_mu _ Hwf) as Hmu.
    destruct w as [[f' wt n' c bt m] bs h gs fl sc]. fields. subst m.
    unfold mbind, M_bind in *.
    destruct (cache_lookup c key) as [it|] eqn:Hc.
    { by erewrite Prime_present in * by done. }
    destruct value as [p|].
    + destruct (Hprime key p eq_refl) as [v Hp].
      by erewrite Prime_copy in * by done.
    + erewrite Prime_nil by done. split; [done|]. by exists key.
  - pose proof (wf_mu _ Hwf) as Hmu.
    destruct w as [[f' wt n' c bt m] bs h gs fl sc]. fields. subst m.
    by rewrite Clear_eq.
  - exact (wf_mu _ Hwf).
  - destruct (schedule_advances w i Hwf) as (w' & Heq & _).
    rewrite Heq in *. done.
Qed.

Lemma thunk_call_heap aggregate w (t : thunk (K:=K)) :
  mu (loader w) = false → heap (thunk_call aggregate t w).2 = heap w.
Proof.
  intros Hmu. destruct t as [it|b pos key]; [done|].
  destruct (batches w !! b) as [B|] eqn:Hb.
  2:{ by destruct (thunk_call_invalid aggregate w b pos key Hb) as [msg ->]. }
  destruct (done B) eqn:Hdn.
  2:{ by rewrite (thunk_call_blocked aggregate w b B pos key Hb Hdn). }
  destruct (aggregate (dataloaden.error B)) as [errs|] eqn:Ha.
  { by rewrite (thunk_call_error aggregate w b B pos key errs Hb Hdn Ha). }
  destruct w as [[f wt n c bt m] bs h gs fl sc]. fields. subst m.
  by rewrite (thunk_call_success aggregate _ _ _ _ _ _ _ _ _ _ _ _ _ key Hb Hdn Ha).
Qed.

(** X20. The loader never writes to a value and never frees one: in
    every world the program reaches, whatever a method, a function value
    or a started goroutine does, every address of the heap holds the
    value it held before.  Only a caller's own write through a pointer
    changes a value. *)
Theorem X20_loader_never_writes_a_value aggregate f d n w a (p : loc) (v : V) :
  int_range n → reachable aggregate (NewDataLoader f d n) w →
  (∀ p' v', a ≠ AStore p' v') →
  heap w !! p = Some v → heap (interfere aggregate w a) !! p = Some v.
Proof.
  intros Hn Hreach Hstore Hp.
  destruct (reachable_wf aggregate f d n w Hn Hreach) as (Hwf & _).
  pose proof (wf_mu _ Hwf) as Hmu.
  destruct a as [key|t|key value|key|p' v'|i].
  - rewrite interfere_LoadThunk.
    destruct (LoadThunk_advances w key Hwf)
      as (t & w' & Heq & _ & _ & _ & Hh & _).
    rewrite Heq. cbn [snd]. by rewrite Hh.
  - by rewrite interfere_ACall, thunk_call_heap.
  - rewrite interfere_APrime.
    destruct w as [[f' wt n' c bt m] bs h gs fl sc]. fields. subst m.
    destruct (cache_lookup c key) as [it|] eqn:Hc.
    { by erewrite Prime_present by done. }
    destruct value as [q|]; [|by erewrite Prime_nil by done].
    destruct (h !! q) as [u|] eqn:Hq; [|by erewrite Prime_unmapped by done].
    erewrite Prime_copy by done. cbn [snd]. fields.
    rewrite lookup_insert_ne; [done|].
    intros <-. pose proof (is_fresh (dom h)) as Hfresh.
    apply not_elem_of_dom in Hfresh. congruence.
  - destruct w as [[f' wt n' c bt m] bs h gs fl sc]. fields. subst m.
    unfold interfere, exec. by rewrite Clear_eq.
  - by destruct (Hstore p' v').
  - unfold interfere, exec.
    destruct (schedule_advances w i Hwf) as (w' & Heq & _ & _ & _ & Hh & _).
    rewrite Heq. cbn [snd]. by rewrite Hh.
Qed.

End reach_facts.

(** * The further properties on the sample runs *)

Lemma int_range_minus_1 : int_range (-1).
Proof. unfold int_range. lia. Defined.

Lemma X1_sample :
  ∃ w',
    Clear 1%nat primed_run = (Ok (), w')
    ∧ cache_lookup (cache (loader w')) 1%nat = None
    ∧ heap w' = heap primed_run.
Proof.
  destruct (X1_Clear_removes_only_the_key primed_run 1%nat)
    as (w' & H1 & H2 & _ & _ & H3 & _); [reflexivity|].
  exists w'. split; [exact H1|]. split; [exact H2|exact H3].
Defined.

Lemma X2_sample :
  ∃ p w1,
    Prime 1%nat (Some 7%positive) (world_of fetch_values 10) = (Ok true, w1)
    ∧ p ≠ 7%positive ∧ heap w1 !! p = Some "Primed"%string
    ∧ Load joinErrors 1%nat w1 = (Ok (Some p, None), w1).
Proof.
  destruct (X2_Prime_then_Load joinErrors (world_of fetch_values 10) 1%nat
              7%positive "Primed"%string)
    as (p & w1 & H1 & H2 & H3 & _ & H4); [reflexivity..|].
  exists p, w1. split; [exact H1|]. split; [exact H2|]. split; [exact H3|].
  apply H4. reflexivity.
Defined.

Lemma X3_sample :
  ∃ p w',
    (Clear 1%nat ≫= λ _, yield joinErrors ≫= λ _, Prime 1%nat (Some 7%positive))
      primed_run
    = (Ok true, w')
    ∧ cache_lookup (cache (loader w')) 1%nat = Some (Some p)
    ∧ heap w' !! p = Some "Primed"%string.
Proof.
  destruct (X3_Clear_then_Prime_replaces joinErrors primed_run 1%nat 7%positive
              "Primed"%string)
    as (p & w' & H1 & H2 & H3 & _); [reflexivity..|].
  exists p, w'. split; [exact H1|]. split; [exact H2|exact H3].
Defined.

Lemma X4_sample :
  ∃ w',
    thunk_call joinErrors (ThunkBatch 0 0 0%nat) timeout_run
    = (Ok (Some 1%positive, None), w')
    ∧ cache_lookup (cache (loader w')) 0%nat = Some (Some 1%positive)
    ∧ LoadThunk 0%nat w' = (Ok (ThunkCached (Some 1%positive)), w').
Proof.
  destruct (X4_resolution_writes_back joinErrors timeout_run 0
              (Batch [0%nat] [Some 1%positive] [None] false true) 0 0%nat)
    as (w' & H1 & H2 & _ & H3 & _); [reflexivity..|].
  exists w'. split; [exact H1|]. split; [exact H2|exact H3].
Defined.

Lemma X5_sample :
  thunk_call joinErrors (ThunkBatch 0 0 0%nat)
    (thunk_call joinErrors (ThunkBatch 0 0 0%nat) timeout_run).2
  = thunk_call joinErrors (ThunkBatch 0 0 0%nat) timeout_run.
Proof.
  apply (X5_function_value_is_idempotent joinErrors timeout_run
           (ThunkBatch 0 0 0%nat)).
  reflexivity.
Defined.

Lemma X6_sample :
  int_range 2
  ∧ (fetched capacity_run).*1
    ≡ₚ keys <$> filter (λ B, done B = true) (batches capacity_run).
Proof.
  split; [exact int_range_2|].
  destruct (X6_one_fetch_per_batch joinErrors fetch_values 1000000 2
              capacity_run int_range_2) as [Hfetched _]; [|exact Hfetched].
  exists heap0, [], [ALoadThunk 0%nat; ALoadThunk 1%nat; AGo 1%nat].
  reflexivity.
Defined.

Lemma X7_sample :
  int_range 2
  ∧ ∃ w',
      run_goroutine (GoStartTimer 0) (set_goroutines (delete 0%nat) open_run)
      = (Ok (), w')
      ∧ goroutines w' = delete 0%nat (goroutines open_run).
Proof.
  split; [exact int_range_2|].
  apply (X7_goroutines_do_not_panic joinErrors fetch_values 1000000 2 open_run
           0 (GoStartTimer 0) int_range_2).
  - exists heap0, [], [ALoadThunk 0%nat]. reflexivity.
  - reflexivity.
Defined.

Lemma X8_sample :
  int_range 10
  ∧ ∃ r w',
      Load joinErrors 0%nat (world_of fetch_values 10) = (Ok r, w')
      ∧ fetched_for fetch_values joinErrors (fetched w').*1 0%nat r.
Proof.
  split; [exact int_range_10|].
  destruct (X8_Load_returns_what_fetch_gave joinErrors fetch_values 1000000 10
              (world_of fetch_values 10) 0%nat int_range_10)
    as (r & w' & H1 & _ & H2).
  { exists heap0, [], []. reflexivity. }
  exists r, w'. split; [exact H1|exact H2].
Defined.

Lemma X9_sample :
  int_range 10
  ∧ ∃ users errs w',
      LoadAll joinErrors [0; 1; 2]%nat (world_of fetch_values 10)
      = (Ok (users, errs), w')
      ∧ length users = 3%nat ∧ length errs = 3%nat
      ∧ Forall2 (λ kw r, served joinErrors fetch_values kw.2 w' kw.1 r)
          (zip [0; 1; 2]%nat
             (attach_worlds joinErrors [0; 1; 2]%nat (world_of fetch_values 10)))
          (zip users errs).
Proof.
  split; [exact int_range_10|].
  destruct (X9_LoadAll_returns_what_fetch_gave joinErrors fetch_values 1000000
              10 (world_of fetch_values 10) [0; 1; 2]%nat int_range_10)
    as (users & errs & w' & H1 & H2 & H3 & _ & H4).
  { exists heap0, [], []. reflexivity. }
  exists users, errs, w'. split; [exact H1|]. split; [exact H2|].
  split; [exact H3|exact H4].
Defined.

Lemma X10_sample :
  int_range 10
  ∧ ∃ fv w1,
      LoadAllThunk joinErrors [0; 1]%nat (world_of fetch_values 10) = (Ok fv, w1)
      ∧ fetched w1 = []
      ∧ ∃ users errs w3,
          LoadAllThunk_call joinErrors fv w1 = (Ok (users, errs), w3)
          ∧ length users = 2%nat ∧ length errs = 2%nat
          ∧ Forall2 (λ kw r, served joinErrors fetch_values kw.2 w3 kw.1 r)
              (zip [0; 1]%nat
                 (attach_worlds joinErrors [0; 1]%nat (world_of fetch_values 10)))
              (zip users errs).
Proof.
  split; [exact int_range_10|].
  destruct (X10_LoadAllThunk_defers joinErrors fetch_values 1000000 10
              (world_of fetch_values 10) [0; 1]%nat int_range_10)
    as (fv & w1 & H1 & H2 & H3).
  { exists heap0, [], []. reflexivity. }
  exists fv, w1. split; [exact H1|]. split; [exact (H2 eq_refl)|].
  destruct (H3 w1 (follows_refl joinErrors w1))
    as (users & errs & w3 & H4 & H5 & H6 & H7).
  exists users, errs, w3. split; [exact H4|]. split; [exact H5|].
  split; [exact H6|exact H7].
Defined.

Lemma X11_sample :
  int_range 10
  ∧ ∃ r w',
      (Clear 1%nat ≫= λ _, yield joinErrors ≫= λ _, Load joinErrors 1%nat)
        primed_run
      = (Ok r, w')
      ∧ fetched_for fetch_values joinErrors (fetched w').*1 1%nat r.
Proof.
  split; [exact int_range_10|].
  apply (X11_Clear_then_Load_asks_fetch joinErrors fetch_values 1000000 10
           primed_run 1%nat int_range_10).
  - exists heap0, [], [APrime 1%nat (Some 7%positive)]. reflexivity.
  - reflexivity.
Defined.

Lemma X12_sample :
  ∃ a,
    appendErrors
      (NewUserLoader_formatErrors range_map_list sort_Slice_merge
         (Some (String.concat ", ")))
      [Some (errorString "a"); None; Some (errorString "b")]
    = Some a
    ∧ Error a = "a, b"%string.
Proof.
  destruct (X12_configured_format_is_used range_map_list sort_Slice_merge
              (String.concat ", ")
              [Some (errorString "a"); None; Some (errorString "b")])
    as (a & H1 & _ & H2); [repeat constructor|].
  exists a. split; [exact H1|exact H2].
Defined.

Lemma X14_sample :
  appendErrors (Some (String.concat ", "))
    [None; Some (multierror [errorString "a"; errorString "b"] None)]
  = Some (multierror [errorString "a"; errorString "b"]
            (Some (String.concat ", "))).
Proof.
  apply (X14_format_of_a_fetched_multierror_is_replaced
           (Some (String.concat ", "))
           [None; Some (multierror [errorString "a"; errorString "b"] None)]
           [errorString "a"; errorString "b"] None).
  reflexivity.
Defined.


Lemma X17_sample :
  int_range 2
  ∧ ([0; 1]%nat, false) ∈ fetched capacity_run
  ∧ length (fetched capacity_run)
    = length (filter (λ B, done B = true) (batches capacity_run)).
Proof.
  split; [exact int_range_2|].
  destruct (X17_mutex_is_held_on_the_timer_path joinErrors fetch_values
              1000000 2 capacity_run int_range_2) as (H1 & _ & H2).
  { exists heap0, [], [ALoadThunk 0%nat; ALoadThunk 1%nat; AGo 1%nat].
    reflexivity. }
  split; [|exact H2].
  apply (H1 0%nat (Batch [0; 1]%nat [Some 1%positive; Some 2%positive]
                     [None; None] true true)); reflexivity.
Defined.

Lemma X18_sample :
  int_range (-1)
  ∧ batch (loader (run joinErrors [ALoadThunk 0%nat; ALoadThunk 1%nat; AGo 1%nat]
                     (world_of fetch_values (-1)))) = None
  ∧ ∀ call,
      call ∈ fetched (run joinErrors
                        [ALoadThunk 0%nat; ALoadThunk 1%nat; AGo 1%nat]
                        (world_of fetch_values (-1))) →
      ∃ key, call = ([key], false).
Proof.
  split; [exact int_range_minus_1|].
  destruct (X18_batch_size_below_two_never_batches joinErrors fetch_values
              1000000 (-1)
              (run joinErrors [ALoadThunk 0%nat; ALoadThunk 1%nat; AGo 1%nat]
                 (world_of fetch_values (-1)))
              int_range_minus_1) as (H1 & _ & H2); [lia..| |].
  { exists heap0, [], [ALoadThunk 0%nat; ALoadThunk 1%nat; AGo 1%nat].
    reflexivity. }
  split; [exact H1|exact H2].
Defined.

Lemma X19_sample :
  int_range 10
  ∧ match exec joinErrors (APrime 1%nat None) (world_of fetch_values 10) with
    | (Ok _, w') => mu (loader w') = false
    | (Panic _, w') =>
        w' = world_of fetch_values 10
        ∧ ∃ key, APrime (V:=string) 1%nat None = APrime key None
                 ∧ cache_lookup (cache (loader (world_of fetch_values 10))) key
                   = None
    | (Blocked, w') =>
        w' = world_of fetch_values 10
        ∧ ∃ b pos key B,
            APrime (V:=string) 1%nat None = ACall (ThunkBatch b pos key)
            ∧ batches (world_of fetch_values 10) !! b = Some B
            ∧ done B = false
    end.
Proof.
  split; [exact int_range_10|].
  apply (X19_what_panics_and_what_waits joinErrors fetch_values 1000000 10
           (world_of fetch_values 10) (APrime 1%nat None) int_range_10).
  - exists heap0, [], []. reflexivity.
  - intros t Ht. discriminate.
  - intros key p Hp. discriminate.
Defined.

Lemma X20_sample :
  int_range 10
  ∧ heap (interfere joinErrors primed_run (AClear 1%nat)) !! 8%positive
    = Some "Primed"%string.
Proof.
  split; [exact int_range_10|].
  apply (X20_loader_never_writes_a_value joinErrors fetch_values 1000000 10
           primed_run (AClear 1%nat) 8%positive "Primed"%string int_range_10).
  - exists heap0, [], [APrime 1%nat (Some 7%positive)]. reflexivity.
  - intros p' v'. discriminate.
  - reflexivity.
Defined.
